(** * Repository discovery: the query aggregation engine

    A shallow embedding of the [GitHubSearch] class of
    [firebase/firebase_repo_search.py] (shared, up to keyword lists and
    time windows, with [trae/trae_repo_search.py] and
    [windsurf/windsurf_repo_search_excel.py]): the paginating request
    executor, the hard-coded time windows, the search adapters and the
    two-scope result aggregator. *)

From stdpp Require Import gmap strings list fin_maps.
From Stdlib Require Import ZArith Lia Ascii.

#[local] Set Warnings "-register-all".
#[local] Open Scope Z_scope.

(** ** Python strings

    [str] values are modelled as [string], the bytes of their UTF-8
    encoding (containment and splitting on ASCII separators agree on
    code points and on bytes); the three operations the aggregator and
    the issue adapter use are the containment test [t in s],
    [s.split(sep)] and [sep.join(l)]. *)

Module PyStr.

(** [s.startswith(t)] *)
Fixpoint startswith (t s : string) : bool :=
  match t, s with
  | "", _ => true
  | String a t', String b s' => if decide (a = b) then startswith t' s' else false
  | String _ _, "" => false
  end.

(** [t in s]: some suffix of [s] starts with [t]. *)
Fixpoint contains (t s : string) : bool :=
  startswith t s
  || match s with
     | "" => false
     | String _ s' => contains t s'
     end.

(** Prepend a character to the first piece of a split. *)
Definition cons_head (a : ascii) (ws : list string) : list string :=
  match ws with
  | [] => [String a ""]
  | w :: ws' => String a w :: ws'
  end.

(** [s.split(", ")]: the separator occurrences are found greedily from
    the left; the empty string splits into one empty piece. *)
Fixpoint split_comma (s : string) : list string :=
  match s with
  | "" => [""]
  | String a rest =>
      match rest with
      | String b rest' =>
          if decide (a = ","%char ∧ b = " "%char) then "" :: split_comma rest'
          else cons_head a (split_comma rest)
      | "" => cons_head a (split_comma rest)
      end
  end.

(** [s.split(c)] for a one-character separator. *)
Fixpoint split (c : ascii) (s : string) : list string :=
  match s with
  | "" => [""]
  | String a rest =>
      if decide (a = c) then "" :: split c rest
      else cons_head a (split c rest)
  end.

(** [sep.join(l)] *)
Fixpoint join (sep : string) (l : list string) : string :=
  match l with
  | [] => ""
  | [w] => w
  | w :: ws => w +:+ sep +:+ join sep ws
  end.

End PyStr.


(** ** JSON values and Python exceptions

    Search results are parsed JSON; objects are dictionaries. *)

Inductive json :=
  | JNull
  | JBool (b : bool)
  | JNum (n : Z)
  | JStr (s : string)
  | JArr (l : list json)
  | JObj (o : gmap string json).

Inductive py_error :=
  | KeyError (key : string)
  | IndexError
  | TypeError.

Inductive result (A : Type) :=
  | Ok (a : A)
  | Raise (e : py_error).
Arguments Ok {A} a.
Arguments Raise {A} e.

Definition bind {A B} (m : result A) (f : A → result B) : result B :=
  match m with
  | Ok a => f a
  | Raise e => Raise e
  end.

Notation "x ←! m ; k" := (bind m (λ x, k))
  (at level 20, m at level 100, k at level 200, right associativity,
   format "x  ←!  m ;  '/' k").

(** [d[key]] *)
Definition getitem (d : gmap string json) (key : string) : result json :=
  match d !! key with
  | Some v => Ok v
  | None => Raise (KeyError key)
  end.

(** [d[key]] where the value is used as a dictionary. *)
Definition getitem_obj (d : gmap string json) (key : string)
  : result (gmap string json) :=
  v ←! getitem d key;
  match v with
  | JObj o => Ok o
  | _ => Raise TypeError
  end.

(** [d[key]] where the value is used as a string: the scopes are typed
    [Dict[str, Dict]] and repository URLs are split, so a value of
    another type is taken as a [TypeError]. *)
Definition getitem_str (d : gmap string json) (key : string) : result string :=
  v ←! getitem d key;
  match v with
  | JStr s => Ok s
  | _ => Raise TypeError
  end.

(** ** The result aggregator

    A repository record is the dictionary [repo_info] with the keys
    [url], [description] and [found_by].  Records are mutable objects:
    the same dictionary can be stored in both scopes, so the scopes map
    repository names to locations in a store of records. *)

Record record := Record_ {
  url : json;
  description : json;
  found_by : string;
}.

(** Locations of the store. *)
Abbreviation loc := nat (only parsing).

Record GitHubSearch := GitHubSearch_ {
  store : list record;
  (* self.repos: all results of the run *)
  repos : gmap string loc;
  (* self.current_search_repos: results of the current search loop *)
  current_search_repos : gmap string loc;
}.

(** [GitHubSearch.__init__]: both scopes start empty. *)
Definition init : GitHubSearch :=
  {| store := []; repos := ∅; current_search_repos := ∅ |}.

Definition no_description : json := JStr "No description".

(** The dictionary literal of [_add_repository]. *)
Definition repo_info (repo : gmap string json) (found_by : string)
  : result record :=
  html_url ←! getitem repo "html_url";
  Ok {| url := html_url;
        description := default no_description (repo !! "description");
        found_by := found_by |}.

(** [scope[name]['found_by'] += f", {found_by}"] on the object at [l]. *)
Definition append_found_by (tag : string) (r : record) : record :=
  {| url := url r; description := description r;
     found_by := found_by r +:+ ", " +:+ tag |}.

(** One [if repo_name not in scope: ... else: ...] block: a new name is
    bound to the object [info] (no copy is made); for a known name the
    stored object is updated in place when the tag is not contained in
    its [found_by] string. *)
Definition merge_scope (scope : gmap string loc) (h : list record)
    (repo_name : string) (info : loc) (tag : string)
  : gmap string loc * list record :=
  match scope !! repo_name with
  | None => (<[repo_name := info]> scope, h)
  | Some l =>
      match h !! l with
      | Some r =>
          if PyStr.contains tag (found_by r) then (scope, h)
          else (scope, <[l := append_found_by tag r]> h)
      | None => (scope, h) (* no dangling location in a run, see [wf] *)
      end
  end.

(** The body of [_add_repository] once [repo] is selected. *)
Definition add_repo (repo : gmap string json) (tag : string)
    (is_current_search : bool) (self : GitHubSearch) : result GitHubSearch :=
  repo_name ←! getitem_str repo "full_name";
  info ←! repo_info repo tag;
  let l := length (store self) in
  let h1 := store self ++ [info] in
  let '(cur, h2) :=
    if is_current_search
    then merge_scope (current_search_repos self) h1 repo_name l tag
    else (current_search_repos self, h1) in
  let '(all, h3) := merge_scope (repos self) h2 repo_name l tag in
  Ok {| store := h3; repos := all; current_search_repos := cur |}.

(** The first lines of [_add_repository] in the firebase and trae
    scripts: code search items carry the repository in a nested object. *)
Definition select_repo (repo_data : gmap string json)
  : result (gmap string json) :=
  match repo_data !! "repository" with
  | Some (JObj r) => Ok r
  | Some _ => Raise TypeError
  | None => Ok repo_data
  end.

(** [GitHubSearch._add_repository] of the firebase and trae scripts. *)
Definition _add_repository (repo_data : gmap string json) (found_by : string)
    (is_current_search : bool) (self : GitHubSearch) : result GitHubSearch :=
  repo ←! select_repo repo_data;
  add_repo repo found_by is_current_search self.

(** [self.current_search_repos.clear()] *)
Definition clear_current (self : GitHubSearch) : GitHubSearch :=
  {| store := store self; repos := repos self; current_search_repos := ∅ |}.

(** What a reader of a scope sees: each name with its record. *)
Definition view (h : list record) (scope : gmap string loc)
  : gmap string record :=
  omap (λ l, h !! l) scope.

Definition repos_view (self : GitHubSearch) : gmap string record :=
  view (store self) (repos self).
Definition current_view (self : GitHubSearch) : gmap string record :=
  view (store self) (current_search_repos self).

(** The provenance set of a record, as the catalogue's readers recover
    it ([merge_csv_files.py]: [found_by.split(", ")]). *)
Definition provenance (r : record) : list string :=
  PyStr.split_comma (found_by r).

(** A run of the aggregator: merges and batch clears in any order, as
    the drivers ([main]) issue them. *)
Inductive op :=
  | OpAdd (repo_data : gmap string json) (found_by : string)
      (is_current_search : bool)
  | OpClear.

Definition exec (o : op) (self : GitHubSearch) : result GitHubSearch :=
  match o with
  | OpAdd repo_data tag flag => _add_repository repo_data tag flag self
  | OpClear => Ok (clear_current self)
  end.

Fixpoint run (ops : list op) (self : GitHubSearch) : result GitHubSearch :=
  match ops with
  | [] => Ok self
  | o :: ops' => self' ←! exec o self; run ops' self'
  end.

(** ** The request executor

    [requests.get] followed by [raise_for_status] has three outcomes.
    Header values are the integers [int(...)] reads; an absent header
    reads as [0]. *)

Record headers := Headers {
  x_ratelimit_remaining : option Z;
  x_ratelimit_reset : option Z;
}.

Record page_data := PageData {
  total_count : Z;
  items : list (gmap string json);
}.

Inductive response :=
  | Success (h : headers) (data : page_data)
  | HTTPError (status_code : Z) (h : headers)
  | RequestException.

(** The server answers a request for a page issued at a time of the
    clock: the seconds the exchange takes, and its outcome. *)
Definition endpoint := Z → nat → Z * response.

(** What the executor does to the outside world. *)
Inductive event :=
  | Get (page : nat)
  | Sleep (seconds : Z).

(** [self.per_page] and [self.max_results] of [__init__], and the ten
    seconds both rate-limit paths add to the waiting time. *)
Definition per_page : Z := 100.
Definition max_results : Z := 1000.
Definition safety_margin : Z := 10.

(** The local variables of [_make_request], the clock ([time.time()],
    advanced by [time.sleep]) and the events so far. *)
Record loop_state := LoopState {
  all_items : list (gmap string json);
  seen_total : Z;
  page : nat;
  clock : Z;
  events : list event;
}.

Definition sleep (seconds : Z) (st : loop_state) : loop_state :=
  {| all_items := all_items st; seen_total := seen_total st; page := page st;
     clock := clock st + seconds; events := events st ++ [Sleep seconds] |}.

Definition get (elapsed : Z) (st : loop_state) : loop_state :=
  {| all_items := all_items st; seen_total := seen_total st; page := page st;
     clock := clock st + elapsed; events := events st ++ [Get (page st)] |}.

(** The waiting time both rate-limit paths compute. *)
Definition wait_time (h : headers) (now : Z) : Z :=
  Z.max (default 0 (x_ratelimit_reset h) - now) 0 + safety_margin.

(** [_check_rate_limit]: [Some wait] when it sleeps and returns [True]. *)
Definition _check_rate_limit (h : headers) (now : Z) : option Z :=
  if decide (default 0 (x_ratelimit_remaining h) ≤ 1)
  then Some (wait_time h now)
  else None.

(** One pass through the body of [while True]; the boolean tells
    whether the loop goes on. *)
Definition iteration (limit : Z) (ep : endpoint) (st : loop_state)
  : loop_state * bool :=
  let '(elapsed, response) := ep (clock st) (page st) in
  let st1 := get elapsed st in
  match response with
  | Success h data =>
      match _check_rate_limit h (clock st1) with
      | Some wait => (sleep wait st1, true)
      | None =>
          let total :=
            if decide (page st = 1%nat) then total_count data
            else seen_total st in
          match items data with
          | [] =>
              ({| all_items := all_items st1; seen_total := total;
                  page := page st1; clock := clock st1;
                  events := events st1 |}, false)
          | _ =>
              let all := all_items st ++ items data in
              if decide (Z.min total limit ≤ Z.of_nat (length all))
              then ({| all_items := all; seen_total := total;
                       page := page st1; clock := clock st1;
                       events := events st1 |}, false)
              else (sleep 1 {| all_items := all; seen_total := total;
                               page := S (page st1); clock := clock st1;
                               events := events st1 |}, true)
          end
      end
  | HTTPError status_code h =>
      if decide (status_code = 403)
      then (sleep (wait_time h (clock st1)) st1, true)
      else (st1, false)
  | RequestException => (st1, false)
  end.

(** [while True]: [None] when the fuel runs out before a [break]. *)
Fixpoint loop (fuel : nat) (limit : Z) (ep : endpoint) (st : loop_state)
  : option loop_state :=
  match fuel with
  | O => None
  | S fuel' =>
      let '(st', continue) := iteration limit ep st in
      if continue then loop fuel' limit ep st' else Some st'
  end.

Definition start (now : Z) : loop_state :=
  {| all_items := []; seen_total := 0; page := 1; clock := now; events := [] |}.

(** [GitHubSearch._make_request]: the returned dictionary together with
    the final clock and the events. *)
Definition _make_request (fuel : nat) (ep : endpoint) (now : Z)
  : option loop_state :=
  loop fuel max_results ep (start now).

Definition is_get (e : event) : bool :=
  match e with
  | Get _ => true
  | Sleep _ => false
  end.

(** The number of requests a finished call has issued. *)
Definition pages_fetched (st : loop_state) : nat :=
  length (filter (λ e, is_get e) (events st)).

(** A mocked endpoint that holds [corpus], serves it in pages of [P]
    items, reports [T] as the total on every page, answers at once and
    never signals a rate limit (the remaining quota [quota] is meant to
    exceed 1). *)
Definition mock_endpoint (T : Z) (P : nat) (quota : Z)
    (corpus : list (gmap string json)) : endpoint :=
  λ _ page,
    (0,
     Success {| x_ratelimit_remaining := Some quota; x_ratelimit_reset := None |}
             {| total_count := T;
                items := take P (drop ((page - 1) * P)%nat corpus) |}).

(** ** The time windows

    The drivers carry their windows as literal pairs of ISO dates. *)

Definition firebase_time_ranges : list (string * string) :=
  [ ("2023-07-01", "2023-07-31"); ("2023-08-01", "2023-08-31");
    ("2023-09-01", "2023-09-30"); ("2023-10-01", "2023-10-31");
    ("2023-11-01", "2023-11-30"); ("2023-12-01", "2023-12-31");
    ("2024-01-01", "2024-01-31"); ("2024-02-01", "2024-02-29");
    ("2024-03-01", "2024-03-31"); ("2024-04-01", "2024-04-30");
    ("2024-05-01", "2024-05-31"); ("2024-06-01", "2024-06-30");
    ("2024-07-01", "2024-07-31"); ("2024-08-01", "2024-08-31");
    ("2024-09-01", "2024-09-30"); ("2024-10-01", "2024-10-31");
    ("2024-11-01", "2024-11-30"); ("2024-12-01", "2024-12-31");
    ("2025-01-01", "2025-01-31"); ("2025-02-01", "2025-02-28");
    ("2025-03-01", "2025-03-15"); ("2025-03-16", "2025-03-31");
    ("2025-04-01", "2025-04-15"); ("2025-04-16", "2025-04-30") ].

(** [time_ranges] of firebase's [search_issues]. *)
Definition search_issues_time_ranges : list (string * string) :=
  firebase_time_ranges.

(** [time_ranges] of firebase's [search_repositories_by_description]
    (the same literal list). *)
Definition search_repositories_time_ranges : list (string * string) :=
  firebase_time_ranges.

Module Trae.
(** [time_ranges] of trae's [search_issues]. *)
Definition search_issues_time_ranges : list (string * string) :=
  [ ("2024-07-01", "2024-12-31"); ("2025-01-01", "2025-06-30") ].
End Trae.

Module Windsurf.
(** [GitHubSearch._add_repository] of the windsurf script: the item is
    the repository object itself. *)
Definition _add_repository (repo_data : gmap string json) (found_by : string)
    (is_current_search : bool) (self : GitHubSearch) : result GitHubSearch :=
  add_repo repo_data found_by is_current_search self.

(** [time_ranges] of windsurf's [search_repositories_by_description]. *)
Definition search_repositories_time_ranges : list (string * string) :=
  [ ("2024-11-01", "2024-11-30"); ("2024-12-01", "2024-12-31");
    ("2025-01-01", "2025-01-31"); ("2025-02-01", "2025-02-28");
    ("2025-03-01", "2025-03-15"); ("2025-03-16", "2025-03-31");
    ("2025-04-01", "2025-04-15"); ("2025-04-16", "2025-04-30") ].
End Windsurf.

(** Dates of the proleptic Gregorian calendar, to read the windows as
    closed intervals of days. *)
Module Date.

Definition digit (a : ascii) : option Z := Z.of_nat <$> Ascii.is_nat a.

Definition number (ds : list ascii) : option Z :=
  foldl (λ acc a, n ← acc; d ← digit a; Some (10 * n + d)) (Some 0) ds.

(** [YYYY-MM-DD] *)
Definition parse (s : string) : option (Z * Z * Z) :=
  match s with
  | String y1 (String y2 (String y3 (String y4 (String "-" (String m1
      (String m2 (String "-" (String d1 (String d2 ""))))))))) =>
      y ← number [y1; y2; y3; y4];
      m ← number [m1; m2];
      d ← number [d1; d2];
      Some (y, m, d)
  | _ => None
  end.

Definition is_leap (y : Z) : bool :=
  bool_decide (y mod 4 = 0)
  && (negb (bool_decide (y mod 100 = 0)) || bool_decide (y mod 400 = 0)).

Definition days_in_month (y m : Z) : Z :=
  if bool_decide (m = 2) then (if is_leap y then 29 else 28)
  else if bool_decide (m = 4 ∨ m = 6 ∨ m = 9 ∨ m = 11) then 30
  else 31.

Definition valid (ymd : Z * Z * Z) : bool :=
  let '(y, m, d) := ymd in
  bool_decide (1 ≤ y ∧ 1 ≤ m ≤ 12 ∧ 1 ≤ d ≤ days_in_month y m).

(** Days of the year before the first of month [m]. *)
Definition days_before_month (y m : Z) : Z :=
  foldr (λ i acc, days_in_month y i + acc) 0
        (Z.of_nat <$> seq 1 (Z.to_nat (m - 1))).

(** Days before January 1st of year [y]. *)
Definition days_before_year (y : Z) : Z :=
  365 * (y - 1) + (y - 1) / 4 - (y - 1) / 100 + (y - 1) / 400.

(** The day number of a date (January 1st of year 1 is day 1). *)
Definition ordinal (ymd : Z * Z * Z) : Z :=
  let '(y, m, d) := ymd in
  days_before_year y + days_before_month y m + d.

(** A window as a closed interval of day numbers. *)
Definition interval (w : string * string) : option (Z * Z) :=
  s ← parse w.1;
  e ← parse w.2;
  if valid s && valid e then Some (ordinal s, ordinal e) else None.

Definition intervals (ws : list (string * string)) : option (list (Z * Z)) :=
  mapM interval ws.

(** Each window is non-empty and the next one starts the day after. *)
Fixpoint contiguous (l : list (Z * Z)) : bool :=
  match l with
  | [] => true
  | (s, e) :: l' =>
      bool_decide (s ≤ e)
      && match l' with
         | [] => true
         | (s', _) :: _ => bool_decide (s' = e + 1)
         end
      && contiguous l'
  end.

Definition covers (i : Z * Z) (d : Z) : Prop := i.1 ≤ d ≤ i.2.

(** The day number of an ISO date string. *)
Definition day (s : string) : option Z :=
  ymd ← parse s;
  if valid ymd then Some (ordinal ymd) else None.

(** A window that is a whole month, or its first or second half. *)
Definition month_aligned (w : string * string) : bool :=
  match parse w.1, parse w.2 with
  | Some (y, m, d), Some (y', m', d') =>
      bool_decide (y = y' ∧ m = m'
                   ∧ ((d = 1 ∧ (d' = 15 ∨ d' = days_in_month y m))
                      ∨ (d = 16 ∧ d' = days_in_month y m)))
  | _, _ => false
  end.

(** The windows [ws] cut the range from [first] to [last] into closed
    intervals of days: they follow one another in time without
    touching, none is empty, and a day lies in the range exactly when
    some window covers it. *)
Definition partitions (ws : list (string * string)) (first last : string)
  : Prop :=
  ∃ ivs lo hi,
    intervals ws = Some ivs ∧ day first = Some lo ∧ day last = Some hi
    ∧ (∀ a, a ∈ ivs → a.1 ≤ a.2)
    ∧ (∀ i j a b, ivs !! i = Some a → ivs !! j = Some b → (i < j)%nat →
                  a.2 < b.1)
    ∧ (∀ d, lo ≤ d ≤ hi ↔ ∃ a, a ∈ ivs ∧ covers a d).

End Date.

(** ** The search adapters

    Each adapter feeds the items of one executed query to the
    aggregator under the tag of that query. *)

Definition code_tag (query sort order : string) : string :=
  "code_search: " +:+ query +:+ " (" +:+ sort +:+ " " +:+ order +:+ ")".

Definition commit_tag (query : string) : string :=
  "commit_search: " +:+ query.

Definition issue_tag (query start_date end_date : string) : string :=
  "issue_search: " +:+ query +:+ " (" +:+ start_date +:+ " to "
  +:+ end_date +:+ ")".

Definition description_tag (query start_date end_date : string) : string :=
  "repo_description: " +:+ query +:+ " (" +:+ start_date +:+ " to "
  +:+ end_date +:+ ")".

(** [for item in data['items']: body] *)
Fixpoint for_items {S} (body : gmap string json → S → result S)
    (items : list (gmap string json)) (st : S) : result S :=
  match items with
  | [] => Ok st
  | item :: items' => st' ←! body item st; for_items body items' st'
  end.

(** Loop body of [search_code]. *)
Definition search_code_item (query sort order : string)
    (is_current_search : bool) (item : gmap string json)
    (self : GitHubSearch) : result GitHubSearch :=
  _add_repository item (code_tag query sort order) is_current_search self.

(** Loop body of [search_commits]. *)
Definition search_commits_item (query : string) (is_current_search : bool)
    (item : gmap string json) (self : GitHubSearch) : result GitHubSearch :=
  repository ←! getitem_obj item "repository";
  _add_repository repository (commit_tag query) is_current_search self.

(** [parts[-k]] for [k ≥ 1] *)
Definition index_from_end (parts : list string) (k : nat) : result string :=
  if decide (k ≤ length parts)%nat
  then match parts !! (length parts - k)%nat with
       | Some x => Ok x
       | None => Raise IndexError
       end
  else Raise IndexError.

(** The repository object [search_issues] builds from the URL. *)
Definition issue_repo_info (owner repo_name : string) : gmap string json :=
  {[ "full_name" := JStr (owner +:+ "/" +:+ repo_name);
     "html_url" := JStr ("https://github.com/" +:+ owner +:+ "/" +:+ repo_name);
     "description" := JStr "" ]}.

(** Loop body of [search_issues]; the second component collects the
    warnings it prints. *)
Definition search_issues_item (query start_date end_date : string)
    (is_current_search : bool) (item : gmap string json)
    (st : GitHubSearch * list string) : result (GitHubSearch * list string) :=
  repo_url ←! getitem_str item "repository_url";
  let parts := PyStr.split "/" repo_url in
  if decide (5 ≤ length parts)%nat then
    owner ←! index_from_end parts 2;
    repo_name ←! index_from_end parts 1;
    self' ←! _add_repository (issue_repo_info owner repo_name)
               (issue_tag query start_date end_date) is_current_search st.1;
    Ok (self', st.2)
  else
    Ok (st.1, st.2 ++ ["Warning: Invalid repository URL format: " +:+ repo_url]).

(** Loop body of [search_repositories_by_description]. *)
Definition search_repositories_item (query start_date end_date : string)
    (is_current_search : bool) (item : gmap string json)
    (self : GitHubSearch) : result GitHubSearch :=
  _add_repository item (description_tag query start_date end_date)
    is_current_search self.

(** The four search surfaces. *)
Inductive modality :=
  | Content (sort order : string)
  | History
  | Issue (start_date end_date : string)
  | Description (start_date end_date : string).

(** The repository object an adapter extracts from an item. *)
Definition extract (m : modality) (item : gmap string json)
  : result (option (gmap string json)) :=
  match m with
  | Content _ _ | Description _ _ =>
      match item !! "repository" with
      | Some (JObj r) => Ok (Some r)
      | Some _ => Raise TypeError
      | None => Ok (Some item)
      end
  | History =>
      repository ←! getitem_obj item "repository";
      match repository !! "repository" with
      | Some (JObj r) => Ok (Some r)
      | Some _ => Raise TypeError
      | None => Ok (Some repository)
      end
  | Issue _ _ =>
      repo_url ←! getitem_str item "repository_url";
      let parts := PyStr.split "/" repo_url in
      if decide (5 ≤ length parts)%nat then
        owner ←! index_from_end parts 2;
        repo_name ←! index_from_end parts 1;
        Ok (Some (issue_repo_info owner repo_name))
      else Ok None
  end.

(** The loop body of the adapter of each surface. *)
Definition adapter_item (m : modality) (query : string)
    (is_current_search : bool) (item : gmap string json)
    (self : GitHubSearch) : result GitHubSearch :=
  match m with
  | Content sort order =>
      search_code_item query sort order is_current_search item self
  | History => search_commits_item query is_current_search item self
  | Issue s e =>
      st ←! search_issues_item query s e is_current_search item (self, []);
      Ok st.1
  | Description s e =>
      search_repositories_item query s e is_current_search item self
  end.


(** The tag under which the adapter of a surface files its items. *)
Definition adapter_tag (m : modality) (query : string) : string :=
  match m with
  | Content sort order => code_tag query sort order
  | History => commit_tag query
  | Issue s e => issue_tag query s e
  | Description s e => description_tag query s e
  end.

(** ** Vocabulary of the statements *)

(** A string without the character [c]. *)
Definition free_of (c : ascii) (w : string) : Prop :=
  PyStr.contains (String c "") w = false.

(** What one merge does to a stored record. *)
Definition merge_tag (tag : string) (r : record) : record :=
  if PyStr.contains tag (found_by r) then r else append_found_by tag r.

Definition merge_record (info : record) (tag : string) (old : option record)
  : record :=
  match old with
  | None => info
  | Some r => merge_tag tag r
  end.

(** The name [k] is bound to the location [l] in one of the scopes. *)
Definition in_scopes (self : GitHubSearch) (k : string) (l : loc) : Prop :=
  repos self !! k = Some l ∨ current_search_repos self !! k = Some l.

(** The shape of the states of a run: the scopes hold locations of the
    store, and a record object is filed under one name only. *)
Record wf (self : GitHubSearch) : Prop := Wf {
  wf_bound : ∀ k l, in_scopes self k l → (l < length (store self))%nat;
  wf_inj : ∀ k1 k2 l, in_scopes self k1 l → in_scopes self k2 l → k1 = k2;
}.

(** [if k not in scope: scope[k] = l] *)
Definition bind_loc (k : string) (l : loc) (scope : gmap string loc)
  : gmap string loc :=
  match scope !! k with
  | None => <[k := l]> scope
  | Some _ => scope
  end.

(** The in-place update of the record a scope holds, if it holds one. *)
Definition touch (tag : string) (o : option loc) (h : list record)
  : list record :=
  match o with
  | Some l => alter (merge_tag tag) l h
  | None => h
  end.

(** The effect of [add_repo] on the store and the scopes, for the
    repository name [k] and the new dictionary [info]. *)
Definition added (tag : string) (flag : bool) (k : string) (info : record)
    (self self' : GitHubSearch) : Prop :=
  store self'
  = touch tag (repos self !! k)
      (touch tag (if flag then current_search_repos self !! k else None)
         (store self ++ [info]))
  ∧ repos self' = bind_loc k (length (store self)) (repos self)
  ∧ current_search_repos self'
    = if flag then bind_loc k (length (store self)) (current_search_repos self)
      else current_search_repos self.


(** The repository name under which a call of [_add_repository] files
    its argument, when it gets that far. *)
Definition identity (repo_data : gmap string json) : option string :=
  match select_repo repo_data with
  | Ok repo =>
      match repo !! "full_name" with
      | Some (JStr k) => Some k
      | _ => None
      end
  | Raise _ => None
  end.

(** The tags the merges of a run apply to the name [k], in order. *)
Definition tags_for (k : string) (ops : list op) : list string :=
  omap (λ o, match o with
             | OpAdd repo_data tag _ =>
                 if decide (identity repo_data = Some k) then Some tag else None
             | OpClear => None
             end) ops.

(** All the tags of a run. *)
Definition tags_of (ops : list op) : list string :=
  omap (λ o, match o with
             | OpAdd _ tag _ => Some tag
             | OpClear => None
             end) ops.

(** A tag the joined representation can hold unambiguously: no comma
    inside and no leading blank. *)
Definition plain (tag : string) : Prop :=
  free_of "," tag ∧ PyStr.startswith " " tag = false.

(** No tag occurs inside another one. *)
Definition independent (tags : list string) : Prop :=
  ∀ t t', t ∈ tags → t' ∈ tags → PyStr.contains t t' = true → t = t'.

(** The [found_by] string of a name after one more merge with [tag];
    [None] stands for a name that is not in the scope yet. *)
Definition join_tag (o : option string) (tag : string) : option string :=
  Some match o with
       | None => tag
       | Some s => if PyStr.contains tag s then s else s +:+ ", " +:+ tag
       end.

(** ... and after a sequence of merges. *)
Definition joined (o : option string) (tags : list string) : option string :=
  foldl join_tag o tags.

(** Every operation is a merge with batch tracking enabled. *)
Definition tracked (ops : list op) : Prop :=
  Forall (λ o, match o with
               | OpAdd _ _ flag => flag = true
               | OpClear => False
               end) ops.

(** How the record of a name stands [after] a sequence of merges that
    applied [tags] to it, compared with [before]: its provenance is only
    extended at the end; every applied tag is contained in its
    [found_by] string; and for a name that was absent, every element of
    the provenance is a piece of an applied tag, the provenance being
    the set of the applied tags when these are plain and independent. *)
Definition grows_to_union (before after : option record)
    (tags : list string) : Prop :=
  (∀ r, before = Some r →
        ∃ r', after = Some r' ∧ provenance r `prefix_of` provenance r')
  ∧ (∀ t, t ∈ tags →
          ∃ r', after = Some r' ∧ PyStr.contains t (found_by r') = true)
  ∧ (before = None →
     ∀ r', after = Some r' →
       (∀ w, w ∈ provenance r' → ∃ t, t ∈ tags ∧ w ∈ PyStr.split_comma t)
       ∧ (Forall plain tags → independent tags →
          ∀ t, t ∈ provenance r' ↔ t ∈ tags)).

(** The batch scope lies within the global scope: each of its names is
    known globally, and each tag its record lists is contained in the
    [found_by] string of the global record. *)
Definition batch_within_global (self : GitHubSearch) : Prop :=
  ∀ k rb, current_view self !! k = Some rb →
    ∃ rg, repos_view self !! k = Some rg
          ∧ ∀ t, t ∈ provenance rb → PyStr.contains t (found_by rg) = true.

(** Every record of either scope lists only tags of [T]. *)
Definition listed_in (T : list string) (self : GitHubSearch) : Prop :=
  ∀ k r, repos_view self !! k = Some r ∨ current_view self !! k = Some r →
    ∀ w, w ∈ provenance r → w ∈ T.

(** [ceil(a / b)] on natural numbers. *)
Definition ceil_div (a b : nat) : nat := ((a + b - 1) / b)%nat.

(** The responses after which the executor stalls: a delivered response
    or a 403 error whose remaining quota reads at most 1. *)
Definition quota_exhausted (r : response) (h : headers) : Prop :=
  ((∃ data, r = Success h data) ∨ r = HTTPError 403 h)
  ∧ default 0 (x_ratelimit_remaining h) ≤ 1.

(** Items numbered [1 .. n], to tell them apart in fetch order. *)
Definition numbered (n : nat) : list (gmap string json) :=
  (λ i, {[ "id" := JNum (Z.of_nat i) ]}) <$> seq 1 n.

(** The number of places of [s] at which [t] occurs. *)
Fixpoint occurrences (t s : string) : nat :=
  ((if PyStr.startswith t s then 1 else 0)
   + match s with
     | "" => 0
     | String _ s' => occurrences t s'
     end)%nat.

(** ** Sample inputs *)

Module Sample.

(** A repository object as the description search returns it. *)
Definition widget : gmap string json :=
  {[ "full_name" := JStr "acme/widget";
     "html_url" := JStr "https://github.com/acme/widget";
     "description" := JStr "A widget" ]}.

(** The same repository seen later with other metadata. *)
Definition widget_later : gmap string json :=
  {[ "full_name" := JStr "acme/widget";
     "html_url" := JStr "https://github.com/acme/widget-ng";
     "description" := JStr "A better widget" ]}.

(** The same repository without a description key. *)
Definition widget_bare : gmap string json :=
  {[ "full_name" := JStr "acme/widget";
     "html_url" := JStr "https://github.com/acme/widget" ]}.

(** The same repository with [description: null]. *)
Definition widget_null : gmap string json :=
  {[ "full_name" := JStr "acme/widget";
     "html_url" := JStr "https://github.com/acme/widget";
     "description" := JNull ]}.

Definition gizmo : gmap string json :=
  {[ "full_name" := JStr "acme/gizmo";
     "html_url" := JStr "https://github.com/acme/gizmo";
     "description" := JStr "A gizmo" ]}.

(** A code search item and a commit search item for [widget]. *)
Definition code_item (repo : gmap string json) : gmap string json :=
  {[ "name" := JStr "README.md"; "repository" := JObj repo ]}.

Definition commit_item (repo : gmap string json) : gmap string json :=
  {[ "sha" := JStr "0a1b2c"; "repository" := JObj repo ]}.

Definition issue_item (repository_url : string) : gmap string json :=
  {[ "title" := JStr "Crash on start";
     "repository_url" := JStr repository_url ]}.

(** The state a run ends in ([init] if it raises). *)
Definition after (ops : list op) : GitHubSearch :=
  match run ops init with
  | Ok s => s
  | Raise _ => init
  end.

End Sample.

(** ** The queries of [main] (firebase) *)

Definition firebase_keywords : list string :=
  [ "generated by Firebase"; "edited using Firebase";
    "developed with Firebase"; "powered by Firebase";
    "AI coding with Firebase"; "Firebase suggestion";
    "applied Firebase edit"; "auto refactor by Firebase";
    "refactored with Firebase"; "Firebase-assisted change";
    "accept suggestion from Firebase"; "used Firebase for this part";
    "Generated using Anysphere Firebase"; "Auto-generated with Firebase AI" ].

Definition sort_orders : list (string * string) :=
  [ ("indexed", "desc"); ("indexed", "asc") ].

Definition firebase_files : list string :=
  [ "path:.idx/dev.nix"; "path:.idx/airules.md"; "path:.aiexclude" ].

(** [f'"{keyword}"'] *)
Definition quoted (keyword : string) : string :=
  String "034"%char keyword +:+ String "034"%char "".

(** The tag of [search_firebase_files]. *)
Definition config_tag (file_name : string) : string :=
  "firebase_config: " +:+ file_name.

(** The tags under which [main] files what it finds, pass by pass. *)
Definition main_tags : list string :=
  ((λ w, description_tag "Firebase" w.1 w.2)
     <$> search_repositories_time_ranges)
  ++ (keyword ← firebase_keywords;
      (λ so, code_tag (quoted keyword) so.1 so.2) <$> sort_orders)
  ++ ((λ keyword, commit_tag (quoted keyword)) <$> firebase_keywords)
  ++ (keyword ← firebase_keywords;
      (λ w, issue_tag (quoted keyword) w.1 w.2) <$> search_issues_time_ranges)
  ++ (config_tag <$> firebase_files).

(** Decidable forms of [plain] and [independent]. *)
Definition plainb (tag : string) : bool :=
  negb (PyStr.contains "," tag) && negb (PyStr.startswith " " tag).

Definition independentb (tags : list string) : bool :=
  forallb (λ t, forallb (λ t', implb (PyStr.contains t t') (bool_decide (t = t')))
                  tags) tags.

From stdpp Require Import sorting.
#[local] Open Scope Z_scope.

(** ** The search functions, the catalogue writer and [main]

    The functions below run against a server and a clock.  What they do
    to the outside world is logged: the requests, the sleeps, the
    warning of [search_issues] (of all that is printed, only this line
    is recorded) and the files written. *)

(** The URL and the parameters of a query ([page] is added by
    [_make_request]). *)
Record request := Request {
  url_of : string;
  q_of : string;
  per_page_of : Z;
  sort_of : option string;
  order_of : option string;
}.

(** The server: an endpoint for each query. *)
Definition server := request → endpoint.

(** A row of a catalogue: [{'name': repo_name}] updated with the
    record. *)
Definition row : Type := string * record.

Inductive io :=
  | Fetch (r : request) (page : nat)
  | Wait (seconds : Z)
  | Warn (line : string)
  | Save (search_type : string) (rows : list row).

Record world := World {
  w_clock : Z;
  w_log : list io;
}.

(** Computations that may run out of fuel ([None]) or end in an
    exception, and that change the world. *)
Definition M (A : Type) : Type := world → option (result A * world).

Definition ret {A} (a : A) : M A := λ w, Some (Ok a, w).

Definition lift {A} (r : result A) : M A := λ w, Some (r, w).

Definition bindM {A B} (m : M A) (f : A → M B) : M B :=
  λ w, match m w with
       | None => None
       | Some (Raise e, w') => Some (Raise e, w')
       | Some (Ok a, w') => f a w'
       end.

Notation "x ←@ m ; k" := (bindM m (λ x, k))
  (at level 20, m at level 100, k at level 200, right associativity,
   format "x  ←@  m ;  '/' k").

Definition emit (e : io) : M unit :=
  λ w, Some (Ok (), {| w_clock := w_clock w; w_log := w_log w ++ [e] |}).

(** [time.sleep(seconds)] *)
Definition wait (seconds : Z) : M unit :=
  λ w, Some (Ok (), {| w_clock := w_clock w + seconds;
                       w_log := w_log w ++ [Wait seconds] |}).

(** [for x in l: body] over a state. *)
Fixpoint for_each {A S} (body : A → S → M S) (l : list A) (st : S) : M S :=
  match l with
  | [] => ret st
  | x :: l' => st' ←@ body x st; for_each body l' st'
  end.

Definition io_of (r : request) (e : event) : io :=
  match e with
  | Get page => Fetch r page
  | Sleep seconds => Wait seconds
  end.

(** [self._make_request(url, params)] in the world. *)
Definition make_request (fuel : nat) (srv : server) (r : request)
  : M page_data :=
  λ w, st ← _make_request fuel (srv r) (w_clock w);
       Some (Ok {| total_count := seen_total st; items := all_items st |},
             {| w_clock := clock st;
                w_log := w_log w ++ (io_of r <$> events st) |}).

Definition base_url : string := "https://api.github.com".

(** [GitHubSearch.search_code] *)
Definition search_code (fuel : nat) (srv : server) (query : string)
    (sort_order : string * string) (is_current_search : bool)
    (self : GitHubSearch) : M GitHubSearch :=
  data ←@ make_request fuel srv
            {| url_of := base_url +:+ "/search/code"; q_of := query;
               per_page_of := per_page; sort_of := Some sort_order.1;
               order_of := Some sort_order.2 |};
  lift (for_items (search_code_item query sort_order.1 sort_order.2
                     is_current_search) (items data) self).

(** [GitHubSearch.search_commits] *)
Definition search_commits (fuel : nat) (srv : server) (query : string)
    (is_current_search : bool) (self : GitHubSearch) : M GitHubSearch :=
  data ←@ make_request fuel srv
            {| url_of := base_url +:+ "/search/commits"; q_of := query;
               per_page_of := per_page; sort_of := None; order_of := None |};
  lift (for_items (search_commits_item query is_current_search)
          (items data) self).

(** [f"created:{start_date}..{end_date}"] *)
Definition time_filter (start_date end_date : string) : string :=
  "created:" +:+ start_date +:+ ".." +:+ end_date.

(** The loop body of [search_issues] in the world: the warning is
    printed at once. *)
Definition search_issues_step (query start_date end_date : string)
    (is_current_search : bool) (item : gmap string json)
    (self : GitHubSearch) : M GitHubSearch :=
  match search_issues_item query start_date end_date is_current_search item
          (self, []) with
  | Ok (self', lines) => _ ←@ for_each (λ line _, emit (Warn line)) lines ();
                         ret self'
  | Raise e => lift (Raise e)
  end.

(** [search_issues] over a list of windows. *)
Definition search_issues_in (time_ranges : list (string * string))
    (fuel : nat) (srv : server) (query : string) (is_current_search : bool)
    (self : GitHubSearch) : M GitHubSearch :=
  for_each
    (λ w self,
       data ←@ make_request fuel srv
                 {| url_of := base_url +:+ "/search/issues";
                    q_of := query +:+ " " +:+ time_filter w.1 w.2;
                    per_page_of := per_page;
                    sort_of := None; order_of := None |};
       for_each (search_issues_step query w.1 w.2 is_current_search)
         (items data) self)
    time_ranges self.

(** [GitHubSearch.search_issues] (firebase) *)
Definition search_issues : nat → server → string → bool → GitHubSearch
                           → M GitHubSearch :=
  search_issues_in search_issues_time_ranges.

(** [search_repositories_by_description] over a list of windows. *)
Definition search_repositories_in (time_ranges : list (string * string))
    (fuel : nat) (srv : server) (query : string) (is_current_search : bool)
    (self : GitHubSearch) : M GitHubSearch :=
  for_each
    (λ w self,
       data ←@ make_request fuel srv
                 {| url_of := base_url +:+ "/search/repositories";
                    q_of := query +:+ " in:description "
                            +:+ time_filter w.1 w.2;
                    per_page_of := per_page;
                    sort_of := Some "stars"; order_of := Some "desc" |};
       self' ←@ lift (for_items
                        (search_repositories_item query w.1 w.2
                           is_current_search) (items data) self);
       _ ←@ wait 1;
       ret self')
    time_ranges self.

(** [GitHubSearch.search_repositories_by_description] (firebase) *)
Definition search_repositories_by_description
  : nat → server → string → bool → GitHubSearch → M GitHubSearch :=
  search_repositories_in search_repositories_time_ranges.

(** [GitHubSearch.search_firebase_files] *)
Definition search_firebase_files (fuel : nat) (srv : server)
    (is_current_search : bool) (self : GitHubSearch) : M GitHubSearch :=
  for_each
    (λ file_name self,
       data ←@ make_request fuel srv
                 {| url_of := base_url +:+ "/search/code"; q_of := file_name;
                    per_page_of := per_page;
                    sort_of := None; order_of := None |};
       self' ←@ lift (for_items
                        (λ item, _add_repository item (config_tag file_name)
                                   is_current_search) (items data) self);
       _ ←@ wait 1;
       ret self')
    firebase_files self.

(** [sorted(l, key=key)] for keys compared by [le]: a stable sort, each
    element is put before the first later element that is not smaller. *)
Fixpoint insert_by {A} (le : A → A → bool) (x : A) (l : list A) : list A :=
  match l with
  | [] => [x]
  | y :: l' => if le x y then x :: l else y :: insert_by le x l'
  end.

Definition sorted_by {A} (le : A → A → bool) (l : list A) : list A :=
  foldr (insert_by le) [] l.

(** [scope.items()]: a dictionary lists its keys in the order of their
    insertion; a name enters a scope with a dictionary that is new at
    that moment, so this is the order of the locations. *)
Definition dict_items (h : list record) (scope : gmap string loc)
  : list row :=
  omap (λ kl, (λ r, (kl.1, r)) <$> h !! kl.2)
       (sorted_by (λ a b, bool_decide (a.2 ≤ b.2)%nat) (map_to_list scope)).

(** The rows [_save_search_results] and [save_results] write:
    [sorted(repos_dict.items(), key=lambda x: x[1]['found_by'])]. *)
Definition catalogue (h : list record) (scope : gmap string loc) : list row :=
  sorted_by (λ a b, String.leb (found_by a.2) (found_by b.2))
            (dict_items h scope).

(** [GitHubSearch._save_search_results]; the file is named after the
    search type (and the time of the day, which is left out). *)
Definition _save_search_results (search_type : string) (h : list record)
    (repos_dict : gmap string loc) : M unit :=
  emit (Save search_type (catalogue h repos_dict)).

(** [GitHubSearch.save_results] *)
Definition save_results (self : GitHubSearch) : M unit :=
  emit (Save "all_repositories" (catalogue (store self) (repos self))).

(** [searcher._save_search_results(t, searcher.current_search_repos)]
    followed by [searcher.current_search_repos.clear()]. *)
Definition save_and_clear (search_type : string) (self : GitHubSearch)
  : M GitHubSearch :=
  _ ←@ _save_search_results search_type (store self)
         (current_search_repos self);
  ret (clear_current self).

(** [main] of the firebase script; [token] is the value of the
    environment variable [GITHUB_TOKEN]. *)
Definition main (token : option string) (fuel : nat) (srv : server)
  : M GitHubSearch :=
  match token with
  | None | Some "" => ret init
  | Some _ =>
      let searcher := init in
      searcher ←@ search_repositories_by_description fuel srv "Firebase" true
                    searcher;
      searcher ←@ save_and_clear "repo_descriptions" searcher;
      searcher ←@ for_each
                    (λ keyword,
                       for_each (λ sort_order,
                                   search_code fuel srv (quoted keyword)
                                     sort_order true)
                         sort_orders)
                    firebase_keywords searcher;
      searcher ←@ save_and_clear "code_keywords" searcher;
      searcher ←@ for_each
                    (λ keyword, search_commits fuel srv (quoted keyword) true)
                    firebase_keywords searcher;
      searcher ←@ save_and_clear "commit_messages" searcher;
      searcher ←@ for_each
                    (λ keyword, search_issues fuel srv (quoted keyword) true)
                    firebase_keywords searcher;
      searcher ←@ save_and_clear "issues_and_prs" searcher;
      searcher ←@ search_firebase_files fuel srv true searcher;
      searcher ←@ save_and_clear "firebase_files" searcher;
      _ ←@ save_results searcher;
      ret searcher
  end.

(** The files a log shows, in the order they were written. *)
Definition saves (log : list io) : list (string * list row) :=
  omap (λ e, match e with
             | Save search_type rows => Some (search_type, rows)
             | _ => None
             end) log.

(** ** The trae script

    Its class differs from the firebase one in the windows of
    [search_issues]; it has no description search and no file search. *)
Module TraeScript.

Definition trae_keywords : list string :=
  [ "generated by Trae"; "edited using Trae"; "developed with Trae";
    "powered by Trae"; "AI coding with Trae"; "Trae suggestion";
    "applied Trae edit"; "auto refactor by Trae"; "refactored with Trae";
    "Trae-assisted change"; "accept suggestion from Trae";
    "used Trae for this part"; "Generated using Anysphere Trae";
    "Auto-generated with Trae AI" ].

(** [GitHubSearch.search_issues] (trae) *)
Definition search_issues : nat → server → string → bool → GitHubSearch
                           → M GitHubSearch :=
  search_issues_in Trae.search_issues_time_ranges.

(** [main] of the trae script. *)
Definition main (token : option string) (fuel : nat) (srv : server)
  : M GitHubSearch :=
  match token with
  | None | Some "" => ret init
  | Some _ =>
      let searcher := init in
      searcher ←@ for_each
                    (λ keyword,
                       for_each (λ sort_order,
                                   search_code fuel srv (quoted keyword)
                                     sort_order true)
                         sort_orders)
                    trae_keywords searcher;
      searcher ←@ save_and_clear "code_keywords" searcher;
      searcher ←@ for_each
                    (λ keyword, search_commits fuel srv (quoted keyword) true)
                    trae_keywords searcher;
      searcher ←@ save_and_clear "commit_messages" searcher;
      searcher ←@ for_each
                    (λ keyword, search_issues fuel srv (quoted keyword) true)
                    trae_keywords searcher;
      searcher ←@ save_and_clear "issues_and_prs" searcher;
      _ ←@ save_results searcher;
      ret searcher
  end.

(** The tags of [main], pass by pass. *)
Definition pass_tags : list (list string) :=
  [ keyword ← trae_keywords;
    (λ so, code_tag (quoted keyword) so.1 so.2) <$> sort_orders;
    (λ keyword, commit_tag (quoted keyword)) <$> trae_keywords;
    keyword ← trae_keywords;
    (λ w, issue_tag (quoted keyword) w.1 w.2)
      <$> Trae.search_issues_time_ranges ].

Definition main_tags : list string := concat pass_tags.

End TraeScript.

(** ** The windsurf script

    It searches the descriptions only, over its own windows, files the
    items as they are, and writes the cumulative catalogue (an Excel
    sheet of the same rows); its batch scope is never cleared. *)
Module WindsurfScript.

(** [GitHubSearch.search_repositories_by_description] (windsurf) *)
Definition search_repositories_by_description (fuel : nat) (srv : server)
    (query : string) (is_current_search : bool) (self : GitHubSearch)
  : M GitHubSearch :=
  for_each
    (λ w self,
       data ←@ make_request fuel srv
                 {| url_of := base_url +:+ "/search/repositories";
                    q_of := query +:+ " in:description "
                            +:+ time_filter w.1 w.2;
                    per_page_of := per_page;
                    sort_of := Some "stars"; order_of := Some "desc" |};
       self' ←@ lift (for_items
                        (λ item,
                           Windsurf._add_repository item
                             (description_tag query w.1 w.2)
                             is_current_search) (items data) self);
       _ ←@ wait 1;
       ret self')
    Windsurf.search_repositories_time_ranges self.

(** [main] of the windsurf script. *)
Definition main (token : option string) (fuel : nat) (srv : server)
  : M GitHubSearch :=
  match token with
  | None | Some "" => ret init
  | Some _ =>
      let searcher := init in
      searcher ←@ search_repositories_by_description fuel srv "Windsurf" true
                    searcher;
      _ ←@ save_results searcher;
      ret searcher
  end.

(** The tags of [main]. *)
Definition main_tags : list string :=
  (λ w, description_tag "Windsurf" w.1 w.2)
    <$> Windsurf.search_repositories_time_ranges.

End WindsurfScript.

(** The tags of firebase's [main], pass by pass. *)
Definition pass_tags : list (list string) :=
  [ (λ w, description_tag "Firebase" w.1 w.2)
      <$> search_repositories_time_ranges;
    keyword ← firebase_keywords;
    (λ so, code_tag (quoted keyword) so.1 so.2) <$> sort_orders;
    (λ keyword, commit_tag (quoted keyword)) <$> firebase_keywords;
    keyword ← firebase_keywords;
    (λ w, issue_tag (quoted keyword) w.1 w.2) <$> search_issues_time_ranges;
    config_tag <$> firebase_files ].

(** ** Vocabulary of the further properties *)

(** The events of a call of the executor that started at page [p]:
    requests alternate with sleeps of at least a second, the call ends
    with a request, and each request asks for the page of the request
    before it or for the next one. *)
Fixpoint orderly (p : nat) (evs : list event) : bool :=
  match evs with
  | [Get q] => bool_decide (q = p)
  | Get q :: Sleep w :: rest =>
      bool_decide (q = p) && bool_decide (1 ≤ w)
      && (orderly p rest || orderly (S p) rest)
  | _ => false
  end.

(** The responses after which the executor waits and asks again: a
    delivered response whose remaining quota reads at most 1 (as it does
    when the header is absent), and any 403 error. *)
Definition stalling (r : response) : Prop :=
  match r with
  | Success h _ => default 0 (x_ratelimit_remaining h) ≤ 1
  | HTTPError status_code _ => status_code = 403
  | RequestException => False
  end.

(** The responses that end a call: an HTTP error other than 403 and a
    failure of the transport. *)
Definition failing (r : response) : Prop :=
  match r with
  | Success _ _ => False
  | HTTPError status_code _ => status_code ≠ 403
  | RequestException => True
  end.

(** The endpoint [ep] up to page [k]; from page [k + 1] on the server
    answers [bad]. *)
Definition failing_from (k : nat) (bad : response) (ep : endpoint)
  : endpoint :=
  λ now page, if decide (page ≤ k)%nat then ep now page else (0, bad).

(** An endpoint that answers as a paged listing of [corpus] does: every
    request is delivered, after whatever time, with the page of [P]
    items it asks for and a remaining quota above 1; the first page
    reports the total [T], what the other pages report is left open. *)
Definition lists (T : Z) (P : nat) (corpus : list (gmap string json))
    (ep : endpoint) : Prop :=
  ∀ now page, ∃ h total,
    (ep now page).2
    = Success h {| total_count := total;
                   items := take P (drop ((page - 1) * P)%nat corpus) |}
    ∧ 1 < default 0 (x_ratelimit_remaining h)
    ∧ (page = 1%nat → total = T).

(** An endpoint that lists [corpus] up to page [k] and fails at page
    [k + 1], with an HTTP error other than 403 or in the transport. *)
Definition lists_until (k : nat) (T : Z) (P : nat)
    (corpus : list (gmap string json)) (ep : endpoint) : Prop :=
  ∀ now page,
    ((page ≤ k)%nat →
     ∃ h total,
       (ep now page).2
       = Success h {| total_count := total;
                      items := take P (drop ((page - 1) * P)%nat corpus) |}
       ∧ 1 < default 0 (x_ratelimit_remaining h)
       ∧ (page = 1%nat → total = T))
    ∧ (page = S k → failing (ep now page).2).

(** The names under which the merges of a run file their arguments, in
    the order of the run. *)
Definition identities (ops : list op) : list string :=
  omap (λ o, match o with
             | OpAdd repo_data _ _ => identity repo_data
             | OpClear => None
             end) ops.

(** The names merged with batch tracking since the last batch clear,
    after those of [acc]. *)
Definition batch_identities (acc : list string) (ops : list op)
  : list string :=
  foldl (λ acc o, match o with
                  | OpAdd repo_data _ true =>
                      acc ++ option_list (identity repo_data)
                  | OpAdd _ _ false => acc
                  | OpClear => []
                  end) acc ops.

(** The names of [ks] in the order of their first occurrence. *)
Definition first_seen (ks : list string) : list string :=
  foldl (λ acc k, if decide (k ∈ acc) then acc else acc ++ [k]) [] ks.

(** The bindings of a scope in the order of their locations. *)
Definition by_location (scope : gmap string loc) : list (string * loc) :=
  sorted_by (λ a b, bool_decide (a.2 ≤ b.2)%nat) (map_to_list scope).

Definition is_fetch (e : io) : bool :=
  match e with
  | Fetch _ _ => true
  | _ => false
  end.

(** The number of requests a log shows. *)
Definition requests_sent (log : list io) : nat :=
  length (filter (λ e, is_fetch e) log).

(** The requests a log shows, each with its page, in the order in
    which they were sent. *)
Definition fetches (log : list io) : list (request * nat) :=
  omap (λ e, match e with
             | Fetch r page => Some (r, page)
             | _ => None
             end) log.

(** A search that asks for the first page of each query of [rs], in
    this order, and sends nothing else, merges nothing and raises
    nothing, whatever the state it starts in. *)
Definition idle (rs : list request) (m : GitHubSearch → M GitHubSearch)
  : Prop :=
  ∀ s w, ∃ w' evs,
    m s w = Some (Ok s, w') ∧ w_log w' = w_log w ++ evs
    ∧ saves evs = [] ∧ fetches evs = (λ r, (r, 1%nat)) <$> rs.

(** The queries of firebase's [main], in the order of the script: the
    descriptions window by window, the code search for each keyword in
    both sort orders, the commits for each keyword, the issues for each
    keyword window by window, and the configuration files. *)
Definition main_requests : list request :=
  (w ← search_repositories_time_ranges;
   [ {| url_of := "https://api.github.com/search/repositories";
        q_of := "Firebase in:description created:" +:+ w.1 +:+ ".." +:+ w.2;
        per_page_of := 100;
        sort_of := Some "stars"; order_of := Some "desc" |} ])
  ++ (keyword ← firebase_keywords;
      sort_order ← sort_orders;
      [ {| url_of := "https://api.github.com/search/code";
           q_of := quoted keyword;
           per_page_of := 100;
           sort_of := Some sort_order.1; order_of := Some sort_order.2 |} ])
  ++ (keyword ← firebase_keywords;
      [ {| url_of := "https://api.github.com/search/commits";
           q_of := quoted keyword;
           per_page_of := 100;
           sort_of := None; order_of := None |} ])
  ++ (keyword ← firebase_keywords;
      w ← search_issues_time_ranges;
      [ {| url_of := "https://api.github.com/search/issues";
           q_of := quoted keyword +:+ " created:" +:+ w.1 +:+ ".." +:+ w.2;
           per_page_of := 100;
           sort_of := None; order_of := None |} ])
  ++ (file_name ← firebase_files;
      [ {| url_of := "https://api.github.com/search/code";
           q_of := file_name;
           per_page_of := 100;
           sort_of := None; order_of := None |} ]).

(** The characters of [s] read as digits to the base 256, after the
    digits of [acc]. *)
Fixpoint digits (s : string) (acc : N) : N :=
  match s with
  | EmptyString => acc
  | String c s' => digits s' (256 * acc + N_of_ascii c)%N
  end.

(** A number to tell queries apart: the URL, the search string, the
    sort key and the order, as digits. *)
Definition request_code (r : request) : N :=
  digits (default "" (order_of r))
    (digits (default "" (sort_of r)) (digits (q_of r) (digits (url_of r) 1))).

(** [x] is none of the numbers of [l]. *)
Fixpoint fresh (x : N) (l : list N) : bool :=
  match l with
  | [] => true
  | y :: l' => negb (N.eqb x y) && fresh x l'
  end.

(** No number occurs twice in [l]. *)
Fixpoint distinct (l : list N) : bool :=
  match l with
  | [] => true
  | x :: l' => fresh x l' && distinct l'
  end.

(** A stretch of a driver that searches: the aggregator goes from
    [self] to [self'] by merges with batch tracking under tags of [T],
    and the log grows by events that write no file. *)
Definition searching (T : list string) (self : GitHubSearch) (w : world)
    (self' : GitHubSearch) (w' : world) : Prop :=
  (∃ ops, run ops self = Ok self' ∧ tags_of ops ⊆ T ∧ tracked ops)
  ∧ ∃ evs, w_log w' = w_log w ++ evs ∧ saves evs = [].

(** Where a driver stands: the aggregator has been through a run under
    tags of [T], the log shows the [files] written since [w0], and every
    row of these files has a record in the global scope whose
    provenance includes the row's. *)
Definition progress (T : list string) (w0 : world) (self : GitHubSearch)
    (w : world) (files : list (string * list row)) : Prop :=
  (∃ ops, run ops init = Ok self ∧ tags_of ops ⊆ T)
  ∧ (∃ evs, w_log w = w_log w0 ++ evs ∧ saves evs = files)
  ∧ ∀ f k rb, f ∈ files → (k, rb) ∈ f.2 →
      ∃ rg, repos_view self !! k = Some rg ∧ provenance rb ⊆ provenance rg.

(** What a batch file and the tags of its pass have to do with the
    cumulative file: the rows of the batch list tags of the pass only,
    and each has a row in the cumulative file that lists them too. *)
Definition batch_of (cumulative : list row) (batch : list row)
    (T : list string) : Prop :=
  ∀ k rb, (k, rb) ∈ batch →
    provenance rb ⊆ T
    ∧ ∃ rg, (k, rg) ∈ cumulative ∧ provenance rb ⊆ provenance rg.

(** A computation that writes no file, however it ends. *)
Definition quiet {A} (m : M A) : Prop :=
  ∀ w r w', m w = Some (r, w') →
    ∃ evs, w_log w' = w_log w ++ evs ∧ saves evs = [].

(** A computation that comes to an end, with a value or an exception,
    from every world. *)
Definition returns {A} (m : M A) : Prop := ∀ w, is_Some (m w).

(** ** Servers that need not answer

    [requests.get] is called without a timeout, so an exchange may
    never complete, and a delivered body need not have the keys the
    executor reads ([data['total_count']] on page 1, [data['items']]):
    a missing key is a [KeyError] that no [except] clause of
    [_make_request] catches.  The values, when present, have the types
    of the GitHub API. *)
Module Raw.

Record body := Body {
  body_total_count : option Z;
  body_items : option (list (gmap string json));
}.

Inductive response :=
  | Success (h : headers) (data : body)
  | HTTPError (status_code : Z) (h : headers)
  | RequestException.

(** [None]: the server never answers the request. *)
Definition endpoint := Z → nat → option (Z * response).

(** How a pass through the body of [while True] ends. *)
Inductive pass :=
  | Continue (st : loop_state)
  | Break (st : loop_state)
  | Raises (e : py_error)
  | Hangs.

Definition iteration (limit : Z) (ep : endpoint) (st : loop_state) : pass :=
  match ep (clock st) (page st) with
  | None => Hangs
  | Some (elapsed, response) =>
      let st1 := get elapsed st in
      match response with
      | Success h data =>
          match _check_rate_limit h (clock st1) with
          | Some wait => Continue (sleep wait st1)
          | None =>
              match (if decide (page st = 1%nat) then body_total_count data
                     else Some (seen_total st)) with
              | None => Raises (KeyError "total_count")
              | Some total =>
                  match body_items data with
                  | None => Raises (KeyError "items")
                  | Some [] =>
                      Break {| all_items := all_items st1; seen_total := total;
                               page := page st1; clock := clock st1;
                               events := events st1 |}
                  | Some items =>
                      let all := all_items st ++ items in
                      if decide (Z.min total limit ≤ Z.of_nat (length all))
                      then Break {| all_items := all; seen_total := total;
                                    page := page st1; clock := clock st1;
                                    events := events st1 |}
                      else Continue
                             (sleep 1 {| all_items := all; seen_total := total;
                                         page := S (page st1);
                                         clock := clock st1;
                                         events := events st1 |})
                  end
              end
          end
      | HTTPError status_code h =>
          if decide (status_code = 403)
          then Continue (sleep (wait_time h (clock st1)) st1)
          else Break st1
      | RequestException => Break st1
      end
  end.

(** How a call of [_make_request] ends. *)
Inductive outcome :=
  | Returns (st : loop_state)
  | Raised (e : py_error)
  | Waiting.

(** [while True]: [None] when the fuel runs out. *)
Fixpoint loop (fuel : nat) (limit : Z) (ep : endpoint) (st : loop_state)
  : option outcome :=
  match fuel with
  | O => None
  | S fuel' =>
      match iteration limit ep st with
      | Continue st' => loop fuel' limit ep st'
      | Break st' => Some (Returns st')
      | Raises e => Some (Raised e)
      | Hangs => Some Waiting
      end
  end.

(** [GitHubSearch._make_request] *)
Definition _make_request (fuel : nat) (ep : endpoint) (now : Z)
  : option outcome :=
  loop fuel max_results ep (start now).

(** The responses after which the executor waits and asks again. *)
Definition stalling (r : response) : Prop :=
  match r with
  | Success h _ => default 0 (x_ratelimit_remaining h) ≤ 1
  | HTTPError status_code _ => status_code = 403
  | RequestException => False
  end.

End Raw.

(** A server that answers every request, with pages that have both
    keys: the servers of [endpoint]. *)
Definition answering (ep : endpoint) : Raw.endpoint :=
  λ now page,
    Some ((ep now page).1,
          match (ep now page).2 with
          | Success h data =>
              Raw.Success h {| Raw.body_total_count := Some (total_count data);
                               Raw.body_items := Some (items data) |}
          | HTTPError status_code h => Raw.HTTPError status_code h
          | RequestException => Raw.RequestException
          end).


(** ** Sample servers *)

Module SampleServer.

Definition quota : headers :=
  {| x_ratelimit_remaining := Some 5000; x_ratelimit_reset := None |}.

(** A server that knows one repository by its commits and one by its
    description, and nothing else. *)
Definition answers : server :=
  λ r,
    if decide (url_of r = base_url +:+ "/search/commits")
    then mock_endpoint 1 100 5000 [Sample.commit_item Sample.widget]
    else if decide (url_of r = base_url +:+ "/search/repositories")
    then mock_endpoint 1 100 5000 [Sample.gizmo]
    else λ _ _, (0, Success quota {| total_count := 0; items := [] |}).

(** A server that cannot be reached. *)
Definition down : server := λ _ _ _, (0, RequestException).

(** An endpoint whose quota is used up until second 5 and that holds
    three items, served in pages of two. *)
Definition throttled : endpoint :=
  λ now page,
    if decide (now < 5)
    then (2, Success {| x_ratelimit_remaining := Some 0;
                        x_ratelimit_reset := Some 5 |}
                     {| total_count := 3; items := numbered 1 |})
    else mock_endpoint 3 2 5000 (numbered 3) now page.

(** An endpoint that sends no rate limit headers. *)
Definition headerless : endpoint :=
  λ _ _, (1, Success {| x_ratelimit_remaining := None;
                        x_ratelimit_reset := None |}
                     {| total_count := 1; items := numbered 1 |}).

(** An endpoint that holds five items, serves them in pages of two
    and takes as many seconds for a page as its number; page 1 reports
    five items, the later pages report one. *)
Definition drifting : endpoint :=
  λ _ page,
    (Z.of_nat page,
     Success quota
       {| total_count := if decide (page = 1%nat) then 5 else 1;
          items := take 2 (drop ((page - 1) * 2) (numbered 5)) |}).

(** A server whose pages have no [total_count]. *)
Definition keyless : Raw.endpoint :=
  λ _ _, Some (1, Raw.Success quota
                    {| Raw.body_total_count := None;
                       Raw.body_items := Some (numbered 1) |}).

(** A server that answers page 1 and never answers the request for
    page 2. *)
Definition silent : Raw.endpoint :=
  λ _ page,
    if decide (page = 1%nat)
    then Some (1, Raw.Success quota
                    {| Raw.body_total_count := Some 4;
                       Raw.body_items := Some (numbered 2) |})
    else None.

(** A repository object without a name. *)
Definition nameless : gmap string json :=
  {[ "html_url" := JStr "https://github.com/acme/nameless" ]}.

Definition start_of_day : world := {| w_clock := 0; w_log := [] |}.

End SampleServer.

(** * Facts *)

(** ** Strings *)

Module PyStrFacts.
Import PyStr.

Lemma app_nil_l (s : string) : "" +:+ s = s.
Proof. reflexivity. Qed.

Lemma app_cons (a : ascii) (s t : string) :
  String a s +:+ t = String a (s +:+ t).
Proof. reflexivity. Qed.

Lemma app_nil_r (s : string) : s +:+ "" = s.
Proof. induction s as [|a s IH]; [done|]. by rewrite app_cons, IH. Qed.

Lemma app_assoc (s t u : string) : (s +:+ t) +:+ u = s +:+ t +:+ u.
Proof. induction s as [|a s IH]; [done|]. by rewrite !app_cons, IH. Qed.

Lemma startswith_spec (t s : string) :
  startswith t s = true ↔ ∃ b, s = t +:+ b.
Proof.
  revert s. induction t as [|a t IH]; intros s; simpl.
  - split; [intros _; by exists s | done].
  - destruct s as [|b s].
    + split; [done | intros [? ?]; discriminate].
    + case_decide as Hab.
      * subst b. rewrite IH. split.
        -- intros [u ->]. by exists u.
        -- intros [u Hu]. rewrite app_cons in Hu. injection Hu as ->. by exists u.
      * split; [done|]. intros [u Hu]. rewrite app_cons in Hu. congruence.
Qed.

Lemma contains_unfold (t s : string) :
  contains t s
  = startswith t s
    || match s with "" => false | String _ s' => contains t s' end.
Proof. by destruct s. Qed.

Lemma contains_spec (t s : string) :
  contains t s = true ↔ ∃ a b, s = a +:+ t +:+ b.
Proof.
  split.
  - induction s as [|c s IH]; rewrite contains_unfold;
      intros [Hp|Hc]%orb_true_iff; try done.
    + apply startswith_spec in Hp as [b ->]. by exists "", b.
    + apply startswith_spec in Hp as [b ->]. by exists "", b.
    + destruct (IH Hc) as (a & b & ->). by exists (String c a), b.
  - intros (a & b & ->). induction a as [|c a IH].
    + rewrite app_nil_l, contains_unfold.
      apply orb_true_iff; left. apply startswith_spec. by exists b.
    + rewrite app_cons, contains_unfold. apply orb_true_iff; by right.
Qed.

Lemma contains_refl (t : string) : contains t t = true.
Proof. apply contains_spec. exists "", "". by rewrite app_nil_l, app_nil_r. Qed.

Lemma contains_app_l (t s u : string) :
  contains t s = true → contains t (s +:+ u) = true.
Proof.
  intros (a & b & ->)%contains_spec. apply contains_spec.
  exists a, (b +:+ u). by rewrite !app_assoc.
Qed.

Lemma contains_app_r (t s u : string) :
  contains t u = true → contains t (s +:+ u) = true.
Proof.
  intros (a & b & ->)%contains_spec. apply contains_spec.
  exists (s +:+ a), b. by rewrite !app_assoc.
Qed.

Lemma contains_trans (t s u : string) :
  contains t s = true → contains s u = true → contains t u = true.
Proof.
  intros (a & b & ->)%contains_spec (c & d & ->)%contains_spec.
  apply contains_spec. exists (c +:+ a), (b +:+ d). by rewrite !app_assoc.
Qed.

Lemma startswith_contains (t s : string) :
  startswith t s = true → contains t s = true.
Proof. intros H. rewrite contains_unfold, H. done. Qed.

(** Splitting on the separator of the provenance string. *)
Lemma split_comma_cons2 (a b : ascii) (r : string) :
  split_comma (String a (String b r))
  = if decide (a = ","%char ∧ b = " "%char) then "" :: split_comma r
    else cons_head a (split_comma (String b r)).
Proof. reflexivity. Qed.

Lemma cons_head_nonempty (a : ascii) (l : list string) : cons_head a l ≠ [].
Proof. by destruct l. Qed.

Lemma split_comma_nonempty (s : string) : split_comma s ≠ [].
Proof.
  destruct s as [|a [|b r]]; [done..|].
  rewrite split_comma_cons2. case_decide; [done|]. apply cons_head_nonempty.
Qed.

Lemma cons_head_app (a : ascii) (l l' : list string) :
  l ≠ [] → cons_head a (l ++ l') = cons_head a l ++ l'.
Proof. by destruct l. Qed.

Lemma split_comma_app (a b : string) :
  split_comma (a +:+ ", " +:+ b) = split_comma a ++ split_comma b.
Proof.
  cut ((∀ b, split_comma (a +:+ ", " +:+ b) = split_comma a ++ split_comma b)
       ∧ ∀ c b, split_comma (String c a +:+ ", " +:+ b)
                = split_comma (String c a) ++ split_comma b).
  { intros [H _]. apply H. }
  clear b. induction a as [|d a [IH1 IH2]].
  - split.
    + intros b. rewrite app_nil_l, !app_cons, app_nil_l, split_comma_cons2.
      by rewrite decide_True.
    + intros c b. rewrite !app_cons, app_nil_l, split_comma_cons2.
      rewrite decide_False by (intros [_ ?]; discriminate).
      rewrite split_comma_cons2, decide_True by done. done.
  - split; [apply IH2|].
    intros c b. rewrite (app_cons c), (app_cons d), !split_comma_cons2.
    case_decide.
    + by rewrite IH1.
    + rewrite <-(app_cons d), IH2. apply cons_head_app, split_comma_nonempty.
Qed.

Lemma split_comma_plain (s : string) :
  contains ", " s = false → split_comma s = [s].
Proof.
  induction s as [|a s IH]; [done|].
  rewrite contains_unfold. intros [Hp Hc]%orb_false_iff.
  destruct s as [|b r]; [done|].
  rewrite split_comma_cons2. case_decide as Hab.
  - destruct Hab as [-> ->]. done.
  - by rewrite IH.
Qed.

Lemma split_comma_pieces (s : string) :
  match split_comma s with
  | [] => False
  | w :: ws => startswith w s = true ∧ ∀ v, v ∈ ws → contains v s = true
  end.
Proof.
  cut (match split_comma s with
       | [] => False
       | w :: ws => startswith w s = true ∧ ∀ v, v ∈ ws → contains v s = true
       end ∧ ∀ c,
       match split_comma (String c s) with
       | [] => False
       | w :: ws => startswith w (String c s) = true
                    ∧ ∀ v, v ∈ ws → contains v (String c s) = true
       end).
  { by intros [? _]. }
  induction s as [|d s [IH1 IH2]].
  - split; [split; [done|]; intros v Hv; inversion Hv|].
    intros c. simpl. split; [by rewrite decide_True|]. intros v Hv; inversion Hv.
  - split; [apply IH2|]. intros c. rewrite split_comma_cons2. case_decide.
    + destruct (split_comma s) as [|w ws] eqn:E; [done|].
      destruct IH1 as [Hw Hws]. split; [done|].
      intros v [->|Hv]%elem_of_cons.
      * apply (contains_app_r _ (String c (String d "")) s), startswith_contains, Hw.
      * apply (contains_app_r _ (String c (String d "")) s). auto.
    + specialize (IH2 d). destruct (split_comma (String d s)) as [|w ws]; [done|].
      destruct IH2 as [Hw Hws]. simpl. split.
      * rewrite decide_True by done. exact Hw.
      * intros v Hv. apply (contains_app_r _ (String c "") (String d s)). auto.
Qed.

Lemma split_comma_contains (s w : string) :
  w ∈ split_comma s → contains w s = true.
Proof.
  pose proof (split_comma_pieces s) as H.
  destruct (split_comma s) as [|w0 ws]; [done|]. destruct H as [H0 Hs].
  intros [->|Hw]%elem_of_cons; [by apply startswith_contains | auto].
Qed.

(** One-character separators. *)
Lemma split_nonempty (c : ascii) (s : string) : split c s ≠ [].
Proof.
  destruct s as [|a s]; simpl; [done|].
  case_decide; [done|]. apply cons_head_nonempty.
Qed.

Lemma free_of_cons (c a : ascii) (w : string) :
  free_of c (String a w) ↔ a ≠ c ∧ free_of c w.
Proof.
  unfold free_of. rewrite contains_unfold, orb_false_iff. simpl.
  case_decide; intuition congruence.
Qed.

Lemma split_free (c : ascii) (w : string) : free_of c w → split c w = [w].
Proof.
  induction w as [|a w IH]; [done|].
  intros [Hne Hw]%free_of_cons. simpl. rewrite decide_False by done.
  by rewrite IH.
Qed.

Lemma split_app_sep (c : ascii) (w b : string) :
  free_of c w → split c (w +:+ String c b) = w :: split c b.
Proof.
  induction w as [|a w IH].
  - intros _. rewrite app_nil_l. simpl. by rewrite decide_True.
  - intros [Hne Hw]%free_of_cons. rewrite app_cons. simpl.
    rewrite decide_False by done. by rewrite IH.
Qed.

Lemma split_join (c : ascii) (l : list string) :
  l ≠ [] → Forall (free_of c) l → split c (join (String c "") l) = l.
Proof.
  intros Hne Hall. induction Hall as [|w l Hw Hl IH]; [done|].
  destruct l as [|w' l].
  - simpl. by apply split_free.
  - change (join (String c "") (w :: w' :: l))
      with (w +:+ String c "" +:+ join (String c "") (w' :: l)).
    rewrite app_cons, app_nil_l, split_app_sep by done.
    by rewrite IH.
Qed.

(** Tags without a comma. *)
Lemma startswith_free (t x y : string) :
  free_of "," t → startswith t (x +:+ String "," y) = true →
  startswith t x = true.
Proof.
  revert x. induction t as [|a t IH]; intros x; [done|].
  intros [Hne Ht]%free_of_cons. destruct x as [|b x].
  - rewrite app_nil_l. simpl. by rewrite decide_False.
  - rewrite app_cons. simpl. case_decide; [|done]. by apply IH.
Qed.

Lemma contains_sep_inv (t a b : string) :
  free_of "," t → startswith " " t = false →
  contains t (a +:+ ", " +:+ b) = true →
  contains t a = true ∨ contains t b = true.
Proof.
  intros Hfree Hsp. induction a as [|c a IH].
  - rewrite app_nil_l, 2!app_cons, app_nil_l, contains_unfold.
    intros [Hp|Hc]%orb_true_iff.
    + apply (startswith_free t "" (String " " b)) in Hp; [|done].
      left. by apply startswith_contains.
    + rewrite contains_unfold in Hc. apply orb_true_iff in Hc as [Hp|Hc]; [|by right].
      destruct t as [|d t]; [by left|]. simpl in Hp, Hsp.
      case_decide; [subst d|done]. by rewrite decide_True in Hsp.
  - rewrite app_cons, contains_unfold. intros [Hp|Hc]%orb_true_iff.
    + left. apply startswith_contains.
      rewrite <-app_cons in Hp. by apply startswith_free in Hp.
    + destruct (IH Hc) as [H|H]; [left|by right].
      rewrite contains_unfold, H. by rewrite orb_true_r.
Qed.

End PyStrFacts.

(** ** The aggregator: one merge *)

Section aggregator_facts.
Import PyStr PyStrFacts.

Lemma merge_tag_contains tag r : contains tag (found_by (merge_tag tag r)) = true.
Proof.
  unfold merge_tag. destruct (contains tag (found_by r)) eqn:E; [done|].
  simpl. apply contains_app_r, contains_app_r, contains_refl.
Qed.

Lemma merge_tag_idemp tag r : merge_tag tag (merge_tag tag r) = merge_tag tag r.
Proof.
  unfold merge_tag at 1. by rewrite merge_tag_contains.
Qed.

Lemma touch_eq (tag : string) (l0 : nat) (h : list record) :
  alter (merge_tag tag) l0 h
  = match h !! l0 with
    | Some r =>
        if contains tag (found_by r) then h else <[l0 := append_found_by tag r]> h
    | None => h
    end.
Proof.
  apply list_eq. intros i. destruct (decide (l0 = i)) as [<-|Hne].
  - rewrite list_lookup_alter_eq. unfold merge_tag.
    destruct (h !! l0) as [r|] eqn:Hl; [|by rewrite Hl].
    destruct (contains tag (found_by r)) eqn:Hc; simpl; rewrite ?Hc, ?Hl; [done|].
    symmetry. apply list_lookup_insert_eq. by apply lookup_lt_Some in Hl.
  - rewrite list_lookup_alter_ne by done.
    destruct (h !! l0) as [r|]; [|done].
    destruct (contains tag (found_by r)); [done|].
    by rewrite list_lookup_insert_ne.
Qed.

Lemma merge_scope_eq (scope : gmap string nat) (h : list record) k l tag :
  merge_scope scope h k l tag = (bind_loc k l scope, touch tag (scope !! k) h).
Proof.
  unfold merge_scope, bind_loc, touch.
  destruct (scope !! k) as [l0|] eqn:Hk; [|done].
  rewrite touch_eq. destruct (h !! l0) as [r|]; [|done].
  by destruct (contains tag (found_by r)).
Qed.

Lemma add_repo_eq repo tag flag self self' :
  add_repo repo tag flag self = Ok self' →
  ∃ k info,
    repo !! "full_name" = Some (JStr k) ∧ repo_info repo tag = Ok info ∧
    let l := length (store self) in
    let cur := if flag then current_search_repos self !! k else None in
    store self' = touch tag (repos self !! k) (touch tag cur (store self ++ [info]))
    ∧ repos self' = bind_loc k l (repos self)
    ∧ current_search_repos self'
      = if flag then bind_loc k l (current_search_repos self)
        else current_search_repos self.
Proof.
  unfold add_repo, getitem_str, getitem.
  destruct (repo !! "full_name") as [[| | |k| |]|] eqn:Hn; simpl; try done.
  destruct (repo_info repo tag) as [info|] eqn:Hi; simpl; [|done].
  intros H. exists k, info. split_and!; try done;
    destruct flag; rewrite !merge_scope_eq in H; simplify_eq/=; done.
Qed.

Lemma add_repo_ok repo tag flag self k u :
  repo !! "full_name" = Some (JStr k) → repo !! "html_url" = Some u →
  ∃ self', add_repo repo tag flag self = Ok self'.
Proof.
  intros Hn Hu. unfold add_repo, getitem_str, repo_info, getitem.
  rewrite Hn, Hu. simpl. destruct flag; rewrite !merge_scope_eq; eauto.
Qed.

Lemma touch_lookup (tag : string) (o : option nat) (h : list record) (i : nat) :
  touch tag o h !! i
  = if decide (o = Some i) then merge_tag tag <$> h !! i else h !! i.
Proof.
  unfold touch. destruct o as [l|].
  - rewrite list_lookup_alter. repeat case_decide; congruence.
  - by rewrite decide_False.
Qed.

Lemma touch_length (tag : string) (o : option nat) (h : list record) :
  length (touch tag o h) = length h.
Proof. destruct o; [apply length_alter|done]. Qed.

Lemma bind_loc_lookup (k k' : string) (l : nat) (sc : gmap string nat) :
  bind_loc k l sc !! k'
  = if decide (k = k' ∧ sc !! k = None) then Some l else sc !! k'.
Proof.
  unfold bind_loc. destruct (sc !! k) as [l0|] eqn:Hk.
  - rewrite decide_False; [done|]. by intros [_ ?].
  - rewrite lookup_insert. repeat case_decide; intuition congruence.
Qed.

Lemma view_lookup (h : list record) (sc : gmap string nat) (k : string) :
  view h sc !! k = sc !! k ≫= (h !!.).
Proof. unfold view. by rewrite lookup_omap. Qed.


Section add_repo.
Context (tag : string) (flag : bool) (k : string) (info : record).
Implicit Types self : GitHubSearch.

Local Abbreviation cur self :=
  (if flag then current_search_repos self !! k else None).

Lemma cur_in_scopes self l : cur self = Some l → in_scopes self k l.
Proof. destruct flag; [by right|done]. Qed.

Lemma store_new self self' :
  wf self → added tag flag k info self self' →
  store self' !! length (store self) = Some info.
Proof.
  intros [Hb _] (Hstore & _). rewrite Hstore, !touch_lookup.
  rewrite !decide_False.
  - by rewrite lookup_app_r, Nat.sub_diag by lia.
  - intros H%cur_in_scopes%Hb. lia.
  - intros H. assert (in_scopes self k (length (store self))) as Hin%Hb by (by left). lia.
Qed.

Lemma store_old self self' (i : nat) :
  added tag flag k info self self' →
  (i < length (store self))%nat →
  store self' !! i
  = if decide (repos self !! k = Some i ∨ cur self = Some i)
    then merge_tag tag <$> store self !! i else store self !! i.
Proof.
  intros (Hstore & _) Hi. rewrite Hstore, !touch_lookup, lookup_app_l by done.
  destruct (store self !! i) as [r|]; simpl;
    repeat case_decide; simpl; rewrite ?merge_tag_idemp; intuition congruence.
Qed.

Lemma store_length self self' :
  added tag flag k info self self' →
  length (store self') = S (length (store self)).
Proof.
  intros (Hstore & _). rewrite Hstore, !touch_length, length_app. simpl. lia.
Qed.

Lemma in_scopes_inv self self' (k' : string) (l : nat) :
  added tag flag k info self self' →
  in_scopes self' k' l →
  (k' = k ∧ l = length (store self)) ∨ in_scopes self k' l.
Proof.
  intros (_ & Hrepos & Hcur). unfold in_scopes. rewrite Hrepos, Hcur.
  intros [H|H].
  - rewrite bind_loc_lookup in H. case_decide; [left|right; by left].
    split; [symmetry; tauto|congruence].
  - destruct flag; [|right; by right].
    rewrite bind_loc_lookup in H. case_decide; [left|right; by right].
    split; [symmetry; tauto|congruence].
Qed.

Lemma add_repo_wf self self' :
  wf self → added tag flag k info self self' → wf self'.
Proof.
  intros [Hb Hinj] Hadd. split.
  - intros k' l Hin. rewrite (store_length _ _ Hadd).
    apply (in_scopes_inv _ _ _ _ Hadd) in Hin as [[-> ->]|Hin%Hb]; lia.
  - intros k1 k2 l H1 H2.
    apply (in_scopes_inv _ _ _ _ Hadd) in H1 as [[-> ->]|H1];
      apply (in_scopes_inv _ _ _ _ Hadd) in H2 as [[-> Hl]|H2]; try done.
    + apply Hb in H2. lia.
    + apply Hb in H1. lia.
    + eauto.
Qed.

Lemma scope_lookup_same self self' (sc sc' : gmap string nat) :
  wf self → added tag flag k info self self' →
  (∀ l, sc !! k = Some l → repos self !! k = Some l ∨ cur self = Some l) →
  sc' = bind_loc k (length (store self)) sc →
  view (store self') sc' !! k
  = Some (merge_record info tag (view (store self) sc !! k)).
Proof.
  intros Hwf Hadd Hsc ->. rewrite !view_lookup, bind_loc_lookup.
  destruct (sc !! k) as [l|] eqn:Hk.
  - rewrite decide_False by (by intros [_ ?]). simpl.
    specialize (Hsc l eq_refl).
    assert (l < length (store self))%nat as Hl.
    { apply (wf_bound _ Hwf k). destruct Hsc; [by left|by apply cur_in_scopes]. }
    rewrite (store_old _ _ _ Hadd Hl), decide_True by done.
    apply lookup_lt_is_Some in Hl as [r ->]. done.
  - rewrite decide_True by done. simpl. by apply store_new.
Qed.

Lemma scope_lookup_other self self' (sc : gmap string nat) (k' : string) :
  wf self → added tag flag k info self self' →
  (∀ l, sc !! k' = Some l → in_scopes self k' l) →
  k' ≠ k →
  view (store self') sc !! k' = view (store self) sc !! k'.
Proof.
  intros Hwf Hadd Hsc Hne. rewrite !view_lookup.
  destruct (sc !! k') as [l|] eqn:Hk; [simpl|done].
  specialize (Hsc l eq_refl).
  rewrite (store_old _ _ _ Hadd) by (by apply (wf_bound _ Hwf k')).
  rewrite decide_False; [done|].
  intros [H|H]; apply Hne; apply (wf_inj _ Hwf k' k l Hsc);
    [by left | by apply cur_in_scopes].
Qed.

Lemma repos_view_same self self' :
  wf self → added tag flag k info self self' →
  repos_view self' !! k = Some (merge_record info tag (repos_view self !! k)).
Proof.
  intros Hwf Hadd. apply scope_lookup_same; [done..|by left|apply Hadd].
Qed.

Lemma repos_view_other self self' (k' : string) :
  wf self → added tag flag k info self self' → k' ≠ k →
  repos_view self' !! k' = repos_view self !! k'.
Proof.
  intros Hwf Hadd Hne. unfold repos_view.
  pose proof Hadd as (_ & Hr & _).
  rewrite (view_lookup _ (repos self')), Hr, bind_loc_lookup.
  rewrite decide_False by (intros [? _]; congruence).
  rewrite <-view_lookup.
  apply scope_lookup_other; [done|done| |done].
  intros l Hl. by left.
Qed.

Lemma current_view_same self self' :
  wf self → added tag flag k info self self' → flag = true →
  current_view self' !! k
  = Some (merge_record info tag (current_view self !! k)).
Proof.
  intros Hwf Hadd Hflag. apply scope_lookup_same; [done..| |].
  - intros l Hl. right. by rewrite Hflag.
  - destruct Hadd as (_ & _ & ->). by rewrite Hflag.
Qed.

Lemma current_view_other self self' (k' : string) :
  wf self → added tag flag k info self self' → k' ≠ k →
  current_view self' !! k' = current_view self !! k'.
Proof.
  intros Hwf Hadd Hne. unfold current_view.
  assert (current_search_repos self' !! k' = current_search_repos self !! k') as Heq.
  { destruct Hadd as (_ & _ & ->). destruct flag; [|done].
    by rewrite bind_loc_lookup, decide_False by (intros [? _]; congruence). }
  rewrite (view_lookup _ (current_search_repos self')), Heq, <-view_lookup.
  apply scope_lookup_other; [done|done| |done].
  intros l Hl. by right.
Qed.

(** Without batch tracking the batch scope is not written, yet a
    record object it shares with the global scope is updated. *)
Lemma current_view_untracked self self' :
  wf self → added tag flag k info self self' → flag = false →
  current_view self' !! k
  = if decide (current_search_repos self !! k = repos self !! k)
    then merge_tag tag <$> current_view self !! k
    else current_view self !! k.
Proof.
  intros Hwf Hadd Hflag. unfold current_view.
  assert (current_search_repos self' = current_search_repos self) as ->.
  { destruct Hadd as (_ & _ & ->). by rewrite Hflag. }
  rewrite !view_lookup.
  destruct (current_search_repos self !! k) as [l|] eqn:Hk; simpl.
  - assert (in_scopes self k l) as Hin by (by right).
    rewrite (store_old _ _ _ Hadd) by (by apply (wf_bound _ Hwf k)).
    rewrite Hflag. repeat case_decide; try done; exfalso; intuition congruence.
  - by case_decide.
Qed.
End add_repo.

Lemma add_repo_added repo tag flag self self' :
  add_repo repo tag flag self = Ok self' →
  ∃ k info,
    repo !! "full_name" = Some (JStr k) ∧ repo_info repo tag = Ok info
    ∧ added tag flag k info self self'.
Proof.
  intros (k & info & Hk & Hi & ? & ? & ?)%add_repo_eq. by exists k, info.
Qed.

End aggregator_facts.

Section run_facts.
Import PyStr PyStrFacts.

(** ** The aggregator: runs *)

Lemma wf_init : wf init.
Proof.
  split.
  - intros k l [H|H]; simpl in H; by rewrite lookup_empty in H.
  - intros k1 k2 l [H|H]; simpl in H; by rewrite lookup_empty in H.
Qed.

Lemma wf_clear (self : GitHubSearch) : wf self → wf (clear_current self).
Proof.
  intros [Hb Hinj].
  assert (∀ k l, in_scopes (clear_current self) k l → in_scopes self k l) as Hin.
  { intros k l [H|H]; [by left|]. simpl in H. by rewrite lookup_empty in H. }
  split; [intros k l H%Hin; by apply (Hb k)|].
  intros k1 k2 l H1%Hin H2%Hin. eauto.
Qed.

Lemma add_repository_added repo_data tag flag self self' :
  _add_repository repo_data tag flag self = Ok self' →
  ∃ repo k info,
    select_repo repo_data = Ok repo ∧ identity repo_data = Some k
    ∧ repo_info repo tag = Ok info ∧ added tag flag k info self self'.
Proof.
  unfold _add_repository, identity.
  destruct (select_repo repo_data) as [repo|]; simpl; [|done].
  intros (k & info & Hk & Hi & Hadd)%add_repo_added.
  exists repo, k, info. by rewrite Hk.
Qed.

Lemma repo_info_fields repo tag info :
  repo_info repo tag = Ok info →
  found_by info = tag
  ∧ repo !! "html_url" = Some (url info)
  ∧ description info = default no_description (repo !! "description").
Proof.
  unfold repo_info, getitem. destruct (repo !! "html_url"); simpl; [|done].
  intros [= <-]. done.
Qed.

Lemma exec_wf o self self' : wf self → exec o self = Ok self' → wf self'.
Proof.
  intros Hwf. destruct o as [d tag flag|]; simpl.
  - intros (repo & k & info & _ & _ & _ & Hadd)%add_repository_added.
    by eapply add_repo_wf.
  - intros [= <-]. by apply wf_clear.
Qed.

Lemma run_wf ops self self' : wf self → run ops self = Ok self' → wf self'.
Proof.
  revert self. induction ops as [|o ops IH]; intros self Hwf; simpl.
  - by intros [= <-].
  - destruct (exec o self) as [s1|] eqn:He; simpl; [|done].
    apply IH. by eapply exec_wf.
Qed.

Lemma run_app ops1 ops2 self :
  run (ops1 ++ ops2) self = (s ←! run ops1 self; run ops2 s).
Proof.
  revert self. induction ops1 as [|o ops1 IH]; intros self; simpl; [done|].
  destruct (exec o self); simpl; [apply IH|done].
Qed.

Lemma reachable_wf ops self : run ops init = Ok self → wf self.
Proof. apply run_wf, wf_init. Qed.

(** One merge, as seen through the views. *)
Lemma merge_repos_view repo_data tag flag self self' k :
  wf self → _add_repository repo_data tag flag self = Ok self' →
  identity repo_data = Some k →
  ∃ info, found_by info = tag
    ∧ repos_view self' !! k = Some (merge_record info tag (repos_view self !! k))
    ∧ (flag = true →
       current_view self' !! k
       = Some (merge_record info tag (current_view self !! k)))
    ∧ (flag = false →
       current_view self' !! k
       = if decide (current_search_repos self !! k = repos self !! k)
         then merge_tag tag <$> current_view self !! k
         else current_view self !! k).
Proof.
  intros Hwf (repo & k' & info & _ & Hid & Hinfo & Hadd)%add_repository_added Hk.
  assert (k' = k) as -> by congruence.
  exists info. split; [by apply repo_info_fields in Hinfo as [? _]|].
  split_and!; eauto using repos_view_same, current_view_same, current_view_untracked.
Qed.

Lemma merge_frame repo_data tag flag self self' k' :
  wf self → _add_repository repo_data tag flag self = Ok self' →
  identity repo_data ≠ Some k' →
  repos_view self' !! k' = repos_view self !! k'
  ∧ current_view self' !! k' = current_view self !! k'.
Proof.
  intros Hwf (repo & k & info & _ & Hid & Hinfo & Hadd)%add_repository_added Hk.
  assert (k' ≠ k) by congruence.
  eauto using repos_view_other, current_view_other.
Qed.

Lemma clear_views self :
  repos_view (clear_current self) = repos_view self
  ∧ current_view (clear_current self) = ∅.
Proof. split; [done|]. unfold current_view, view. simpl. apply omap_empty. Qed.

(** ** Claims on the aggregator *)

(** What a merge does to a record already stored under the name. *)
Lemma merge_tag_fields tag r :
  merge_tag tag r
  = {| url := url r; description := description r;
       found_by := if contains tag (found_by r) then found_by r
                   else found_by r +:+ ", " +:+ tag |}.
Proof. unfold merge_tag. destruct (contains _ _); by destruct r. Qed.

(** C1, as amended: when the name of the merged item is already present
    in a scope, the stored record keeps the url and the description it
    was created with (the incoming values are dropped), and its
    [found_by] string gains [", " + tag] exactly when the tag is not
    contained in that string. *)
Theorem merge_existing_keeps_metadata ops self repo_data tag flag self' k :
  run ops init = Ok self →
  _add_repository repo_data tag flag self = Ok self' →
  identity repo_data = Some k →
  (∀ r, repos_view self !! k = Some r →
        repos_view self' !! k
        = Some {| url := url r; description := description r;
                  found_by := if contains tag (found_by r) then found_by r
                              else found_by r +:+ ", " +:+ tag |})
  ∧ (flag = true →
     ∀ r, current_view self !! k = Some r →
          current_view self' !! k
          = Some {| url := url r; description := description r;
                    found_by := if contains tag (found_by r) then found_by r
                                else found_by r +:+ ", " +:+ tag |}).
Proof.
  intros Hwf%reachable_wf Hadd Hid.
  destruct (merge_repos_view _ _ _ _ _ _ Hwf Hadd Hid)
    as (info & _ & Hr & Hc & _).
  split.
  - intros r Hk. by rewrite Hr, Hk, <-merge_tag_fields.
  - intros Hflag r Hk. by rewrite (Hc Hflag), Hk, <-merge_tag_fields.
Qed.

Lemma merge_existing_keeps_metadata_witness :
  let self := Sample.after [OpAdd Sample.widget (code_tag "x" "indexed" "desc") true] in
  let self' := Sample.after [OpAdd Sample.widget (code_tag "x" "indexed" "desc") true;
                             OpAdd Sample.widget_later (commit_tag "x") true] in
  repos_view self !! "acme/widget"
  = Some {| url := JStr "https://github.com/acme/widget";
            description := JStr "A widget";
            found_by := "code_search: x (indexed desc)" |}
  ∧ repos_view self' !! "acme/widget"
    = Some {| url := JStr "https://github.com/acme/widget";
              description := JStr "A widget";
              found_by := "code_search: x (indexed desc), commit_search: x" |}.
Proof.
  intros self self'.
  assert (repos_view self !! "acme/widget"
          = Some {| url := JStr "https://github.com/acme/widget";
                    description := JStr "A widget";
                    found_by := "code_search: x (indexed desc)" |}) as Hself
    by (vm_compute; reflexivity).
  split; [exact Hself|].
  exact (proj1 (merge_existing_keeps_metadata
    [OpAdd Sample.widget (code_tag "x" "indexed" "desc") true]
    self Sample.widget_later (commit_tag "x") true self' "acme/widget"
    ltac:(vm_compute; reflexivity) ltac:(vm_compute; reflexivity)
    ltac:(vm_compute; reflexivity)) _ Hself).
Defined.

(** The merge into a scope that already holds the name does not take
    over the incoming url and description. *)
Lemma merge_existing_overwrite_counterexample :
  ∃ self self' r',
    run [OpAdd Sample.widget (code_tag "x" "indexed" "desc") true] init = Ok self
    ∧ is_Some (repos_view self !! "acme/widget")
    ∧ _add_repository Sample.widget_later (commit_tag "x") true self = Ok self'
    ∧ repos_view self' !! "acme/widget" = Some r'
    ∧ Sample.widget_later !! "html_url" ≠ Some (url r')
    ∧ Sample.widget_later !! "description" ≠ Some (description r').
Proof.
  eexists _, _, _. split_and!; try (vm_compute; reflexivity).
  - vm_compute. eauto.
  - vm_compute. discriminate.
  - vm_compute. discriminate.
Qed.

Lemma merge_record_contains info tag o :
  found_by info = tag → contains tag (found_by (merge_record info tag o)) = true.
Proof.
  intros <-. destruct o as [r|]; simpl;
    [apply merge_tag_contains | apply contains_refl].
Qed.

Lemma merge_tag_id tag r : contains tag (found_by r) = true → merge_tag tag r = r.
Proof. unfold merge_tag. by intros ->. Qed.

Lemma provenance_fresh info tag :
  found_by info = tag → contains ", " tag = false → provenance info = [tag].
Proof. intros <- H. unfold provenance. by apply split_comma_plain. Qed.

Lemma provenance_append tag r :
  contains tag (found_by r) = false →
  provenance (merge_tag tag r) = provenance r ++ split_comma tag.
Proof.
  intros H. unfold merge_tag, provenance. rewrite H. simpl.
  apply split_comma_app.
Qed.

Lemma filter_eq_none (tag : string) (l : list string) :
  tag ∉ l → filter (λ t, t = tag) l = [].
Proof.
  induction l as [|w l IH]; [done|].
  intros [Hne Hl]%not_elem_of_cons.
  rewrite filter_cons_False by congruence. auto.
Qed.

Lemma provenance_contains r w :
  w ∈ provenance r → contains w (found_by r) = true.
Proof. apply split_comma_contains. Qed.

(** A tag that was not contained before is listed once afterwards. *)
Lemma merge_record_once info tag o :
  found_by info = tag → contains ", " tag = false →
  (∀ r0, o = Some r0 → contains tag (found_by r0) = false) →
  length (filter (λ t, t = tag) (provenance (merge_record info tag o))) = 1%nat.
Proof.
  intros Hi Hplain Hnew. destruct o as [r0|]; simpl.
  - specialize (Hnew r0 eq_refl).
    rewrite provenance_append, filter_app, length_app by done.
    rewrite (split_comma_plain tag Hplain).
    rewrite filter_cons_True, filter_nil by done. simpl.
    assert (filter (λ t, t = tag) (provenance r0) = []) as ->; [|done].
    apply filter_eq_none. intros Hw%provenance_contains. congruence.
  - rewrite (provenance_fresh _ tag) by done.
    by rewrite filter_cons_True, filter_nil.
Qed.

(** C3, as amended: merging the same (name, tag) pair a second time
    changes no record of either scope, so no tag is ever appended twice;
    afterwards the tag is contained in the [found_by] string of the
    record in each scope merged into, and it is an element of the
    provenance exactly once whenever the tag holds no [", "] and was not
    already contained in the string of a record the scope held before
    the first merge. *)
Theorem merge_twice_idempotent ops self repo_data tag flag s1 s2 k :
  run ops init = Ok self →
  _add_repository repo_data tag flag self = Ok s1 →
  _add_repository repo_data tag flag s1 = Ok s2 →
  identity repo_data = Some k →
  repos_view s2 = repos_view s1
  ∧ current_view s2 = current_view s1
  ∧ (∃ r, repos_view s2 !! k = Some r
       ∧ contains tag (found_by r) = true
       ∧ (contains ", " tag = false →
          (∀ r0, repos_view self !! k = Some r0 →
                 contains tag (found_by r0) = false) →
          length (filter (λ t, t = tag) (provenance r)) = 1%nat))
  ∧ (flag = true →
     ∃ r, current_view s2 !! k = Some r
       ∧ contains tag (found_by r) = true
       ∧ (contains ", " tag = false →
          (∀ r0, current_view self !! k = Some r0 →
                 contains tag (found_by r0) = false) →
          length (filter (λ t, t = tag) (provenance r)) = 1%nat)).
Proof.
  intros Hwf%reachable_wf Hadd1 Hadd2 Hid.
  assert (wf s1) as Hwf1.
  { by apply (exec_wf (OpAdd repo_data tag flag) self). }
  destruct (merge_repos_view _ _ _ _ _ _ Hwf Hadd1 Hid)
    as (info1 & Hi1 & Hr1 & Hc1 & _).
  destruct (merge_repos_view _ _ _ _ _ _ Hwf1 Hadd2 Hid)
    as (info2 & Hi2 & Hr2 & Hc2 & Hu2).
  set (X := merge_record info1 tag (repos_view self !! k)) in *.
  assert (contains tag (found_by X) = true) as HX
    by (by apply merge_record_contains).
  assert (repos_view s2 !! k = Some X) as Hr2'.
  { rewrite Hr2, Hr1. simpl. by rewrite merge_tag_id. }
  assert (current_view s2 = current_view s1) as Hcur.
  { apply map_eq. intros k'. destruct (decide (k' = k)) as [->|Hne].
    + destruct flag.
      * rewrite (Hc2 eq_refl), (Hc1 eq_refl). simpl.
        by rewrite merge_tag_id by (by apply merge_record_contains).
      * rewrite (Hu2 eq_refl). case_decide as Hal; [|done].
        unfold current_view in *. rewrite view_lookup, Hal, <-view_lookup.
        fold (repos_view s1). rewrite Hr1. simpl. by rewrite merge_tag_id.
    + apply (merge_frame _ _ _ _ _ k' Hwf1 Hadd2). congruence. }
  split_and!.
  - apply map_eq. intros k'. destruct (decide (k' = k)) as [->|Hne].
    + by rewrite Hr2', Hr1.
    + apply (merge_frame _ _ _ _ _ k' Hwf1 Hadd2). congruence.
  - done.
  - exists X. split_and!; [done..|]. intros Hplain Hnew.
    by apply merge_record_once.
  - intros Hflag. rewrite Hcur, (Hc1 Hflag). eexists. split_and!; [done| |].
    + by apply merge_record_contains.
    + intros Hplain Hnew. by apply merge_record_once.
Qed.

Lemma merge_twice_idempotent_witness :
  let self := Sample.after [OpAdd Sample.widget (code_tag "x" "indexed" "desc") true] in
  let s1 := Sample.after [OpAdd Sample.widget (code_tag "x" "indexed" "desc") true;
                          OpAdd Sample.widget (commit_tag "x") true] in
  let s2 := Sample.after [OpAdd Sample.widget (code_tag "x" "indexed" "desc") true;
                          OpAdd Sample.widget (commit_tag "x") true;
                          OpAdd Sample.widget (commit_tag "x") true] in
  repos_view s2 = repos_view s1
  ∧ current_view s2 = current_view s1
  ∧ ∃ r, repos_view s2 !! "acme/widget" = Some r
      ∧ contains (commit_tag "x") (found_by r) = true
      ∧ (contains ", " (commit_tag "x") = false →
         (∀ r0, repos_view self !! "acme/widget" = Some r0 →
                contains (commit_tag "x") (found_by r0) = false) →
         length (filter (λ t, t = commit_tag "x") (provenance r)) = 1%nat).
Proof.
  intros self s1 s2.
  refine ((λ H, conj (proj1 H) (conj (proj1 (proj2 H))
                                 (proj1 (proj2 (proj2 H))))) _).
  apply (merge_twice_idempotent
    [OpAdd Sample.widget (code_tag "x" "indexed" "desc") true]
    self Sample.widget (commit_tag "x") true s1 s2 "acme/widget");
    vm_compute; reflexivity.
Defined.

(** A tag that occurs inside tags already recorded is not added: after
    merging it twice the provenance does not list it, while the
    [found_by] string holds it at two places. *)
Lemma merge_twice_exactly_once_counterexample :
  ∃ s r,
    run [OpAdd Sample.widget (commit_tag "foo bar") true;
         OpAdd Sample.widget (commit_tag "foo baz") true;
         OpAdd Sample.widget (commit_tag "foo") true;
         OpAdd Sample.widget (commit_tag "foo") true] init = Ok s
    ∧ repos_view s !! "acme/widget" = Some r
    ∧ found_by r = "commit_search: foo bar, commit_search: foo baz"
    ∧ length (filter (λ t, t = commit_tag "foo") (provenance r)) = 0%nat
    ∧ occurrences (commit_tag "foo") (found_by r) = 2%nat.
Proof.
  eexists _, _. split_and!; vm_compute; reflexivity.
Qed.

End run_facts.

Section joined_facts.
Import PyStr PyStrFacts.

(** ** The joined provenance string *)

Lemma free_of_comma_plain (t : string) : free_of "," t → contains ", " t = false.
Proof.
  intros Hf. destruct (contains ", " t) eqn:E; [|done].
  apply contains_spec in E as (a & b & ->).
  assert (contains "," (a +:+ ", " +:+ b) = true) as H; [|unfold free_of in Hf; congruence].
  apply contains_spec. exists a, (" " +:+ b). done.
Qed.

Lemma plain_split (t : string) : plain t → split_comma t = [t].
Proof. intros [Hf _]. by apply split_comma_plain, free_of_comma_plain. Qed.

Lemma length_app_str (a b : string) :
  String.length (a +:+ b) = (String.length a + String.length b)%nat.
Proof. induction a as [|c a IH]; [done|]. rewrite app_cons. simpl. by rewrite IH. Qed.

(** A plain tag contained in a joined string lies inside one piece. *)
Lemma plain_contains_piece (t s : string) :
  plain t → contains t s = true → ∃ w, w ∈ split_comma s ∧ contains t w = true.
Proof.
  intros [Hf Hsp]. remember (String.length s) as n eqn:Hn.
  revert s Hn. induction (lt_wf n) as [n _ IH]. intros s -> Hc.
  destruct (contains ", " s) eqn:Hsep.
  - apply contains_spec in Hsep as (a & b & ->).
    rewrite split_comma_app.
    apply contains_sep_inv in Hc as [Ha|Hb]; [| |done..].
    + destruct (IH (String.length a)) with (s := a) as (w & Hw & Htw); [|done..|].
      { rewrite !length_app_str. simpl. lia. }
      exists w. split; [|done]. apply elem_of_app. by left.
    + destruct (IH (String.length b)) with (s := b) as (w & Hw & Htw); [|done..|].
      { rewrite !length_app_str. simpl. lia. }
      exists w. split; [|done]. apply elem_of_app. by right.
  - exists s. rewrite split_comma_plain by done. split; [apply list_elem_of_singleton|]; done.
Qed.

Lemma joined_snoc o tags t : joined o (tags ++ [t]) = join_tag (joined o tags) t.
Proof. unfold joined. by rewrite foldl_app. Qed.

Lemma joined_cons o tags t : joined o (t :: tags) = joined (join_tag o t) tags.
Proof. done. Qed.

Lemma join_tag_grows s t :
  ∃ s', join_tag (Some s) t = Some s' ∧ contains t s' = true
        ∧ (s' = s ∨ (contains t s = false ∧ s' = s +:+ ", " +:+ t)).
Proof.
  unfold join_tag. destruct (contains t s) eqn:E; eexists; split_and!; eauto.
  apply contains_app_r, contains_app_r, contains_refl.
Qed.

(** The string only grows, by whole tags at its end. *)
Lemma joined_grows s tags :
  ∃ s', joined (Some s) tags = Some s'
        ∧ (∀ u, contains u s = true → contains u s' = true)
        ∧ split_comma s `prefix_of` split_comma s'
        ∧ (∀ w, w ∈ split_comma s' →
                w ∈ split_comma s ∨ ∃ t, t ∈ tags ∧ w ∈ split_comma t).
Proof.
  revert s. induction tags as [|t tags IH]; intros s.
  - exists s. split_and!; [done|done|done|by left].
  - rewrite joined_cons.
    destruct (join_tag_grows s t) as (s1 & -> & _ & Hs1).
    destruct (IH s1) as (s' & -> & Hmono & Hpre & Hpieces).
    exists s'. split; [done|].
    destruct Hs1 as [->|[_ ->]].
    + split_and!; [done..|]. intros w [?|(t' & ? & ?)]%Hpieces; [by left|right].
      exists t'. split; [by apply elem_of_cons; right|done].
    + rewrite split_comma_app in Hpre, Hpieces. split_and!.
      * intros u Hu. by apply Hmono, contains_app_l.
      * etrans; [|exact Hpre]. by apply prefix_app_r.
      * intros w [[?|?]%elem_of_app|(t' & ? & ?)]%Hpieces; [by left|right..].
        -- exists t. split; [by apply elem_of_cons; left|done].
        -- exists t'. split; [by apply elem_of_cons; right|done].
Qed.

Lemma joined_is_Some o tags : o = None → tags = [] ∨ is_Some (joined o tags).
Proof.
  intros ->. destruct tags as [|t tags]; [by left|right].
  rewrite joined_cons. simpl.
  destruct (joined_grows t tags) as (s' & Hs' & _). unfold join_tag. by rewrite Hs'.
Qed.

(** Every applied tag is contained in the final string. *)
Lemma joined_contains o tags t :
  t ∈ tags → ∃ s', joined o tags = Some s' ∧ contains t s' = true.
Proof.
  revert o. induction tags as [|t' tags IH]; intros o Ht; [by inversion Ht|].
  rewrite joined_cons. apply elem_of_cons in Ht as [->|Ht]; [|by apply IH].
  assert (∃ s1, join_tag o t' = Some s1 ∧ contains t' s1 = true) as (s1 & -> & Hc).
  { destruct o as [s|].
    - destruct (join_tag_grows s t') as (s1 & ? & ? & _). eauto.
    - eexists. split; [done|]. apply contains_refl. }
  destruct (joined_grows s1 tags) as (s' & -> & Hmono & _). eauto.
Qed.

(** From an absent name: the pieces of the final string all come from
    applied tags. *)
Lemma joined_pieces tags s' w :
  joined None tags = Some s' → w ∈ split_comma s' →
  ∃ t, t ∈ tags ∧ w ∈ split_comma t.
Proof.
  destruct tags as [|t tags]; [done|]. rewrite joined_cons. simpl.
  destruct (joined_grows t tags) as (s1 & Hs1 & _ & _ & Hpieces).
  unfold join_tag. rewrite Hs1. intros [= <-] [?|(t' & ? & ?)]%Hpieces.
  - exists t. split; [by apply elem_of_cons; left|done].
  - exists t'. split; [by apply elem_of_cons; right|done].
Qed.

(** With plain tags none of which occurs inside another one, the final
    string lists exactly the applied tags. *)
Lemma joined_union tags s' t :
  Forall plain tags → independent tags →
  joined None tags = Some s' →
  t ∈ split_comma s' ↔ t ∈ tags.
Proof.
  intros Hplain Hind Hj.
  assert (∀ w, w ∈ split_comma s' → w ∈ tags) as Hsub.
  { intros w (t' & Ht' & Hw)%(joined_pieces _ _ _ Hj).
    rewrite plain_split in Hw by (by eapply Forall_forall in Hplain).
    by apply list_elem_of_singleton in Hw as ->. }
  split; [apply Hsub|]. intros Ht.
  destruct (joined_contains None tags t Ht) as (s'' & Hs'' & Hc).
  assert (s'' = s') as -> by congruence.
  apply plain_contains_piece in Hc as (w & Hw & Htw);
    [|by eapply Forall_forall in Hplain].
  by rewrite (Hind t w Ht (Hsub w Hw) Htw).
Qed.

End joined_facts.

Section union_facts.
Import PyStr PyStrFacts.

Lemma found_by_merge_record info tag o :
  found_by info = tag →
  Some (found_by (merge_record info tag o)) = join_tag (found_by <$> o) tag.
Proof.
  intros <-. destruct o as [r|]; simpl; [|done].
  unfold join_tag, merge_tag. by destruct (contains _ _).
Qed.

Lemma tags_for_cons k o ops :
  tags_for k (o :: ops)
  = match o with
    | OpAdd repo_data tag _ =>
        if decide (identity repo_data = Some k) then tag :: tags_for k ops
        else tags_for k ops
    | OpClear => tags_for k ops
    end.
Proof.
  unfold tags_for. simpl. destruct o as [d tag flag|]; [|done].
  by case_decide.
Qed.

(** The [found_by] string of a name in the global scope after a run
    is the joined string of the tags the run applied to that name. *)
Lemma run_found_by ops self self' k :
  wf self → run ops self = Ok self' →
  found_by <$> repos_view self' !! k
  = joined (found_by <$> repos_view self !! k) (tags_for k ops).
Proof.
  revert self. induction ops as [|o ops IH]; intros self Hwf Hrun; simpl in Hrun.
  - by injection Hrun as <-.
  - destruct (exec o self) as [s1|] eqn:He; simpl in Hrun; [|done].
    rewrite (IH s1) by (by eauto using exec_wf).
    rewrite tags_for_cons. destruct o as [d tag flag|]; simpl in He.
    + case_decide as Hid.
      * destruct (merge_repos_view _ _ _ _ _ _ Hwf He Hid) as (info & Hi & -> & _).
        rewrite joined_cons. simpl. by rewrite found_by_merge_record.
      * by destruct (merge_frame _ _ _ _ _ k Hwf He Hid) as [-> _].
    + injection He as <-. by destruct (clear_views self) as [-> _].
Qed.

(** Between two batch clears, with batch tracking on, the same holds
    in the batch scope. *)
Lemma run_found_by_current ops self self' k :
  wf self → tracked ops → run ops self = Ok self' →
  found_by <$> current_view self' !! k
  = joined (found_by <$> current_view self !! k) (tags_for k ops).
Proof.
  revert self. induction ops as [|o ops IH]; intros self Hwf Htr Hrun;
    simpl in Hrun.
  - by injection Hrun as <-.
  - destruct (exec o self) as [s1|] eqn:He; simpl in Hrun; [|done].
    apply Forall_cons in Htr as [Ho Htr].
    rewrite (IH s1) by (by eauto using exec_wf).
    rewrite tags_for_cons. destruct o as [d tag flag|]; [|done].
    simpl in He. subst flag. case_decide as Hid.
    + destruct (merge_repos_view _ _ _ _ _ _ Hwf He Hid)
        as (info & Hi & _ & Hc & _).
      rewrite (Hc eq_refl), joined_cons. simpl.
      by rewrite found_by_merge_record.
    + by destruct (merge_frame _ _ _ _ _ k Hwf He Hid) as [_ ->].
Qed.

Lemma joined_grows_to_union before after tags :
  found_by <$> after = joined (found_by <$> before) tags →
  grows_to_union before after tags.
Proof.
  intros Hfb. split_and!.
  - intros r ->. simpl in Hfb.
    destruct (joined_grows (found_by r) tags) as (s' & Hs' & _ & Hpre & _).
    rewrite Hs' in Hfb. destruct after as [r'|]; [|done].
    injection Hfb as <-. by exists r'.
  - intros t Ht.
    destruct (joined_contains (found_by <$> before) _ t Ht) as (s' & Hs' & Hc).
    rewrite Hs' in Hfb. destruct after as [r'|]; [|done].
    injection Hfb as <-. by exists r'.
  - intros -> r' ->. simpl in Hfb. symmetry in Hfb. split.
    + intros w Hw. by apply (joined_pieces _ _ _ Hfb).
    + intros Hplain Hind t. by apply joined_union.
Qed.

(** C2, as amended: over any run, the provenance of a name in the global
    scope is only extended at its end (no tag it listed is lost), every
    tag applied to the name is contained in the final [found_by] string,
    and every element of the final provenance is a piece of an applied
    tag; the provenance is the set of applied tags when these are plain
    and none occurs inside another one.  The same holds in the batch
    scope over merges with batch tracking. *)
Theorem provenance_grows_to_union ops0 self ops self' k :
  run ops0 init = Ok self →
  run ops self = Ok self' →
  grows_to_union (repos_view self !! k) (repos_view self' !! k)
    (tags_for k ops)
  ∧ (tracked ops →
     grows_to_union (current_view self !! k) (current_view self' !! k)
       (tags_for k ops)).
Proof.
  intros Hwf%reachable_wf Hrun. split.
  - by apply joined_grows_to_union, run_found_by.
  - intros Htr. by apply joined_grows_to_union, run_found_by_current.
Qed.

Lemma provenance_grows_to_union_witness :
  let ops := [OpAdd (Sample.code_item Sample.widget) (code_tag "x" "indexed" "desc") true;
              OpAdd Sample.gizmo (description_tag "x" "2024-01-01" "2024-01-31") true;
              OpClear;
              OpAdd Sample.widget (commit_tag "x") true;
              OpAdd Sample.widget (code_tag "x" "indexed" "desc") false] in
  ∃ r', repos_view (Sample.after ops) !! "acme/widget" = Some r'
        ∧ found_by r' = "code_search: x (indexed desc), commit_search: x"
        ∧ ∀ t, t ∈ provenance r'
               ↔ t ∈ ["code_search: x (indexed desc)"; "commit_search: x";
                      "code_search: x (indexed desc)"].
Proof.
  intros ops. eexists. split_and!; [vm_compute; reflexivity..|].
  refine (proj2 (proj2 (proj2 (proj1 (provenance_grows_to_union [] init ops
    (Sample.after ops) "acme/widget" eq_refl ltac:(vm_compute; reflexivity))))
    ltac:(vm_compute; reflexivity) _ ltac:(vm_compute; reflexivity)) _ _).
  - repeat constructor; vm_compute; reflexivity.
  - intros t t' Ht Ht'.
    repeat (apply elem_of_cons in Ht as [->|Ht]; [|]);
      [..|by inversion Ht];
      repeat (apply elem_of_cons in Ht' as [->|Ht']; [|]);
      try (by inversion Ht'); try done; vm_compute; discriminate.
Defined.

(** A tag that occurs inside a recorded tag is applied without being
    added: the final provenance is not the union of the applied tags. *)
Lemma provenance_union_counterexample :
  ∃ s r,
    run [OpAdd Sample.widget (commit_tag "foo bar") true;
         OpAdd Sample.widget (commit_tag "foo") true] init = Ok s
    ∧ repos_view s !! "acme/widget" = Some r
    ∧ commit_tag "foo"
      ∈ tags_for "acme/widget"
          [OpAdd Sample.widget (commit_tag "foo bar") true;
           OpAdd Sample.widget (commit_tag "foo") true]
    ∧ commit_tag "foo" ∉ provenance r.
Proof.
  eexists _, _. split_and!; try (vm_compute; reflexivity).
  - vm_compute. apply elem_of_cons; right. apply elem_of_cons; by left.
  - vm_compute. intros H. apply list_elem_of_singleton in H. discriminate.
Qed.

End union_facts.

Section scope_facts.
Import PyStr PyStrFacts.

(** ** The two scopes *)

Lemma merge_tag_mono tag r u :
  contains u (found_by r) = true → contains u (found_by (merge_tag tag r)) = true.
Proof.
  unfold merge_tag. destruct (contains tag _); [done|]. simpl.
  apply contains_app_l.
Qed.

Lemma merge_tag_pieces tag r w :
  w ∈ provenance (merge_tag tag r) → w ∈ provenance r ∨ w ∈ split_comma tag.
Proof.
  destruct (contains tag (found_by r)) eqn:E.
  - rewrite merge_tag_id by done. by left.
  - rewrite provenance_append by done. apply elem_of_app.
Qed.

Lemma merge_record_pieces info tag o w :
  found_by info = tag →
  w ∈ provenance (merge_record info tag o) →
  (∃ r, o = Some r ∧ w ∈ provenance r) ∨ w ∈ split_comma tag.
Proof.
  intros Hi. destruct o as [r|]; simpl.
  - intros [?|?]%merge_tag_pieces; eauto.
  - unfold provenance. rewrite Hi. auto.
Qed.

Lemma piece_of_tag_contained info tag o w :
  found_by info = tag → w ∈ split_comma tag →
  contains w (found_by (merge_record info tag o)) = true.
Proof.
  intros Hi Hw%split_comma_contains.
  eapply contains_trans; [done|]. by apply merge_record_contains.
Qed.

Lemma exec_batch_within_global o self self' :
  wf self → batch_within_global self → exec o self = Ok self' →
  batch_within_global self'.
Proof.
  intros Hwf Hinv He. destruct o as [d tag flag|]; simpl in He.
  - pose proof He as (repo & k0 & info0 & _ & Hid & _)%add_repository_added.
    destruct (merge_repos_view _ _ _ _ _ _ Hwf He Hid)
      as (info & Hi & Hr & Hc & Hu).
    intros k rb Hb. destruct (decide (k = k0)) as [->|Hne].
    + eexists. split; [exact Hr|]. intros t Ht.
      assert (∀ rb0, current_view self !! k0 = Some rb0 →
                     t ∈ provenance (merge_tag tag rb0) →
                     contains t (found_by (merge_record info tag
                                             (repos_view self !! k0))) = true)
        as Hold.
      { intros rb0 Hb0 [Ht0|Ht0]%merge_tag_pieces.
        - destruct (Hinv _ _ Hb0) as (rg & -> & Hrg). simpl.
          by apply merge_tag_mono, Hrg.
        - by apply piece_of_tag_contained. }
      destruct flag.
      * rewrite (Hc eq_refl) in Hb. injection Hb as <-.
        destruct (merge_record_pieces _ _ _ _ Hi Ht) as [(rb0 & Hb0 & Ht0)|Ht0].
        -- apply (Hold rb0 Hb0). destruct (contains tag (found_by rb0)) eqn:E.
           ++ by rewrite merge_tag_id.
           ++ rewrite provenance_append by done. apply elem_of_app. by left.
        -- by apply piece_of_tag_contained.
      * rewrite (Hu eq_refl) in Hb. case_decide.
        -- destruct (current_view self !! k0) as [rb0|] eqn:Hb0; [|done].
           injection Hb as <-. by apply (Hold rb0).
        -- destruct (Hinv _ _ Hb) as (rg & -> & Hrg). simpl.
           by apply merge_tag_mono, Hrg.
    + assert (identity d ≠ Some k) as Hid' by congruence.
      destruct (merge_frame _ _ _ _ _ k Hwf He Hid') as [-> Hcur].
      rewrite Hcur in Hb. by apply Hinv.
  - injection He as <-. intros k rb Hb.
    destruct (clear_views self) as [_ Hc]. by rewrite Hc, lookup_empty in Hb.
Qed.

Lemma run_batch_within_global ops self self' :
  wf self → batch_within_global self → run ops self = Ok self' →
  batch_within_global self'.
Proof.
  revert self. induction ops as [|o ops IH]; intros self Hwf Hinv Hrun;
    simpl in Hrun.
  - by injection Hrun as <-.
  - destruct (exec o self) as [s1|] eqn:He; simpl in Hrun; [|done].
    apply (IH s1); eauto using exec_wf, exec_batch_within_global.
Qed.

Lemma batch_within_global_init : batch_within_global init.
Proof.
  intros k rb Hb. unfold current_view, view in Hb. simpl in Hb.
  by rewrite omap_empty, lookup_empty in Hb.
Qed.

Lemma tags_of_cons o ops :
  tags_of (o :: ops)
  = match o with
    | OpAdd _ tag _ => tag :: tags_of ops
    | OpClear => tags_of ops
    end.
Proof. by destruct o. Qed.

Lemma exec_listed_in T o self self' :
  wf self → listed_in T self →
  (∀ t, t ∈ tags_of [o] → t ∈ T ∧ plain t) →
  exec o self = Ok self' → listed_in T self'.
Proof.
  intros Hwf Hinv HT He. destruct o as [d tag flag|]; simpl in He.
  - destruct (HT tag) as [HtagT Hplain]; [by apply elem_of_cons; left|].
    pose proof He as (repo & k0 & info0 & _ & Hid & _)%add_repository_added.
    destruct (merge_repos_view _ _ _ _ _ _ Hwf He Hid)
      as (info & Hi & Hr & Hc & Hu).
    assert (∀ w, w ∈ split_comma tag → w ∈ T) as Htag.
    { intros w. rewrite plain_split by done.
      by intros ->%list_elem_of_singleton. }
    assert (∀ r0 w, (repos_view self !! k0 = Some r0
                     ∨ current_view self !! k0 = Some r0) →
                    w ∈ provenance (merge_tag tag r0) → w ∈ T) as Hold.
    { intros r0 w H0 [?|?]%merge_tag_pieces; [by eapply Hinv|by apply Htag]. }
    assert (∀ o w, (o = repos_view self !! k0 ∨ o = current_view self !! k0) →
                   w ∈ provenance (merge_record info tag o) → w ∈ T) as Hrec.
    { intros o w Ho Hw.
      destruct (merge_record_pieces _ _ _ _ Hi Hw) as [(r0 & -> & Hw0)|Hw0];
        [|by apply Htag].
      eapply Hinv; [|done]. destruct Ho as [<-|<-]; eauto. }
    intros k r Hk w Hw. destruct (decide (k = k0)) as [->|Hne].
    + destruct Hk as [Hk|Hk].
      * rewrite Hr in Hk. injection Hk as <-. eapply Hrec; [|done]. by left.
      * destruct flag.
        -- rewrite (Hc eq_refl) in Hk. injection Hk as <-.
           eapply Hrec; [|done]. by right.
        -- rewrite (Hu eq_refl) in Hk. case_decide.
           ++ destruct (current_view self !! k0) as [r0|] eqn:Hb0; [|done].
              injection Hk as <-. eapply Hold; [|done]. by right.
           ++ eapply Hinv; [|done]. by right.
    + assert (identity d ≠ Some k) as Hid' by congruence.
      destruct (merge_frame _ _ _ _ _ k Hwf He Hid') as [Hg Hcur].
      rewrite Hg, Hcur in Hk. by eapply Hinv.
  - injection He as <-. intros k r Hk.
    destruct (clear_views self) as [Hg Hc]. rewrite Hg, Hc, lookup_empty in Hk.
    destruct Hk as [Hk|?]; [|done]. apply (Hinv k r). by left.
Qed.

Lemma run_listed_in T ops self self' :
  wf self → listed_in T self →
  (∀ t, t ∈ tags_of ops → t ∈ T ∧ plain t) →
  run ops self = Ok self' → listed_in T self'.
Proof.
  revert self. induction ops as [|o ops IH]; intros self Hwf Hinv HT Hrun;
    simpl in Hrun.
  - by injection Hrun as <-.
  - destruct (exec o self) as [s1|] eqn:He; simpl in Hrun; [|done].
    apply (IH s1); [by eauto using exec_wf| | |done].
    + eapply exec_listed_in; [done..| |done].
      intros t Ht. apply HT. rewrite tags_of_cons.
      destruct o; [|by inversion Ht].
      apply list_elem_of_singleton in Ht as ->. by apply elem_of_cons; left.
    + intros t Ht. apply HT. rewrite tags_of_cons.
      destruct o; [by apply elem_of_cons; right|done].
Qed.

Lemma listed_in_init T : listed_in T init.
Proof.
  intros k r Hk. unfold repos_view, current_view, view in Hk. simpl in Hk.
  rewrite omap_empty, lookup_empty in Hk. by destruct Hk.
Qed.

(** Where every listed tag is one of a plain, independent family, a
    tag contained in a [found_by] string is listed in it. *)
Lemma contained_listed T s k r t :
  listed_in T s → Forall plain T → independent T →
  repos_view s !! k = Some r → t ∈ T →
  contains t (found_by r) = true → t ∈ provenance r.
Proof.
  intros Hl Hplain Hind Hr Ht Hc. rewrite Forall_forall in Hplain.
  destruct (plain_contains_piece t (found_by r)) as (w & Hw & Htw);
    [by apply Hplain|done|].
  assert (w ∈ T) as HwT by exact (Hl k r (or_introl Hr) w Hw).
  by rewrite (Hind t w Ht HwT Htw).
Qed.

(** C4, as amended: at every point of a run (merges with or without
    batch tracking and batch clears, in any order) each name of the
    batch scope is also in the global scope, and each tag the batch
    record lists is contained in the [found_by] string of the global
    record; the global provenance is a superset of the batch provenance
    when the tags of the run are plain and none occurs inside another. *)
Theorem batch_scope_within_global ops s k rb :
  run ops init = Ok s →
  current_view s !! k = Some rb →
  ∃ rg, repos_view s !! k = Some rg
        ∧ (∀ t, t ∈ provenance rb → contains t (found_by rg) = true)
        ∧ (Forall plain (tags_of ops) → independent (tags_of ops) →
           provenance rb ⊆ provenance rg).
Proof.
  intros Hrun Hb.
  pose proof (run_batch_within_global ops init s wf_init
                batch_within_global_init Hrun) as Hinv.
  destruct (Hinv k rb Hb) as (rg & Hg & Hsub).
  exists rg. split_and!; [done..|]. intros Hplain Hind t Ht.
  assert (listed_in (tags_of ops) s) as Hl.
  { apply (run_listed_in _ ops init s wf_init (listed_in_init _)); [|done].
    intros u Hu. split; [done|]. rewrite Forall_forall in Hplain. by apply Hplain. }
  apply (contained_listed (tags_of ops) s k rg t Hl Hplain Hind Hg);
    [exact (Hl k rb (or_intror Hb) t Ht)|by apply Hsub].
Qed.

Lemma batch_scope_within_global_witness :
  let ops := [OpAdd (Sample.code_item Sample.widget) (code_tag "x" "indexed" "desc") true;
              OpClear;
              OpAdd (Sample.code_item Sample.widget) (code_tag "x" "indexed" "asc") true;
              OpAdd Sample.widget (commit_tag "x") false] in
  current_view (Sample.after ops) !! "acme/widget"
  = Some {| url := JStr "https://github.com/acme/widget";
            description := JStr "A widget";
            found_by := "code_search: x (indexed asc)" |}
  ∧ ∃ rg, repos_view (Sample.after ops) !! "acme/widget" = Some rg
          ∧ (∀ t, t ∈ ["code_search: x (indexed asc)"] →
                  contains t (found_by rg) = true)
          ∧ (Forall plain (tags_of ops) → independent (tags_of ops) →
             ["code_search: x (indexed asc)"] ⊆ provenance rg).
Proof.
  intros ops. split; [vm_compute; reflexivity|].
  exact (batch_scope_within_global ops (Sample.after ops) "acme/widget" _
           ltac:(vm_compute; reflexivity) ltac:(vm_compute; reflexivity)).
Defined.

(** After a batch clear, a tag that occurs inside a tag recorded
    globally enters the new batch record but not the global one. *)
Lemma batch_superset_counterexample :
  ∃ s rb rg,
    run [OpAdd Sample.widget (commit_tag "foo bar") true;
         OpClear;
         OpAdd Sample.widget (commit_tag "foo") true] init = Ok s
    ∧ current_view s !! "acme/widget" = Some rb
    ∧ repos_view s !! "acme/widget" = Some rg
    ∧ provenance rb = ["commit_search: foo"]
    ∧ provenance rg = ["commit_search: foo bar"]
    ∧ ¬ provenance rb ⊆ provenance rg.
Proof.
  eexists _, _, _. split_and!; try (vm_compute; reflexivity).
  intros H. specialize (H "commit_search: foo").
  assert ("commit_search: foo" ∈ ["commit_search: foo bar"]) as Hin.
  { apply H. vm_compute. apply elem_of_cons; by left. }
  apply list_elem_of_singleton in Hin. discriminate.
Qed.

End scope_facts.

Section description_facts.
Import PyStr PyStrFacts.

(** ** The adapters and the description field *)

Lemma add_repo_outcome repo tag flag self k u :
  wf self →
  repo !! "full_name" = Some (JStr k) → repo !! "html_url" = Some u →
  let info := {| url := u;
                 description := default no_description (repo !! "description");
                 found_by := tag |} in
  ∃ self', add_repo repo tag flag self = Ok self'
    ∧ repos_view self' !! k
      = Some (merge_record info tag (repos_view self !! k))
    ∧ (flag = true →
       current_view self' !! k
       = Some (merge_record info tag (current_view self !! k))).
Proof.
  intros Hwf Hn Hu info.
  destruct (add_repo_ok repo tag flag self k u Hn Hu) as [self' Hadd].
  exists self'. split; [done|].
  pose proof Hadd as (k' & info' & Hn' & Hi' & Hadded)%add_repo_added.
  assert (k' = k) as -> by congruence.
  assert (info' = info) as ->.
  { unfold repo_info, getitem in Hi'. rewrite Hu in Hi'. simpl in Hi'.
    subst info. by injection Hi' as <-. }
  eauto using repos_view_same, current_view_same.
Qed.

Lemma issue_repo_info_fields owner repo_name :
  issue_repo_info owner repo_name !! "repository" = None
  ∧ issue_repo_info owner repo_name !! "full_name"
    = Some (JStr (owner +:+ "/" +:+ repo_name))
  ∧ issue_repo_info owner repo_name !! "html_url"
    = Some (JStr ("https://github.com/" +:+ owner +:+ "/" +:+ repo_name))
  ∧ issue_repo_info owner repo_name !! "description" = Some (JStr "").
Proof. split_and!; reflexivity. Qed.

(** The adapters hand the object [extract] reaches to the aggregator;
    the issue adapter skips an item it extracts nothing from. *)
Lemma adapter_item_extract m query flag item self :
  adapter_item m query flag item self
  = (o ←! extract m item;
     match o with
     | Some repo => add_repo repo (adapter_tag m query) flag self
     | None => Ok self
     end).
Proof.
  destruct m as [sort order| |s e|s e]; simpl.
  - unfold search_code_item, _add_repository, select_repo.
    by destruct (item !! "repository") as [[]|].
  - unfold search_commits_item, _add_repository, select_repo.
    destruct (getitem_obj item "repository") as [repository|]; simpl; [|done].
    by destruct (repository !! "repository") as [[]|].
  - unfold search_issues_item.
    destruct (getitem_str item "repository_url") as [repo_url|]; simpl; [|done].
    case_decide; simpl; [|done].
    destruct (index_from_end _ 2) as [owner|]; simpl; [|done].
    destruct (index_from_end _ 1) as [repo_name|]; simpl; [|done].
    unfold _add_repository, select_repo.
    destruct (issue_repo_info_fields owner repo_name) as (-> & _).
    simpl. by destruct (add_repo _ _ _ _).
  - unfold search_repositories_item, _add_repository, select_repo.
    by destruct (item !! "repository") as [[]|].
Qed.

(** The object the issue adapter builds always has a description. *)
Lemma extract_issue_description s e item repo :
  extract (Issue s e) item = Ok (Some repo) →
  repo !! "description" = Some (JStr "").
Proof.
  simpl. destruct (getitem_str item "repository_url") as [repo_url|]; simpl; [|done].
  case_decide; simpl; [|done].
  destruct (index_from_end _ 2) as [owner|]; simpl; [|done].
  destruct (index_from_end _ 1) as [repo_name|]; simpl; [|done].
  intros [= <-]. apply issue_repo_info_fields.
Qed.

(** C8, as amended: for each of the four adapters, when the repository
    object it extracts has no [description] key (and has its name and
    url), the merge does not fail; a record created for a name new to a
    scope gets the description ["No description"], while a record
    already stored under the name keeps the description it has. *)
Theorem missing_description_sentinel m query flag item repo k u ops self :
  run ops init = Ok self →
  extract m item = Ok (Some repo) →
  repo !! "full_name" = Some (JStr k) → repo !! "html_url" = Some u →
  repo !! "description" = None →
  ∃ self' r,
    adapter_item m query flag item self = Ok self'
    ∧ repos_view self' !! k = Some r
    ∧ (repos_view self !! k = None → description r = JStr "No description")
    ∧ (∀ r0, repos_view self !! k = Some r0 → description r = description r0)
    ∧ (flag = true →
       ∃ rb, current_view self' !! k = Some rb
         ∧ (current_view self !! k = None →
            description rb = JStr "No description")
         ∧ (∀ r0, current_view self !! k = Some r0 →
                  description rb = description r0)).
Proof.
  intros Hwf%reachable_wf Hex Hn Hu Hd.
  destruct (add_repo_outcome repo (adapter_tag m query) flag self k u Hwf Hn Hu)
    as (self' & Hadd & Hr & Hc).
  rewrite Hd in Hr, Hc. simpl in Hr, Hc.
  exists self'. eexists. split_and!.
  - by rewrite adapter_item_extract, Hex.
  - exact Hr.
  - by intros ->.
  - intros r0 ->. simpl. by rewrite merge_tag_fields.
  - intros Hflag. eexists. split_and!; [exact (Hc Hflag)|by intros ->|].
    intros r0 ->. simpl. by rewrite merge_tag_fields.
Qed.

Lemma missing_description_sentinel_witness :
  ∃ self' r,
    adapter_item History "x" true (Sample.commit_item Sample.widget_bare)
      (Sample.after [OpAdd Sample.gizmo (commit_tag "x") true]) = Ok self'
    ∧ repos_view self' !! "acme/widget" = Some r
    ∧ description r = JStr "No description".
Proof.
  destruct (missing_description_sentinel History "x" true
    (Sample.commit_item Sample.widget_bare) Sample.widget_bare "acme/widget"
    (JStr "https://github.com/acme/widget")
    [OpAdd Sample.gizmo (commit_tag "x") true]
    (Sample.after [OpAdd Sample.gizmo (commit_tag "x") true])
    ltac:(vm_compute; reflexivity) ltac:(vm_compute; reflexivity)
    ltac:(vm_compute; reflexivity) ltac:(vm_compute; reflexivity)
    ltac:(vm_compute; reflexivity))
    as (self' & r & Hrun & Hr & Hnew & _).
  exists self', r. split_and!; [done..|].
  apply Hnew. vm_compute. reflexivity.
Defined.

(** A record that is already stored keeps its description when an item
    without one is merged under its name. *)
Lemma missing_description_counterexample :
  ∃ self self' r,
    run [OpAdd Sample.widget (description_tag "x" "2024-01-01" "2024-01-31") true]
      init = Ok self
    ∧ extract History (Sample.commit_item Sample.widget_bare)
      = Ok (Some Sample.widget_bare)
    ∧ Sample.widget_bare !! "description" = None
    ∧ adapter_item History "x" true (Sample.commit_item Sample.widget_bare) self
      = Ok self'
    ∧ repos_view self' !! "acme/widget" = Some r
    ∧ description r = JStr "A widget"
    ∧ description r ≠ JStr "No description".
Proof.
  eexists _, _, _. split_and!; try (vm_compute; reflexivity).
  vm_compute. discriminate.
Qed.

(** C10, as amended: for a repository object whose [description] is
    present and null, the dictionary [_add_repository] builds carries
    that null (the sentinel is taken only when the key is absent); both
    variants of [_add_repository] store the null when the name is new to
    the scope, and leave the record as it is described when the name is
    already there; this holds of the global scope and, for a merge with
    batch tracking, of the batch scope. *)
Theorem null_description_stored repo tag flag k u ops self :
  run ops init = Ok self →
  repo !! "full_name" = Some (JStr k) → repo !! "html_url" = Some u →
  repo !! "description" = Some JNull →
  repo_info repo tag = Ok {| url := u; description := JNull; found_by := tag |}
  ∧ (∀ repo' info v, repo_info repo' tag = Ok info →
       repo' !! "description" = Some v → description info = v)
  ∧ (∃ self' r,
       Windsurf._add_repository repo tag flag self = Ok self'
       ∧ repos_view self' !! k = Some r
       ∧ (repos_view self !! k = None → description r = JNull)
       ∧ (∀ r0, repos_view self !! k = Some r0 → description r = description r0)
       ∧ (flag = true →
          ∃ rb, current_view self' !! k = Some rb
            ∧ (current_view self !! k = None → description rb = JNull)
            ∧ (∀ r0, current_view self !! k = Some r0 →
                 description rb = description r0)))
  ∧ (∀ repo_data, select_repo repo_data = Ok repo →
     ∃ self' r,
       _add_repository repo_data tag flag self = Ok self'
       ∧ repos_view self' !! k = Some r
       ∧ (repos_view self !! k = None → description r = JNull)
       ∧ (∀ r0, repos_view self !! k = Some r0 → description r = description r0)
       ∧ (flag = true →
          ∃ rb, current_view self' !! k = Some rb
            ∧ (current_view self !! k = None → description rb = JNull)
            ∧ (∀ r0, current_view self !! k = Some r0 →
                 description rb = description r0))).
Proof.
  intros Hwf%reachable_wf Hn Hu Hd.
  destruct (add_repo_outcome repo tag flag self k u Hwf Hn Hu)
    as (self' & Hadd & Hr & Hc).
  rewrite Hd in Hr, Hc. simpl in Hr, Hc.
  assert (flag = true →
          ∃ rb, current_view self' !! k = Some rb
            ∧ (current_view self !! k = None → description rb = JNull)
            ∧ (∀ r0, current_view self !! k = Some r0 →
                 description rb = description r0)) as Hbatch.
  { intros Hflag. eexists. split_and!; [exact (Hc Hflag)|by intros ->|].
    intros r0 ->. simpl. by rewrite merge_tag_fields. }
  assert (∃ r, repos_view self' !! k = Some r
               ∧ (repos_view self !! k = None → description r = JNull)
               ∧ (∀ r0, repos_view self !! k = Some r0 →
                        description r = description r0)) as (r & Hr' & Hnew & Hold).
  { eexists. split_and!; [exact Hr|by intros ->|].
    intros r0 ->. simpl. by rewrite merge_tag_fields. }
  split_and!.
  - unfold repo_info, getitem. by rewrite Hu, Hd.
  - intros repo' info v Hi Hv. apply repo_info_fields in Hi as (_ & _ & ->).
    by rewrite Hv.
  - by exists self', r.
  - intros repo_data Hsel. exists self', r. split_and!; [|done..].
    unfold _add_repository. by rewrite Hsel.
Qed.

Lemma null_description_stored_witness :
  ∃ self' r,
    Windsurf._add_repository Sample.widget_null (commit_tag "x") true
      (Sample.after [OpAdd Sample.gizmo (commit_tag "x") true]) = Ok self'
    ∧ repos_view self' !! "acme/widget" = Some r
    ∧ description r = JNull.
Proof.
  destruct (null_description_stored Sample.widget_null (commit_tag "x") true
    "acme/widget" (JStr "https://github.com/acme/widget")
    [OpAdd Sample.gizmo (commit_tag "x") true]
    (Sample.after [OpAdd Sample.gizmo (commit_tag "x") true])
    ltac:(vm_compute; reflexivity) ltac:(vm_compute; reflexivity)
    ltac:(vm_compute; reflexivity) ltac:(vm_compute; reflexivity))
    as (_ & _ & (self' & r & Hadd & Hr & Hnew & _) & _).
  exists self', r. split_and!; [done..|].
  apply Hnew. vm_compute. reflexivity.
Defined.

(** A null description is not stored when the name is already known. *)
Lemma null_description_counterexample :
  ∃ self self' r,
    run [OpAdd Sample.widget (description_tag "x" "2024-01-01" "2024-01-31") true]
      init = Ok self
    ∧ Sample.widget_null !! "description" = Some JNull
    ∧ _add_repository Sample.widget_null (commit_tag "x") true self = Ok self'
    ∧ repos_view self' !! "acme/widget" = Some r
    ∧ description r = JStr "A widget"
    ∧ description r ≠ JNull.
Proof.
  eexists _, _, _. split_and!; try (vm_compute; reflexivity).
  vm_compute. discriminate.
Qed.

End description_facts.

Section driver_facts.
Import PyStr PyStrFacts.

(** ** The tags of [main] *)

Lemma plainb_plain (tag : string) : plainb tag = true → plain tag.
Proof.
  unfold plainb, plain, free_of. intros [H1 H2]%andb_true_iff.
  apply negb_true_iff in H1, H2. done.
Qed.

Lemma independentb_independent (tags : list string) :
  independentb tags = true → independent tags.
Proof.
  unfold independentb. rewrite forallb_forall. intros H t t' Ht Ht' Hc.
  apply list_elem_of_In in Ht, Ht'.
  specialize (H t Ht). rewrite forallb_forall in H. specialize (H t' Ht').
  rewrite Hc in H. simpl in H. by apply bool_decide_eq_true in H.
Qed.

Lemma Forall_plainb (tags : list string) :
  forallb plainb tags = true → Forall plain tags.
Proof.
  rewrite forallb_forall. intros H. apply Forall_forall. intros t Ht.
  apply plainb_plain, H. by apply list_elem_of_In.
Qed.

Example main_tags_length : length main_tags = 405%nat.
Proof. reflexivity. Qed.

(** The tags of [main] are plain, and none occurs inside another one. *)
Lemma main_tags_plain : Forall plain main_tags.
Proof. apply Forall_plainb. vm_compute. reflexivity. Qed.

Lemma main_tags_independent : independent main_tags.
Proof. apply independentb_independent. vm_compute. reflexivity. Qed.

Lemma tags_for_tags_of k ops t : t ∈ tags_for k ops → t ∈ tags_of ops.
Proof.
  induction ops as [|o ops IH]; [done|].
  rewrite tags_for_cons, tags_of_cons. destruct o as [d tag flag|]; [|done].
  case_decide.
  - intros [->|?]%elem_of_cons; apply elem_of_cons; auto.
  - intros ?. apply elem_of_cons. auto.
Qed.

Lemma independent_subseteq (T T' : list string) :
  T ⊆ T' → independent T' → independent T.
Proof. intros Hsub Hind t t' Ht Ht'. apply Hind; auto. Qed.

Lemma Forall_plain_subseteq (T T' : list string) :
  T ⊆ T' → Forall plain T' → Forall plain T.
Proof.
  rewrite !Forall_forall. intros Hsub Hall t Ht. auto.
Qed.

(** In a run that files under the tags of [main], the provenance of a
    name in the global scope is the set of the tags applied to it, and
    the batch provenance is a subset of the global one. *)
Lemma main_provenance ops s k :
  run ops init = Ok s → tags_of ops ⊆ main_tags →
  (∀ r, repos_view s !! k = Some r →
        ∀ t, t ∈ provenance r ↔ t ∈ tags_for k ops)
  ∧ (∀ rb, current_view s !! k = Some rb →
           ∃ rg, repos_view s !! k = Some rg
                 ∧ provenance rb ⊆ provenance rg).
Proof.
  intros Hrun Hsub.
  assert (tags_for k ops ⊆ main_tags) as Hsub'
    by (intros t Ht; by apply Hsub, (tags_for_tags_of k)).
  split.
  - intros r Hr t.
    pose proof (run_found_by ops init s k wf_init Hrun) as Hfb.
    rewrite Hr in Hfb. simpl in Hfb. symmetry in Hfb.
    eapply joined_union; [| |exact Hfb].
    + eapply Forall_plain_subseteq; [done|apply main_tags_plain].
    + eapply independent_subseteq; [done|apply main_tags_independent].
  - intros rb Hb.
    destruct (run_batch_within_global ops init s wf_init
                batch_within_global_init Hrun k rb Hb) as (rg & Hg & Hin).
    exists rg. split; [done|]. intros t Ht.
    assert (listed_in main_tags s) as Hl.
    { apply (run_listed_in _ ops init s wf_init (listed_in_init _)); [|done].
      intros u Hu. split; [by apply Hsub|].
      pose proof main_tags_plain as Hp. rewrite Forall_forall in Hp.
      by apply Hp, Hsub. }
    apply (contained_listed main_tags s k rg t Hl main_tags_plain
             main_tags_independent Hg);
      [exact (Hl k rb (or_intror Hb) t Ht)|by apply Hin].
Qed.

End driver_facts.

Section adapter_facts.
Import PyStr PyStrFacts.

(** ** The adapters as runs *)

Lemma adapter_item_exec m query flag item self self' :
  adapter_item m query flag item self = Ok self' →
  self' = self
  ∨ ∃ d, exec (OpAdd d (adapter_tag m query) flag) self = Ok self'.
Proof.
  destruct m as [sort order| |s e|s e]; simpl.
  - intros H. right. by exists item.
  - unfold search_commits_item.
    destruct (getitem_obj item "repository") as [d|]; simpl; [|done].
    intros H. right. by exists d.
  - unfold search_issues_item.
    destruct (getitem_str item "repository_url") as [repo_url|]; simpl; [|done].
    case_decide; simpl; [|intros [= <-]; by left].
    destruct (index_from_end _ 2) as [owner|]; simpl; [|done].
    destruct (index_from_end _ 1) as [repo_name|]; simpl; [|done].
    destruct (_add_repository _ _ _ _) as [s1|] eqn:E; simpl; [|done].
    intros [= <-]. right. by eexists.
  - intros H. right. by exists item.
Qed.

(** Feeding the items of a query through an adapter is a run of the
    aggregator, all under the tag of that query. *)
Lemma for_items_run m query flag items self self' :
  for_items (adapter_item m query flag) items self = Ok self' →
  ∃ ops, run ops self = Ok self'
         ∧ Forall (λ t, t = adapter_tag m query) (tags_of ops).
Proof.
  revert self. induction items as [|item items IH]; intros self; simpl.
  - intros [= <-]. by exists [].
  - destruct (adapter_item m query flag item self) as [s1|] eqn:E; simpl; [|done].
    intros (ops & Hrun & Htags)%IH.
    apply adapter_item_exec in E as [->|[d Hd]].
    + by exists ops.
    + exists (OpAdd d (adapter_tag m query) flag :: ops). split.
      * simpl in *. by rewrite Hd.
      * rewrite tags_of_cons. by constructor.
Qed.

(** Two queries: a code search finds [acme/widget] and [acme/gizmo],
    then a commit search finds [acme/widget] again. *)
Example two_queries :
  ∃ s1 s2,
    for_items (adapter_item (Content "indexed" "desc") "X" true)
      [Sample.code_item Sample.widget; Sample.code_item Sample.gizmo] init
    = Ok s1
    ∧ for_items (adapter_item History "X" true)
        [Sample.commit_item Sample.widget] s1 = Ok s2
    ∧ size (repos_view s2) = 2%nat
    ∧ provenance <$> repos_view s2 !! "acme/widget"
      = Some ["code_search: X (indexed desc)"; "commit_search: X"]
    ∧ provenance <$> repos_view s2 !! "acme/gizmo"
      = Some ["code_search: X (indexed desc)"].
Proof. eexists _, _. split_and!; vm_compute; reflexivity. Qed.

Example contains_inside : contains "b" "abc" = true.
Proof. reflexivity. Qed.

Example contains_scattered : contains "ac" "abc" = false.
Proof. reflexivity. Qed.

Example split_comma_pieces_of : split_comma "a, b,c, " = ["a"; "b,c"; ""].
Proof. reflexivity. Qed.

Example split_api_url :
  split "/" "https://api.github.com/repos/acme/widget"
  = ["https:"; ""; "api.github.com"; "repos"; "acme"; "widget"].
Proof. reflexivity. Qed.

End adapter_facts.

(** ** The request executor *)

Lemma pages_fetched_get e st :
  pages_fetched (get e st) = S (pages_fetched st).
Proof.
  unfold pages_fetched, get. simpl. rewrite filter_app, length_app. simpl. lia.
Qed.

Lemma pages_fetched_sleep w st : pages_fetched (sleep w st) = pages_fetched st.
Proof.
  unfold pages_fetched, sleep. simpl. rewrite filter_app, length_app. simpl. lia.
Qed.

(** Every pass starts with a request for the current page. *)
Lemma iteration_events limit ep st :
  ∃ tail, events (iteration limit ep st).1 = events st ++ Get (page st) :: tail.
Proof.
  unfold iteration.
  destruct (ep (clock st) (page st)) as [elapsed [h data|code h|]].
  - destruct (_check_rate_limit h (clock (get elapsed st))) as [w|].
    + exists [Sleep w]. simpl. by rewrite <-app_assoc.
    + destruct (items data) as [|i rest]; [by exists []|].
      case_decide; [by exists []|].
      exists [Sleep 1]. simpl. by rewrite <-app_assoc.
  - case_decide; [|by exists []].
    eexists [Sleep _]. simpl. by rewrite <-app_assoc.
  - by exists [].
Qed.

(** C6: whenever the remaining quota of a response reads at most 1, on
    a delivered response or on a 403 error, the executor sleeps exactly
    [max(reset - now, 0) + 10] seconds, [now] being the clock when the
    response is in; it keeps the page number and what it has
    accumulated, goes on with the loop instead of leaving it, and the
    next thing it does is to request the same page again. *)
Theorem rate_limit_stall limit ep st h :
  quota_exhausted (ep (clock st) (page st)).2 h →
  let now := clock st + (ep (clock st) (page st)).1 in
  let wait := Z.max (default 0 (x_ratelimit_reset h) - now) 0 + 10 in
  let st' := {| all_items := all_items st; seen_total := seen_total st;
                page := page st; clock := now + wait;
                events := events st ++ [Get (page st); Sleep wait] |} in
  iteration limit ep st = (st', true)
  ∧ (∀ fuel, loop (S fuel) limit ep st = loop fuel limit ep st')
  ∧ ∃ tail,
      events (iteration limit ep st').1
      = events st ++ [Get (page st); Sleep wait; Get (page st)] ++ tail.
Proof.
  intros [Hresp Hquota] now wait st'.
  assert (iteration limit ep st = (st', true)) as Hit.
  { unfold iteration. subst st' wait now.
    destruct (ep (clock st) (page st)) as [elapsed resp]. simpl in *.
    destruct Hresp as [[data ->]| ->].
    - unfold _check_rate_limit. rewrite decide_True by done.
      unfold sleep, get, wait_time, safety_margin. simpl.
      by rewrite <-app_assoc.
    - rewrite decide_True by done.
      unfold sleep, get, wait_time, safety_margin. simpl.
      by rewrite <-app_assoc. }
  split_and!; [done| |].
  - intros fuel. simpl. by rewrite Hit.
  - destruct (iteration_events limit ep st') as [tail ->].
    exists tail. simpl. by rewrite <-app_assoc.
Qed.

Lemma rate_limit_stall_witness :
  let ep : endpoint := λ now _,
    if decide (now < 5)
    then (2, Success {| x_ratelimit_remaining := Some 0;
                        x_ratelimit_reset := Some 5 |}
                     {| total_count := 1; items := numbered 1 |})
    else (2, Success {| x_ratelimit_remaining := Some 29;
                        x_ratelimit_reset := Some 65 |}
                     {| total_count := 1; items := numbered 1 |}) in
  iteration max_results ep (start 0)
  = ({| all_items := []; seen_total := 0; page := 1; clock := 15;
        events := [Get 1; Sleep 13] |}, true)
  ∧ (events <$> _make_request 2 ep 0) = Some [Get 1; Sleep 13; Get 1].
Proof.
  intros ep. split; [|vm_compute; reflexivity].
  refine (proj1 (rate_limit_stall max_results ep (start 0)
    {| x_ratelimit_remaining := Some 0; x_ratelimit_reset := Some 5 |} _)).
  split; [left; eexists; reflexivity | simpl; lia].
Defined.

(** Pagination against a mocked endpoint. *)

Lemma ceil_div_lt (M P j : nat) :
  (1 ≤ P)%nat → (j < ceil_div M P)%nat ↔ (j * P < M)%nat.
Proof.
  intros HP. unfold ceil_div. split.
  - intros Hj. destruct (decide (j * P < M)%nat) as [|Hge]; [done|].
    assert ((M + P - 1) / P < S j)%nat; [|lia].
    apply Nat.Div0.div_lt_upper_bound. lia.
  - intros Hj. assert (S j ≤ (M + P - 1) / P)%nat; [|lia].
    apply Nat.div_le_lower_bound; lia.
Qed.

Lemma ceil_div_positive (M P : nat) :
  (1 ≤ P)%nat → (1 ≤ M)%nat → (1 ≤ ceil_div M P)%nat.
Proof.
  intros HP HM. assert (0 < ceil_div M P)%nat; [|lia].
  apply ceil_div_lt; [done|]. lia.
Qed.

(** Pagination against an endpoint that lists a corpus. *)

Lemma mock_endpoint_lists T P quota corpus :
  1 < quota → lists T P corpus (mock_endpoint T P quota corpus).
Proof. intros Hq now page. eexists _, _. by split_and!. Qed.

Section listing.
Context (T : Z) (P : nat) (corpus : list (gmap string json)).
Context (limit : Z) (ep : endpoint).
Hypothesis Hep : lists T P corpus ep.
Hypothesis Hlen : Z.min T limit ≤ Z.of_nat (length corpus).
Hypothesis HP : (1 ≤ P)%nat.

Local Abbreviation n := (ceil_div (Z.to_nat (Z.min T limit)) P).

Lemma listing_pass (st : loop_state) (j : nat) :
  page st = S j → all_items st = take (j * P) corpus →
  (j = 0%nat ∨ seen_total st = T) → (j < n)%nat →
  all_items (iteration limit ep st).1 = take (S j * P) corpus
  ∧ seen_total (iteration limit ep st).1 = T
  ∧ pages_fetched (iteration limit ep st).1 = S (pages_fetched st)
  ∧ (iteration limit ep st).2 = negb (bool_decide (S j = n))
  ∧ ((iteration limit ep st).2 = true
     → page (iteration limit ep st).1 = S (S j)).
Proof.
  intros Hpage Hall Htotal Hj.
  apply ceil_div_lt in Hj as HjM; [|done].
  destruct (Hep (clock st) (page st)) as (h & total & Hresp & Hquota & Hfirst).
  unfold iteration.
  destruct (ep (clock st) (page st)) as [elapsed resp]. simpl in Hresp.
  subst resp. unfold _check_rate_limit. rewrite decide_False by lia.
  rewrite Hpage in *. simpl. rewrite Nat.sub_0_r.
  assert ((if decide (S j = 1%nat) then total else seen_total st) = T) as ->.
  { case_decide as Hj1; [by apply Hfirst|]. destruct Htotal; [lia|done]. }
  assert (all_items st ++ take P (drop (j * P) corpus)
          = take (S j * P) corpus) as Happ.
  { rewrite Hall, take_take_drop. f_equal. lia. }
  destruct (take P (drop (j * P) corpus)) as [|i rest] eqn:Hitems.
  { apply (f_equal length) in Hitems.
    rewrite length_take, length_drop in Hitems. simpl in Hitems. lia. }
  rewrite Happ.
  assert (length (take (S j * P) corpus) = Nat.min (S j * P) (length corpus))
    as Hlall by apply length_take.
  destruct (decide (S j = n)) as [Hn|Hn].
  - assert (¬ (S j < n)%nat) as Hnlt by lia.
    rewrite ceil_div_lt in Hnlt by done.
    rewrite decide_True by lia. simpl.
    rewrite bool_decide_eq_true_2 by done.
    split_and!; [done|done| |done|done].
    unfold pages_fetched. simpl. rewrite filter_app, length_app. simpl. lia.
  - assert (S j < n)%nat as Hlt by lia.
    rewrite ceil_div_lt in Hlt by done.
    rewrite decide_False by lia. simpl.
    rewrite bool_decide_eq_false_2 by done.
    split_and!; [done|done| |done|intros _; by rewrite Hpage].
    unfold pages_fetched. simpl. rewrite !filter_app, !length_app. simpl. lia.
Qed.

Lemma listing_loop (d : nat) :
  ∀ (j fuel : nat) (st : loop_state),
    (j + d + 1 = n)%nat → (d + 1 ≤ fuel)%nat →
    page st = S j → all_items st = take (j * P) corpus →
    (j = 0%nat ∨ seen_total st = T) →
    ∃ st', loop fuel limit ep st = Some st'
           ∧ all_items st' = take (n * P) corpus
           ∧ seen_total st' = T
           ∧ pages_fetched st' = (pages_fetched st + d + 1)%nat.
Proof.
  induction d as [|d IH]; intros j fuel st Hn Hfuel Hpage Hall Htotal;
    (destruct fuel as [|fuel]; [lia|]); simpl;
    destruct (listing_pass st j) as (Hitems & Htot & Hpages & Hc & Hnext);
    [done|done|done|lia| |done|done|done|lia|];
    destruct (iteration limit ep st) as [st1 c]; simpl in *; subst c.
  - rewrite bool_decide_eq_true_2 by lia. simpl.
    exists st1. split_and!; [done| |done|lia].
    rewrite Hitems. f_equal. f_equal. lia.
  - rewrite bool_decide_eq_false_2 by lia. simpl.
    rewrite bool_decide_eq_false_2 in Hnext by lia.
    destruct (IH (S j) fuel st1) as (st' & Hloop & Hi & Ht & Hp);
      [lia|lia|by apply Hnext|done|by right|].
    exists st'. split_and!; [done..|]. lia.
Qed.

Lemma listing_request (fuel : nat) (now : Z) :
  1 ≤ T → 1 ≤ limit → (n ≤ fuel)%nat →
  ∃ st, loop fuel limit ep (start now) = Some st
        ∧ pages_fetched st = n
        ∧ seen_total st = T
        ∧ all_items st = take (n * P) corpus.
Proof.
  intros HT Hlimit Hfuel.
  assert (1 ≤ n)%nat as Hn by (apply ceil_div_positive; lia).
  destruct (listing_loop (n - 1) 0 fuel (start now)) as (st & ? & ? & ? & Hp);
    [lia|lia|done|done|by left|].
  exists st. split_and!; [done| |done..].
  rewrite Hp. unfold pages_fetched. simpl. lia.
Qed.
End listing.

Lemma drifting_lists : lists 5 2 (numbered 5) SampleServer.drifting.
Proof.
  intros now page. eexists _, _. split_and!; [reflexivity|done|].
  by intros ->.
Qed.


Lemma length_numbered (n : nat) : length (numbered n) = n.
Proof. unfold numbered. by rewrite length_fmap, length_seq. Qed.



Section issue_facts.
Import PyStr PyStrFacts.

(** ** The issue adapter *)

Lemma last_two (parts : list string) :
  (2 ≤ length parts)%nat → ∃ pre x y, parts = pre ++ [x; y].
Proof.
  intros Hlen.
  destruct (lookup_lt_is_Some_2 parts (length parts - 2)) as [x Hx]; [lia|].
  destruct (lookup_lt_is_Some_2 parts (length parts - 1)) as [y Hy]; [lia|].
  exists (take (length parts - 2) parts), x, y.
  rewrite <-(take_drop (length parts - 2) parts) at 1. f_equal.
  apply list_eq. intros i. rewrite lookup_drop.
  destruct i as [|[|i]]; simpl.
  - by rewrite Nat.add_0_r.
  - rewrite <-Hy. f_equal. lia.
  - apply lookup_ge_None. lia.
Qed.

Lemma index_from_end_last_two (pre : list string) (x y : string) :
  index_from_end (pre ++ [x; y]) 2 = Ok x
  ∧ index_from_end (pre ++ [x; y]) 1 = Ok y.
Proof.
  unfold index_from_end. rewrite !length_app. simpl.
  rewrite !decide_True by lia. split.
  - rewrite lookup_app_r by lia.
    by replace (length pre + 2 - 2 - length pre)%nat with 0%nat by lia.
  - rewrite lookup_app_r by lia.
    by replace (length pre + 2 - 1 - length pre)%nat with 1%nat by lia.
Qed.

Lemma add_repo_binds repo tag flag self self' k :
  add_repo repo tag flag self = Ok self' →
  repo !! "full_name" = Some (JStr k) →
  is_Some (repos self' !! k).
Proof.
  intros (k' & info & Hk & _ & _ & -> & _)%add_repo_eq Hn.
  assert (k' = k) as -> by congruence.
  rewrite bind_loc_lookup. case_decide as H; [done|].
  destruct (repos self !! k) eqn:E; [done|]. by destruct H.
Qed.

(** C7: an issue search item whose repository URL splits on ["/"] into
    fewer than 5 pieces is skipped with a warning: nothing is merged and
    nothing is raised.  With at least 5 pieces the adapter merges an
    object whose name is the last two pieces joined by ["/"] and whose
    url is [https://github.com/] followed by that name.  The pieces are
    the segments of the URL: a URL joined from slash-free segments
    splits into exactly these. *)
Theorem issue_url_tolerance query s e flag item repo_url self out :
  item !! "repository_url" = Some (JStr repo_url) →
  let parts := split "/" repo_url in
  ((length parts < 5)%nat →
   search_issues_item query s e flag item (self, out)
   = Ok (self,
         out ++ ["Warning: Invalid repository URL format: " +:+ repo_url]))
  ∧ ((5 ≤ length parts)%nat →
     ∃ pre owner name self',
       parts = pre ++ [owner; name]
       ∧ identity (issue_repo_info owner name) = Some (owner +:+ "/" +:+ name)
       ∧ issue_repo_info owner name !! "html_url"
         = Some (JStr ("https://github.com/" +:+ owner +:+ "/" +:+ name))
       ∧ _add_repository (issue_repo_info owner name) (issue_tag query s e)
           flag self = Ok self'
       ∧ is_Some (repos self' !! (owner +:+ "/" +:+ name))
       ∧ search_issues_item query s e flag item (self, out) = Ok (self', out))
  ∧ (∀ segments, segments ≠ [] → Forall (free_of "/") segments →
       repo_url = join "/" segments → parts = segments).
Proof.
  intros Hurl parts. unfold search_issues_item, getitem_str, getitem.
  rewrite Hurl. simpl. fold parts. split_and!.
  - intros Hshort. by rewrite decide_False by lia.
  - intros Hlong. rewrite decide_True by done.
    destruct (last_two parts) as (pre & owner & name & Hparts); [lia|].
    destruct (issue_repo_info_fields owner name) as (Hrepo & Hname & Hhtml & _).
    destruct (add_repo_ok (issue_repo_info owner name) (issue_tag query s e)
                flag self _ _ Hname Hhtml) as [self' Hadd].
    assert (_add_repository (issue_repo_info owner name) (issue_tag query s e)
              flag self = Ok self') as Hadd'.
    { unfold _add_repository, select_repo. by rewrite Hrepo. }
    exists pre, owner, name, self'. split_and!; [done| |done|done| |].
    + unfold identity, select_repo. by rewrite Hrepo, Hname.
    + by eapply add_repo_binds.
    + rewrite Hparts. destruct (index_from_end_last_two pre owner name) as [-> ->].
      simpl. by rewrite Hadd'.
  - intros segments Hne Hfree ->. by apply split_join.
Qed.

Lemma issue_url_tolerance_witness :
  search_issues_item "x" "2024-02-01" "2024-02-29" true
    (Sample.issue_item "repos/acme/widget") (init, [])
  = Ok (init, ["Warning: Invalid repository URL format: repos/acme/widget"])
  ∧ ∃ self',
      search_issues_item "x" "2024-02-01" "2024-02-29" true
        (Sample.issue_item "https://api.github.com/repos/acme/widget") (init, [])
      = Ok (self', [])
      ∧ repos_view self' !! "acme/widget"
        = Some {| url := JStr "https://github.com/acme/widget";
                  description := JStr "";
                  found_by := "issue_search: x (2024-02-01 to 2024-02-29)" |}.
Proof.
  split.
  - refine (proj1 (issue_url_tolerance "x" "2024-02-01" "2024-02-29" true
      (Sample.issue_item "repos/acme/widget") "repos/acme/widget" init []
      ltac:(vm_compute; reflexivity)) _).
    vm_compute. lia.
  - eexists. split; vm_compute; reflexivity.
Defined.

End issue_facts.

(** ** The time windows *)

Section window_facts.
Import Date.

Lemma contiguous_cons (s e : Z) (l : list (Z * Z)) :
  contiguous ((s, e) :: l) = true ↔
  s ≤ e ∧ match l with [] => True | (s', _) :: _ => s' = e + 1 end
  ∧ contiguous l = true.
Proof.
  simpl. rewrite !andb_true_iff, bool_decide_eq_true.
  destruct l as [|[s' e'] l]; [intuition|].
  rewrite bool_decide_eq_true. intuition.
Qed.

Lemma contiguous_nonempty (l : list (Z * Z)) (a : Z * Z) :
  contiguous l = true → a ∈ l → a.1 ≤ a.2.
Proof.
  induction l as [|[s e] l IH]; [by inversion 2|].
  intros (Hse & _ & Hl)%contiguous_cons [->|Ha]%elem_of_cons; auto.
Qed.

(** All later windows start after the end of the first one. *)
Lemma contiguous_after (s e : Z) (l : list (Z * Z)) (b : Z * Z) :
  contiguous ((s, e) :: l) = true → b ∈ l → e < b.1.
Proof.
  revert s e. induction l as [|[s' e'] l IH]; intros s e; [by inversion 2|].
  intros (Hse & -> & Hl)%contiguous_cons [->|Hb]%elem_of_cons; simpl; [lia|].
  pose proof (IH _ _ Hl Hb). apply contiguous_cons in Hl as (? & _). lia.
Qed.

Lemma contiguous_ordered (l : list (Z * Z)) (i j : nat) (a b : Z * Z) :
  contiguous l = true → l !! i = Some a → l !! j = Some b → (i < j)%nat →
  a.2 < b.1.
Proof.
  revert i j. induction l as [|[s e] l IH]; intros i j Hl Ha Hb Hij; [done|].
  destruct i as [|i], j as [|j]; try lia; simpl in Ha, Hb.
  - injection Ha as <-. simpl.
    eapply contiguous_after; [done|]. by eapply list_elem_of_lookup_2.
  - apply contiguous_cons in Hl as (_ & _ & Hl). eapply IH; eauto. lia.
Qed.

Lemma last_cons_default {A} (x : A) (l : list A) (d d' : A) :
  List.last (x :: l) d = List.last (x :: l) d'.
Proof.
  revert x. induction l as [|y l IH]; intros x; [done|].
  change (List.last (y :: l) d = List.last (y :: l) d'). apply IH.
Qed.

(** The windows cover the days from the first start to the last end. *)
Lemma contiguous_covers (s e : Z) (l : list (Z * Z)) (d : Z) :
  contiguous ((s, e) :: l) = true →
  s ≤ d ≤ (List.last ((s, e) :: l) (s, e)).2
  ↔ ∃ a, a ∈ (s, e) :: l ∧ covers a d.
Proof.
  revert s e d. induction l as [|[s' e'] l IH]; intros s e d Hl.
  - simpl. split.
    + intros Hd. exists (s, e). split; [by apply elem_of_cons; left|done].
    + intros (a & ->%list_elem_of_singleton & Ha). done.
  - apply contiguous_cons in Hl as (Hse & -> & Hl).
    change (List.last ((s, e) :: (e + 1, e') :: l) (s, e))
      with (List.last ((e + 1, e') :: l) (s, e)).
    rewrite (last_cons_default _ _ (s, e) (e + 1, e')).
    assert (e + 1 ≤ (List.last ((e + 1, e') :: l) (e + 1, e')).2) as Hlast.
    { apply (IH _ _ (e + 1) Hl). exists (e + 1, e').
      split; [by apply elem_of_cons; left|].
      apply contiguous_cons in Hl as (? & _). unfold covers. simpl. lia. }
    specialize (IH _ _ d Hl).
    split.
    + intros Hd. destruct (decide (d ≤ e)) as [Hde|Hde].
      * exists (s, e). split; [by apply elem_of_cons; left|]. unfold covers. simpl. lia.
      * destruct (proj1 IH) as (a & Ha & Hcov); [lia|].
        exists a. split; [by apply elem_of_cons; right|done].
    + intros (a & [->|Ha]%elem_of_cons & Hcov).
      * unfold covers in Hcov. simpl in Hcov. lia.
      * assert (e + 1 ≤ d ≤ (List.last ((e + 1, e') :: l) (e + 1, e')).2)
          by (apply IH; eauto). lia.
Qed.

Lemma contiguous_partitions ws first last ivs lo hi :
  intervals ws = Some ivs → day first = Some lo → day last = Some hi →
  contiguous ivs = true →
  head ivs.*1 = Some lo → (List.last ivs (lo, hi)).2 = hi →
  partitions ws first last.
Proof.
  intros Hiv Hlo Hhi Hc Hhd Hlast.
  exists ivs, lo, hi. split_and!; [done..| | |].
  - intros a. by apply contiguous_nonempty.
  - intros i j a b. by apply contiguous_ordered.
  - destruct ivs as [|[s e] l]; [done|]. simpl in Hhd. injection Hhd as ->.
    intros d. rewrite <-(contiguous_covers lo e l d Hc).
    by rewrite (last_cons_default _ _ (lo, e) (lo, hi)), Hlast.
Qed.

Lemma partitions_by_computation ws first last ivs lo hi :
  intervals ws = Some ivs → day first = Some lo → day last = Some hi →
  contiguous ivs = true ∧ head ivs.*1 = Some lo
  ∧ (List.last ivs (lo, hi)).2 = hi →
  partitions ws first last.
Proof. intros ? ? ? (? & ? & ?). by eapply contiguous_partitions. Qed.

(** C9: the literal windows of the issue search and of the description
    searches are in chronological order, pairwise disjoint, and cover
    their overall range (2023-07-01 to 2025-04-30 for firebase,
    2024-11-01 to 2025-04-30 for windsurf, 2024-07-01 to 2025-06-30 for
    trae) day by day without a gap; the firebase and windsurf windows
    are whole or half months ending on the true last day of the month,
    among them February 2024 ending on the 29th, the day before
    2024-03-01. *)
Theorem time_windows_partition :
  partitions search_issues_time_ranges "2023-07-01" "2025-04-30"
  ∧ partitions search_repositories_time_ranges "2023-07-01" "2025-04-30"
  ∧ partitions Windsurf.search_repositories_time_ranges
      "2024-11-01" "2025-04-30"
  ∧ partitions Trae.search_issues_time_ranges "2024-07-01" "2025-06-30"
  ∧ Forall (λ w, month_aligned w = true) search_issues_time_ranges
  ∧ Forall (λ w, month_aligned w = true)
      Windsurf.search_repositories_time_ranges
  ∧ ("2024-02-01", "2024-02-29") ∈ search_issues_time_ranges
  ∧ days_in_month 2024 2 = 29
  ∧ day "2024-02-30" = None
  ∧ (∃ d, day "2024-02-29" = Some d ∧ day "2024-03-01" = Some (d + 1)).
Proof.
  split_and!.
  - eapply partitions_by_computation; try (vm_compute; reflexivity).
    split_and!; vm_compute; reflexivity.
  - eapply partitions_by_computation; try (vm_compute; reflexivity).
    split_and!; vm_compute; reflexivity.
  - eapply partitions_by_computation; try (vm_compute; reflexivity).
    split_and!; vm_compute; reflexivity.
  - eapply partitions_by_computation; try (vm_compute; reflexivity).
    split_and!; vm_compute; reflexivity.
  - apply Forall_forall. intros w Hw.
    repeat (apply elem_of_cons in Hw as [->|Hw]; [vm_compute; reflexivity|]).
    by inversion Hw.
  - apply Forall_forall. intros w Hw.
    repeat (apply elem_of_cons in Hw as [->|Hw]; [vm_compute; reflexivity|]).
    by inversion Hw.
  - unfold search_issues_time_ranges, firebase_time_ranges.
    do 7 (apply elem_of_cons; right). apply elem_of_cons. by left.
  - reflexivity.
  - reflexivity.
  - eexists. split; vm_compute; reflexivity.
Qed.
End window_facts.

Example windows_days :
  Date.intervals Trae.search_issues_time_ranges
  = Some [(739068, 739251); (739252, 739432)].
Proof. vm_compute. reflexivity. Qed.

(** What one pass through the loop does to the events and the page. *)
Lemma iteration_shape limit ep st :
  let '(st', continue) := iteration limit ep st in
  if continue
  then ∃ w, 1 ≤ w ∧ events st' = events st ++ [Get (page st); Sleep w]
            ∧ (page st' = page st ∨ page st' = S (page st))
  else events st' = events st ++ [Get (page st)].
Proof.
  unfold iteration.
  destruct (ep (clock st) (page st)) as [elapsed [h data|code h|]].
  - unfold _check_rate_limit, wait_time, safety_margin. case_decide.
    + eexists. split_and!; [|simpl; by rewrite <-app_assoc|by left]. lia.
    + destruct (items data) as [|i rest]; [done|].
      case_decide; [done|].
      exists 1. split_and!; [lia|simpl; by rewrite <-app_assoc|by right].
  - case_decide; [|done]. unfold wait_time, safety_margin.
    eexists. split_and!; [|simpl; by rewrite <-app_assoc|by left]. lia.
  - done.
Qed.

Lemma orderly_step p w rest :
  1 ≤ w → orderly p rest = true ∨ orderly (S p) rest = true →
  orderly p (Get p :: Sleep w :: rest) = true.
Proof.
  intros Hw Hrest. simpl.
  rewrite !bool_decide_eq_true_2 by done. simpl.
  destruct Hrest as [->| ->]; [done|]. by rewrite orb_true_r.
Qed.

Lemma loop_orderly fuel limit ep :
  ∀ st st', loop fuel limit ep st = Some st' →
    ∃ tail, events st' = events st ++ tail ∧ orderly (page st) tail = true.
Proof.
  induction fuel as [|fuel IH]; intros st st' Hloop; [done|].
  simpl in Hloop. pose proof (iteration_shape limit ep st) as Hshape.
  destruct (iteration limit ep st) as [st1 [|]].
  - destruct Hshape as (w & Hw & Hev & Hpage).
    destruct (IH _ _ Hloop) as (tail & Htail & Hord).
    exists (Get (page st) :: Sleep w :: tail). split.
    + rewrite Htail, Hev, <-app_assoc. done.
    + apply orderly_step; [done|]. destruct Hpage as [<-| <-]; auto.
  - injection Hloop as <-. exists [Get (page st)]. split; [done|].
    simpl. by rewrite bool_decide_eq_true_2.
Qed.

(** X1: in a finished call of the request executor the requests
    alternate with sleeps of at least one second: no request follows
    another without a pause, the call ends with a request, the first
    request asks for page 1 and each later one for the page of the
    request before it or for the next page. *)
Theorem requests_paced fuel ep now st :
  _make_request fuel ep now = Some st →
  orderly 1 (events st) = true.
Proof.
  intros Hreq. apply loop_orderly in Hreq as (tail & -> & Hord). done.
Qed.

Lemma requests_paced_witness :
  ∃ st, _make_request 3 SampleServer.throttled 0 = Some st
        ∧ events st = [Get 1; Sleep 13; Get 1; Sleep 1; Get 2]
        ∧ orderly 1 (events st) = true.
Proof.
  eexists. split; [vm_compute; reflexivity|]. split; [reflexivity|].
  apply (requests_paced 3 SampleServer.throttled 0).
  vm_compute. reflexivity.
Defined.

(** The next pass is entered with fewer items than the limit. *)
Lemma iteration_bound (P : nat) limit ep st :
  (∀ now page h data,
     (ep now page).2 = Success h data → (length (items data) ≤ P)%nat) →
  Z.of_nat (length (all_items st)) < limit →
  let '(st', continue) := iteration limit ep st in
  if continue then Z.of_nat (length (all_items st')) < limit
  else Z.of_nat (length (all_items st')) < limit + Z.of_nat P.
Proof.
  intros Hpage Hlen. unfold iteration.
  specialize (Hpage (clock st) (page st)).
  destruct (ep (clock st) (page st)) as [elapsed [h data|code h|]]; simpl in *.
  - specialize (Hpage _ _ eq_refl).
    destruct (_check_rate_limit _ _); [done|].
    destruct (items data) as [|i rest] eqn:Hitems; [simpl; lia|].
    case_decide; simpl in *; rewrite ?length_app in *; simpl in *; lia.
  - case_decide; simpl; lia.
  - lia.
Qed.

Lemma loop_bound (P : nat) fuel limit ep :
  (∀ now page h data,
     (ep now page).2 = Success h data → (length (items data) ≤ P)%nat) →
  ∀ st st', Z.of_nat (length (all_items st)) < limit →
    loop fuel limit ep st = Some st' →
    Z.of_nat (length (all_items st')) < limit + Z.of_nat P.
Proof.
  intros Hpage. induction fuel as [|fuel IH]; intros st st' Hlen Hloop; [done|].
  simpl in Hloop. pose proof (iteration_bound P limit ep st Hpage Hlen) as Hb.
  destruct (iteration limit ep st) as [st1 [|]].
  - by eapply IH.
  - by injection Hloop as <-.
Qed.

(** X2: whatever the server answers, if no delivered page holds more
    than [P] items, a finished call returns fewer than
    [max_results + P] items (at most 1099 with pages of 100): only the
    last page can take the result beyond the limit of 1000. *)
Theorem result_below_limit_plus_page (P : nat) fuel ep now st :
  (∀ now page h data,
     (ep now page).2 = Success h data → (length (items data) ≤ P)%nat) →
  _make_request fuel ep now = Some st →
  Z.of_nat (length (all_items st)) < max_results + Z.of_nat P.
Proof.
  intros Hpage Hreq. eapply loop_bound; [done| |done]. done.
Qed.

Lemma result_below_limit_plus_page_witness :
  ∃ st, _make_request 3 (mock_endpoint 5 2 5000 (numbered 5)) 0 = Some st
        ∧ Z.of_nat (length (all_items st)) < max_results + Z.of_nat 2.
Proof.
  eexists. split; [vm_compute; reflexivity|].
  apply (result_below_limit_plus_page 2 3
           (mock_endpoint 5 2 5000 (numbered 5)) 0).
  - intros now page h data [= <- <-]. simpl. rewrite length_take. lia.
  - vm_compute. reflexivity.
Defined.

Lemma iteration_stalling limit ep st :
  stalling (ep (clock st) (page st)).2 →
  (iteration limit ep st).2 = true
  ∧ all_items (iteration limit ep st).1 = all_items st
  ∧ page (iteration limit ep st).1 = page st.
Proof.
  unfold iteration, stalling.
  destruct (ep (clock st) (page st)) as [elapsed [h data|code h|]]; simpl.
  - intros Hq. unfold _check_rate_limit. by rewrite decide_True.
  - intros ->. by rewrite decide_True.
  - done.
Qed.

(** X3: against a server whose every answer is a 403 error or a
    delivered response whose remaining quota reads at most 1 (as it
    does when the header [X-RateLimit-Remaining] is absent) the
    executor never returns: the loop puts no bound on its retries. *)
Theorem stalling_server_never_answered ep :
  (∀ now page, stalling (ep now page).2) →
  ∀ fuel now, _make_request fuel ep now = None.
Proof.
  intros Hstall fuel now. unfold _make_request.
  generalize (start now). induction fuel as [|fuel IH]; intros st; [done|].
  simpl. destruct (iteration_stalling max_results ep st (Hstall _ _)) as [Hc _].
  destruct (iteration max_results ep st) as [st1 c]. simpl in Hc. subst c.
  apply IH.
Qed.

Lemma stalling_server_never_answered_witness :
  _make_request 1000 SampleServer.headerless 0 = None.
Proof.
  apply (stalling_server_never_answered SampleServer.headerless).
  intros now page. simpl. lia.
Defined.

Lemma iteration_ext limit (ep1 ep2 : endpoint) st :
  ep1 (clock st) (page st) = ep2 (clock st) (page st) →
  iteration limit ep1 st = iteration limit ep2 st.
Proof. unfold iteration. by intros ->. Qed.

(** An endpoint that holds fewer items than it reports. *)
Section drained.
Context (T : Z) (P : nat) (quota : Z) (corpus : list (gmap string json)).
Context (limit : Z).
Hypothesis Hshort : Z.of_nat (length corpus) < Z.min T limit.
Hypothesis HP : (1 ≤ P)%nat.
Hypothesis Hquota : 1 < quota.

Local Abbreviation ep := (mock_endpoint T P quota corpus).
Local Abbreviation n := (ceil_div (length corpus) P).

Lemma drained_pass (st : loop_state) (j : nat) :
  page st = S j → all_items st = take (j * P) corpus →
  (j = 0%nat ∨ seen_total st = T) →
  iteration limit ep st
  = if decide (j < n)%nat
    then ({| all_items := take (S j * P) corpus; seen_total := T;
             page := S (S j); clock := clock st + 0 + 1;
             events := (events st ++ [Get (S j)]) ++ [Sleep 1] |}, true)
    else ({| all_items := corpus; seen_total := T; page := S j;
             clock := clock st + 0; events := events st ++ [Get (S j)] |},
          false).
Proof.
  intros Hpage Hall Htotal.
  unfold iteration, mock_endpoint, _check_rate_limit. simpl.
  rewrite decide_False by lia. rewrite Hpage. simpl. rewrite Nat.sub_0_r.
  assert ((if decide (S j = 1%nat) then T else seen_total st) = T) as ->.
  { case_decide; [done|]. destruct Htotal; [lia|done]. }
  destruct (decide (j < n)%nat) as [Hj|Hj].
  - apply ceil_div_lt in Hj; [|done].
    assert (all_items st ++ take P (drop (j * P) corpus)
            = take (S j * P) corpus) as Happ.
    { rewrite Hall, take_take_drop. f_equal. lia. }
    destruct (take P (drop (j * P) corpus)) as [|i rest] eqn:Hitems.
    { apply (f_equal length) in Hitems.
      rewrite length_take, length_drop in Hitems. simpl in Hitems. lia. }
    rewrite Happ.
    assert (length (take (S j * P) corpus) ≤ length corpus)%nat
      by (rewrite length_take; lia).
    rewrite decide_False by lia. unfold sleep. simpl. by rewrite ?Hpage.
  - rewrite ceil_div_lt in Hj by done.
    rewrite drop_ge by lia. rewrite take_nil.
    rewrite Hall, take_ge by lia. by rewrite ?Hpage.
Qed.

Lemma drained_loop (d : nat) :
  ∀ (j fuel : nat) (st : loop_state),
    (j + d = n)%nat → (d + 1 ≤ fuel)%nat →
    page st = S j → all_items st = take (j * P) corpus →
    (j = 0%nat ∨ seen_total st = T) →
    ∃ st', loop fuel limit ep st = Some st'
           ∧ all_items st' = corpus
           ∧ seen_total st' = T
           ∧ pages_fetched st' = (pages_fetched st + d + 1)%nat.
Proof.
  induction d as [|d IH]; intros j fuel st Hn Hfuel Hpage Hall Htotal;
    (destruct fuel as [|fuel]; [lia|]); simpl;
    rewrite (drained_pass st j) by done.
  - rewrite decide_False by lia. eexists. split; [done|]. simpl.
    split_and!; [done..|].
    unfold pages_fetched. simpl. rewrite filter_app, length_app. simpl. lia.
  - rewrite decide_True by lia.
    edestruct (IH (S j) fuel) as (st' & Hloop & Hitems & Htot & Hpages);
      [lia|lia| | | |]; [..|exists st'; split_and!; [exact Hloop|done|done|]].
    + done.
    + done.
    + by right.
    + rewrite Hpages. unfold pages_fetched. simpl.
      rewrite !filter_app, !length_app. simpl. lia.
Qed.

Lemma drained_request (fuel : nat) (now : Z) :
  (n + 1 ≤ fuel)%nat →
  ∃ st, loop fuel limit ep (start now) = Some st
        ∧ pages_fetched st = (n + 1)%nat
        ∧ seen_total st = T
        ∧ all_items st = corpus.
Proof.
  intros Hfuel.
  destruct (drained_loop n 0 fuel (start now)) as (st & ? & ? & ? & Hp);
    [lia|lia|done|done|by left|].
  exists st. split_and!; [done| |done..].
  rewrite Hp. unfold pages_fetched. simpl. lia.
Qed.
End drained.



(** A server that fails from page [k + 1] on. *)
Lemma failing_from_lists_until k bad T P corpus ep :
  lists T P corpus ep → failing bad →
  lists_until k T P corpus (failing_from k bad ep).
Proof.
  intros Hep Hbad now page. unfold failing_from. split.
  - intros Hle. rewrite decide_True by done. apply Hep.
  - intros ->. by rewrite decide_False by lia.
Qed.

Section failing.
Context (T : Z) (P : nat) (corpus : list (gmap string json)).
Context (limit : Z) (k : nat) (ep : endpoint).
Hypothesis Hep : lists_until k T P corpus ep.
Hypothesis Hlen : Z.min T limit ≤ Z.of_nat (length corpus).
Hypothesis HP : (1 ≤ P)%nat.
Hypothesis Hk : (k < ceil_div (Z.to_nat (Z.min T limit)) P)%nat.

(** The endpoint as it would go on without the failure. *)
Local Abbreviation ep0 :=
  (λ now page, if decide (page ≤ k)%nat then ep now page
               else mock_endpoint T P 2 corpus now page).

Lemma failing_lists : lists T P corpus ep0.
Proof.
  intros now page. simpl. case_decide as Hle.
  - by apply Hep.
  - eexists _, _. by split_and!.
Qed.

Lemma failing_pass (st : loop_state) :
  page st = S k →
  (iteration limit ep st).2 = false
  ∧ all_items (iteration limit ep st).1 = all_items st
  ∧ seen_total (iteration limit ep st).1 = seen_total st
  ∧ pages_fetched (iteration limit ep st).1 = S (pages_fetched st).
Proof.
  intros Hpage.
  pose proof (proj2 (Hep (clock st) (page st)) Hpage) as Hbad.
  unfold iteration.
  destruct (ep (clock st) (page st)) as [elapsed [h data|code h|]];
    simpl in *; [done| |].
  - rewrite decide_False by done. simpl. split_and!; [done..|].
    apply pages_fetched_get.
  - split_and!; [done..|]. apply pages_fetched_get.
Qed.

Lemma failing_loop (d : nat) :
  ∀ (j fuel : nat) (st : loop_state),
    (j + d = k)%nat → (d + 1 ≤ fuel)%nat →
    page st = S j → all_items st = take (j * P) corpus →
    (j = 0%nat ∧ seen_total st = 0 ∨ j ≠ 0%nat ∧ seen_total st = T) →
    ∃ st', loop fuel limit ep st = Some st'
           ∧ all_items st' = take (k * P) corpus
           ∧ seen_total st' = (if decide (k = 0%nat) then 0 else T)
           ∧ pages_fetched st' = (pages_fetched st + d + 1)%nat.
Proof.
  induction d as [|d IH]; intros j fuel st Hn Hfuel Hpage Hall Htotal;
    (destruct fuel as [|fuel]; [lia|]); simpl.
  - assert (j = k) as -> by lia.
    destruct (failing_pass st Hpage) as (Hc & Hitems & Htot & Hpages).
    destruct (iteration limit ep st) as [st1 c]. simpl in *. subst c.
    exists st1. split_and!; [done|congruence| |lia].
    rewrite Htot. case_decide; destruct Htotal as [[? ?]|[? ?]]; done || lia.
  - rewrite (iteration_ext limit ep ep0).
    2:{ simpl. rewrite Hpage. by rewrite decide_True by lia. }
    destruct (listing_pass T P corpus limit ep0 failing_lists Hlen HP st j)
      as (Hitems & Htot & Hpages & Hc & Hnext);
      [done|done|destruct Htotal as [[? ?]|[? ?]]; auto|lia|].
    destruct (iteration limit ep0 st) as [st1 c]. simpl in *. subst c.
    rewrite bool_decide_eq_false_2 by lia. simpl.
    rewrite bool_decide_eq_false_2 in Hnext by lia.
    destruct (IH (S j) fuel st1) as (st' & Hloop & Hi & Ht & Hp);
      [lia|lia|by apply Hnext|done|by right|].
    exists st'. split_and!; [done..|]. lia.
Qed.
End failing.



(** The names of the scopes after one operation. *)
Lemma exec_names o self self' k :
  wf self → exec o self = Ok self' →
  (is_Some (repos_view self' !! k)
   ↔ is_Some (repos_view self !! k) ∨ k ∈ identities [o])
  ∧ (is_Some (current_view self' !! k)
     ↔ match o with
       | OpAdd repo_data _ true =>
           is_Some (current_view self !! k) ∨ identity repo_data = Some k
       | OpAdd _ _ false => is_Some (current_view self !! k)
       | OpClear => False
       end).
Proof.
  intros Hwf Hexec. destruct o as [d tag flag|]; simpl in Hexec.
  - unfold identities. simpl.
    destruct (add_repository_added _ _ _ _ _ Hexec)
      as (repo & k0 & info & _ & Hid & _ & Hadded).
    rewrite Hid. simpl. rewrite list_elem_of_singleton.
    destruct (decide (k = k0)) as [->|Hne].
    + destruct (merge_repos_view _ _ _ _ _ _ Hwf Hexec Hid)
        as (info' & _ & Hrepos & Htracked & Huntracked).
      split.
      * rewrite Hrepos. naive_solver.
      * destruct flag.
        -- rewrite Htracked by done. naive_solver.
        -- rewrite Huntracked by done. case_decide; [|done].
           by rewrite fmap_is_Some.
    + destruct (merge_frame _ _ _ _ _ k Hwf Hexec) as [-> ->];
        [rewrite Hid; congruence|].
      split; [naive_solver|]. destruct flag; naive_solver.
  - injection Hexec as <-. destruct (clear_views self) as [-> ->].
    unfold identities. simpl. rewrite lookup_empty, elem_of_nil.
    split; [tauto|]. split; [by intros [? ?]|done].
Qed.

Lemma identities_cons o ops : identities (o :: ops) = identities [o] ++ identities ops.
Proof. unfold identities. simpl. by destruct o as [? ? ?|]; [destruct (identity _)|]. Qed.

Lemma run_names ops :
  ∀ self self' acc k,
    wf self → run ops self = Ok self' →
    (is_Some (current_view self !! k) ↔ k ∈ acc) →
    (is_Some (repos_view self' !! k)
     ↔ is_Some (repos_view self !! k) ∨ k ∈ identities ops)
    ∧ (is_Some (current_view self' !! k) ↔ k ∈ batch_identities acc ops).
Proof.
  induction ops as [|o ops IH]; intros self self' acc k Hwf Hrun Hacc.
  - injection Hrun as <-. unfold identities. simpl.
    rewrite elem_of_nil. split; [tauto|done].
  - simpl in Hrun. destruct (exec o self) as [s1|] eqn:Hexec; [|done].
    simpl in Hrun.
    destruct (exec_names o self s1 k Hwf Hexec) as [Hrepos Hcur].
    pose proof (exec_wf _ _ _ Hwf Hexec) as Hwf1.
    edestruct (IH s1 self'
                 (match o with
                  | OpAdd d _ true => acc ++ option_list (identity d)
                  | OpAdd _ _ false => acc
                  | OpClear => []
                  end) k Hwf1 Hrun) as [Hrepos' Hcur']; last first.
    + split; [|exact Hcur'].
      rewrite identities_cons, elem_of_app.
      split.
      * intros H1. apply Hrepos' in H1 as [H1|H1]; [|by auto].
        apply Hrepos in H1. tauto.
      * intros [H1|[H1|H1]]; apply Hrepos'; [left; apply Hrepos; by left
                                             |left; apply Hrepos; by right
                                             |by right].
    + rewrite Hcur. destruct o as [d tag [|]|]; simpl.
      * rewrite elem_of_app, Hacc.
        destruct (identity d) as [k0|]; simpl;
          rewrite ?list_elem_of_singleton, ?elem_of_nil; naive_solver.
      * done.
      * by rewrite elem_of_nil.
Qed.

(** X6: after any run the global scope holds a record for exactly the
    names under which the merges of the run were filed, and the batch
    scope for exactly the names merged with batch tracking since the
    last batch clear. *)
Theorem scopes_hold_names_seen ops s k :
  run ops init = Ok s →
  (is_Some (repos_view s !! k) ↔ k ∈ identities ops)
  ∧ (is_Some (current_view s !! k) ↔ k ∈ batch_identities [] ops).
Proof.
  intros Hrun.
  destruct (run_names ops init s [] k wf_init Hrun) as [Hrepos Hcur].
  { unfold current_view, view, init. simpl. rewrite omap_empty, lookup_empty.
    rewrite elem_of_nil. split; [by intros [? ?]|done]. }
  split; [|done]. rewrite Hrepos.
  unfold repos_view, view, init. simpl. rewrite omap_empty, lookup_empty.
  split; [intros [[? ?]|?]; done|by right].
Qed.

Lemma scopes_hold_names_seen_witness :
  let ops := [OpAdd (Sample.code_item Sample.widget)
                (code_tag "x" "indexed" "desc") true;
              OpClear;
              OpAdd Sample.gizmo (commit_tag "x") true;
              OpAdd Sample.widget (commit_tag "x") false] in
  identities ops = ["acme/widget"; "acme/gizmo"; "acme/widget"]
  ∧ batch_identities [] ops = ["acme/gizmo"]
  ∧ (is_Some (repos_view (Sample.after ops) !! "acme/widget")
     ↔ "acme/widget" ∈ identities ops)
  ∧ (is_Some (current_view (Sample.after ops) !! "acme/widget")
     ↔ "acme/widget" ∈ batch_identities [] ops).
Proof.
  intros ops. split; [reflexivity|]. split; [reflexivity|].
  apply (scopes_hold_names_seen ops (Sample.after ops) "acme/widget").
  vm_compute. reflexivity.
Defined.

(** The global record of a name keeps its URL and its description. *)
Lemma exec_keeps_metadata o self self' k r :
  wf self → exec o self = Ok self' →
  repos_view self !! k = Some r →
  ∃ r', repos_view self' !! k = Some r'
        ∧ url r' = url r ∧ description r' = description r.
Proof.
  intros Hwf Hexec Hr. destruct o as [d tag flag|]; simpl in Hexec.
  - destruct (add_repository_added _ _ _ _ _ Hexec)
      as (repo & k0 & info & _ & Hid & _ & Hadded).
    destruct (decide (k = k0)) as [->|Hne].
    + destruct (merge_repos_view _ _ _ _ _ _ Hwf Hexec Hid)
        as (info' & _ & Hrepos & _).
      rewrite Hrepos, Hr. simpl. eexists. split; [done|].
      by rewrite merge_tag_fields.
    + destruct (merge_frame _ _ _ _ _ k Hwf Hexec) as [-> _];
        [rewrite Hid; congruence|]. by exists r.
  - injection Hexec as <-. destruct (clear_views self) as [-> _]. by exists r.
Qed.

Lemma run_keeps_metadata ops :
  ∀ self self' k r,
    wf self → run ops self = Ok self' →
    repos_view self !! k = Some r →
    ∃ r', repos_view self' !! k = Some r'
          ∧ url r' = url r ∧ description r' = description r.
Proof.
  induction ops as [|o ops IH]; intros self self' k r Hwf Hrun Hr.
  - injection Hrun as <-. by exists r.
  - simpl in Hrun. destruct (exec o self) as [s1|] eqn:Hexec; [|done].
    simpl in Hrun.
    destruct (exec_keeps_metadata _ _ _ _ _ Hwf Hexec Hr) as (r1 & Hr1 & <- & <-).
    eapply IH; [|done..]. by eapply exec_wf.
Qed.

(** X7: the url and the description of a global record are those of
    the first item merged under its name in the run (the sentinel when
    that item had no description key); the merges after it do not
    change them. *)
Theorem first_sighting_fixes_metadata ops1 repo_data tag flag ops2 s k repo :
  run (ops1 ++ OpAdd repo_data tag flag :: ops2) init = Ok s →
  select_repo repo_data = Ok repo →
  identity repo_data = Some k →
  k ∉ identities ops1 →
  ∃ r, repos_view s !! k = Some r
       ∧ repo !! "html_url" = Some (url r)
       ∧ description r = default no_description (repo !! "description").
Proof.
  intros Hrun Hsel Hid Hnew. rewrite run_app in Hrun.
  destruct (run ops1 init) as [s1|] eqn:Hrun1; [|done]. simpl in Hrun.
  destruct (_add_repository repo_data tag flag s1) as [s2|] eqn:Hadd; [|done].
  simpl in Hrun.
  pose proof (reachable_wf _ _ Hrun1) as Hwf1.
  assert (repos_view s1 !! k = None) as Hnone.
  { apply eq_None_not_Some. intros Hsome. apply Hnew.
    destruct (run_names ops1 init s1 [] k wf_init Hrun1) as [Hseen _].
    { unfold current_view, view, init. simpl.
      rewrite omap_empty, lookup_empty, elem_of_nil.
      split; [by intros [? ?]|done]. }
    apply Hseen in Hsome as [[? Hinit]|?]; [|done].
    unfold repos_view, view, init in Hinit. simpl in Hinit.
    by rewrite omap_empty, lookup_empty in Hinit. }
  destruct (add_repository_added _ _ _ _ _ Hadd)
    as (repo' & k' & info & Hsel' & Hid' & Hinfo & Hadded).
  assert (repo' = repo) as -> by congruence.
  assert (k' = k) as -> by congruence.
  pose proof (repos_view_same tag flag k info s1 s2 Hwf1 Hadded) as Hview.
  rewrite Hnone in Hview. simpl in Hview.
  destruct (repo_info_fields _ _ _ Hinfo) as (_ & Hurl & Hdesc).
  destruct (run_keeps_metadata ops2 s2 s k info) as (r & Hr & Hu & Hd);
    [by eapply add_repo_wf|done|done|].
  exists r. by rewrite Hu, Hd.
Qed.

Lemma first_sighting_fixes_metadata_witness :
  ∃ r, repos_view
         (Sample.after [OpAdd Sample.gizmo (commit_tag "x") true;
                        OpAdd Sample.widget_bare (commit_tag "x") true;
                        OpAdd Sample.widget_later (commit_tag "y") true])
       !! "acme/widget" = Some r
       ∧ Sample.widget_bare !! "html_url" = Some (url r)
       ∧ description r
         = default no_description (Sample.widget_bare !! "description").
Proof.
  apply (first_sighting_fixes_metadata
           [OpAdd Sample.gizmo (commit_tag "x") true]
           Sample.widget_bare (commit_tag "x") true
           [OpAdd Sample.widget_later (commit_tag "y") true]
           _ "acme/widget" Sample.widget_bare).
  - vm_compute. reflexivity.
  - reflexivity.
  - reflexivity.
  - vm_compute. intros Hin. apply list_elem_of_singleton in Hin. discriminate.
Defined.

(** A merge leaves the bindings of the scopes as they are. *)
Lemma add_keeps_binding repo_data tag flag self self' k (l : nat) :
  _add_repository repo_data tag flag self = Ok self' →
  (repos self !! k = Some l → repos self' !! k = Some l)
  ∧ (current_search_repos self !! k = Some l →
     current_search_repos self' !! k = Some l).
Proof.
  intros Hadd.
  destruct (add_repository_added _ _ _ _ _ Hadd)
    as (repo & k0 & info & _ & _ & _ & _ & Hrepos & Hcur).
  rewrite Hrepos, Hcur. split; intros Hl.
  - rewrite bind_loc_lookup. case_decide as Hk; [|done].
    destruct Hk as [-> Hnone]. congruence.
  - destruct flag; [|done].
    rewrite bind_loc_lookup. case_decide as Hk; [|done].
    destruct Hk as [-> Hnone]. congruence.
Qed.

Lemma run_keeps_sharing ops :
  ∀ self self' k (l : nat),
    OpClear ∉ ops → run ops self = Ok self' →
    repos self !! k = Some l → current_search_repos self !! k = Some l →
    repos self' !! k = Some l ∧ current_search_repos self' !! k = Some l.
Proof.
  induction ops as [|o ops IH]; intros self self' k l Hclear Hrun Hr Hc.
  - by injection Hrun as <-.
  - apply not_elem_of_cons in Hclear as [Ho Hclear].
    simpl in Hrun. destruct (exec o self) as [s1|] eqn:Hexec; [|done].
    simpl in Hrun. destruct o as [d tag flag|]; [|done]. simpl in Hexec.
    destruct (add_keeps_binding _ _ _ _ _ k l Hexec) as [Hr1 Hc1].
    eapply IH; eauto.
Qed.

(** X8: a name that is new when it is merged with batch tracking gets
    one dictionary, stored in both scopes; as long as the batch is not
    cleared, the batch record of this name is the global record itself,
    so that the tags of the later merges, also of those without batch
    tracking, are contained in the batch record. *)
Theorem batch_record_shared_until_clear ops0 self repo_data tag s1 ops s2 k :
  run ops0 init = Ok self →
  identity repo_data = Some k →
  repos_view self !! k = None →
  _add_repository repo_data tag true self = Ok s1 →
  run ops s1 = Ok s2 →
  OpClear ∉ ops →
  current_search_repos s2 !! k = repos s2 !! k
  ∧ current_view s2 !! k = repos_view s2 !! k
  ∧ ∀ t, t = tag ∨ t ∈ tags_for k ops →
         ∃ r, current_view s2 !! k = Some r
              ∧ PyStr.contains t (found_by r) = true.
Proof.
  intros Hrun0 Hid Hnew Hadd Hrun Hclear.
  pose proof (reachable_wf _ _ Hrun0) as Hwf.
  assert (repos self !! k = None) as Hrnone.
  { destruct (repos self !! k) as [l|] eqn:Hl; [|done].
    assert (l < length (store self))%nat as Hb
      by (apply (wf_bound _ Hwf k); by left).
    apply lookup_lt_is_Some in Hb as [r Hr].
    unfold repos_view in Hnew. rewrite view_lookup, Hl in Hnew.
    simpl in Hnew. congruence. }
  assert (current_search_repos self !! k = None) as Hcnone.
  { destruct (current_search_repos self !! k) as [l|] eqn:Hl; [|done].
    assert (l < length (store self))%nat as Hb
      by (apply (wf_bound _ Hwf k); by right).
    apply lookup_lt_is_Some in Hb as [r Hr].
    destruct (run_batch_within_global ops0 init self wf_init
                batch_within_global_init Hrun0 k r) as (rg & Hrg & _).
    { unfold current_view. rewrite view_lookup, Hl. done. }
    congruence. }
  destruct (add_repository_added _ _ _ _ _ Hadd)
    as (repo & k0 & info & _ & Hid' & Hinfo & Hadded).
  assert (k0 = k) as -> by congruence.
  pose proof Hadded as (_ & Hrepos & Hcur).
  assert (repos s1 !! k = Some (length (store self))) as Hr1.
  { rewrite Hrepos, bind_loc_lookup. by rewrite decide_True. }
  assert (current_search_repos s1 !! k = Some (length (store self))) as Hc1.
  { rewrite Hcur, bind_loc_lookup. by rewrite decide_True. }
  destruct (run_keeps_sharing ops s1 s2 k _ Hclear Hrun Hr1 Hc1) as [Hr2 Hc2].
  assert (current_view s2 !! k = repos_view s2 !! k) as Hsame.
  { unfold current_view, repos_view. by rewrite !view_lookup, Hr2, Hc2. }
  split_and!; [congruence|done|].
  intros t Ht. rewrite Hsame.
  pose proof (add_repo_wf tag true k info self s1 Hwf Hadded) as Hwf1.
  pose proof (repos_view_same tag true k info self s1 Hwf Hadded) as Hview1.
  rewrite Hnew in Hview1. simpl in Hview1.
  pose proof (run_found_by ops s1 s2 k Hwf1 Hrun) as Hfb.
  rewrite Hview1 in Hfb. simpl in Hfb.
  destruct (repo_info_fields _ _ _ Hinfo) as (Htag & _).
  destruct (joined_grows (found_by info) (tags_for k ops))
    as (s' & Hs' & Hmono & _).
  rewrite Hs' in Hfb.
  destruct (repos_view s2 !! k) as [r|]; [|done].
  injection Hfb as Hfb. exists r. split; [done|]. rewrite Hfb.
  destruct Ht as [->|Ht].
  - apply Hmono. rewrite Htag. apply PyStrFacts.contains_refl.
  - destruct (joined_contains (Some (found_by info)) _ _ Ht) as (s'' & Hs'' & Hc).
    congruence.
Qed.

Lemma batch_record_shared_until_clear_witness :
  let s2 := Sample.after [OpAdd Sample.widget (code_tag "x" "indexed" "desc") true;
                          OpAdd Sample.widget (commit_tag "x") false] in
  current_search_repos s2 !! "acme/widget" = repos s2 !! "acme/widget"
  ∧ current_view s2 !! "acme/widget" = repos_view s2 !! "acme/widget"
  ∧ ∀ t, t = code_tag "x" "indexed" "desc"
         ∨ t ∈ tags_for "acme/widget"
                 [OpAdd Sample.widget (commit_tag "x") false] →
         ∃ r, current_view s2 !! "acme/widget" = Some r
              ∧ PyStr.contains t (found_by r) = true.
Proof.
  intros s2.
  apply (batch_record_shared_until_clear [] init Sample.widget
           (code_tag "x" "indexed" "desc")
           (Sample.after [OpAdd Sample.widget (code_tag "x" "indexed" "desc") true])
           [OpAdd Sample.widget (commit_tag "x") false] s2 "acme/widget").
  - reflexivity.
  - reflexivity.
  - reflexivity.
  - vm_compute. reflexivity.
  - vm_compute. reflexivity.
  - intros Hin. apply list_elem_of_singleton in Hin. discriminate.
Defined.

(** The loop over the items stops at the first exception. *)
Lemma for_items_app {S} (body : gmap string json → S → result S) pre post st :
  for_items body (pre ++ post) st
  = (st' ←! for_items body pre st; for_items body post st').
Proof.
  revert st. induction pre as [|i pre IH]; intros st; [done|].
  simpl. destruct (body i st); [apply IH|done].
Qed.

(** X9: an item whose repository object has no [full_name] raises
    [KeyError('full_name')], and one that has a name but no [html_url]
    raises [KeyError('html_url')], whatever the state; the exception
    ends the loop over the items: what follows the item is not
    merged. *)
Theorem missing_key_ends_the_loop m query flag pre item post repo self s1 :
  for_items (adapter_item m query flag) pre self = Ok s1 →
  extract m item = Ok (Some repo) →
  (repo !! "full_name" = None →
   adapter_item m query flag item s1 = Raise (KeyError "full_name")
   ∧ for_items (adapter_item m query flag) (pre ++ item :: post) self
     = Raise (KeyError "full_name"))
  ∧ (∀ k, repo !! "full_name" = Some (JStr k) → repo !! "html_url" = None →
     adapter_item m query flag item s1 = Raise (KeyError "html_url")
     ∧ for_items (adapter_item m query flag) (pre ++ item :: post) self
       = Raise (KeyError "html_url")).
Proof.
  intros Hpre Hext.
  assert (∀ e, adapter_item m query flag item s1 = Raise e →
               for_items (adapter_item m query flag) (pre ++ item :: post) self
               = Raise e) as Hloop.
  { intros e He. rewrite for_items_app, Hpre. simpl. by rewrite He. }
  split.
  - intros Hname.
    assert (adapter_item m query flag item s1 = Raise (KeyError "full_name")).
    { rewrite adapter_item_extract, Hext. simpl.
      unfold add_repo, getitem_str, getitem. by rewrite Hname. }
    auto.
  - intros k Hname Hurl.
    assert (adapter_item m query flag item s1 = Raise (KeyError "html_url")).
    { rewrite adapter_item_extract, Hext. simpl.
      unfold add_repo, getitem_str, getitem. rewrite Hname. simpl.
      unfold repo_info, getitem. by rewrite Hurl. }
    auto.
Qed.

Lemma missing_key_ends_the_loop_witness :
  for_items (adapter_item History "x" true)
    [Sample.commit_item Sample.widget;
     Sample.commit_item SampleServer.nameless;
     Sample.commit_item Sample.gizmo] init
  = Raise (KeyError "full_name").
Proof.
  refine (proj2 (proj1 (missing_key_ends_the_loop History "x" true
            [Sample.commit_item Sample.widget]
            (Sample.commit_item SampleServer.nameless)
            [Sample.commit_item Sample.gizmo]
            SampleServer.nameless init
            (Sample.after [OpAdd Sample.widget (commit_tag "x") true])
            _ _) _)).
  - vm_compute. reflexivity.
  - reflexivity.
  - reflexivity.
Defined.

(** ** The catalogue writer *)

Section sorted_by.
Context {A : Type} (le : A → A → bool).

Lemma insert_by_perm x l : insert_by le x l ≡ₚ x :: l.
Proof.
  induction l as [|y l IH]; [done|]. simpl. destruct (le x y); [done|].
  rewrite IH. apply Permutation_swap.
Qed.

Lemma sorted_by_perm l : sorted_by le l ≡ₚ l.
Proof.
  induction l as [|x l IH]; [done|]. unfold sorted_by in *. simpl.
  by rewrite insert_by_perm, IH.
Qed.

Lemma insert_by_filter (P : A → Prop) `{∀ x, Decision (P x)} x l :
  (∀ y, P x → P y → le x y = true) →
  filter P (insert_by le x l)
  = if decide (P x) then x :: filter P l else filter P l.
Proof.
  intros Hle. induction l as [|y l IH]; simpl.
  - rewrite filter_cons, filter_nil. done.
  - destruct (le x y) eqn:Hxy.
    + by rewrite filter_cons.
    + rewrite !(filter_cons _ y), IH.
      destruct (decide (P y)) as [Hy|Hy]; [|done].
      destruct (decide (P x)) as [Hx|Hx]; [|done].
      rewrite Hle in Hxy by done. done.
Qed.

(** The sort is stable: the elements that satisfy [P], a property of
    the key, keep their order. *)
Lemma sorted_by_filter (P : A → Prop) `{∀ x, Decision (P x)} l :
  (∀ x y, P x → P y → le x y = true) →
  filter P (sorted_by le l) = filter P l.
Proof.
  intros Hle. induction l as [|x l IH]; [done|]. unfold sorted_by in *. simpl.
  rewrite insert_by_filter by auto. rewrite IH, filter_cons. done.
Qed.

Hypothesis le_total : ∀ x y, le x y = true ∨ le y x = true.
Hypothesis le_trans : ∀ x y z, le x y = true → le y z = true → le x z = true.

Lemma insert_by_sorted x l :
  StronglySorted (λ a b, le a b = true) l →
  StronglySorted (λ a b, le a b = true) (insert_by le x l).
Proof.
  induction 1 as [|y l Hs IH Hall]; simpl.
  - by repeat constructor.
  - destruct (le x y) eqn:Hxy.
    + constructor; [by constructor|]. constructor; [done|].
      eapply Forall_impl; [exact Hall|]. intros z Hz. by eapply le_trans.
    + constructor; [done|]. rewrite insert_by_perm. constructor; [|done].
      destruct (le_total x y); congruence.
Qed.

Lemma sorted_by_sorted l :
  StronglySorted (λ a b, le a b = true) (sorted_by le l).
Proof.
  induction l as [|x l IH]; [constructor|]. by apply insert_by_sorted.
Qed.
End sorted_by.

Lemma leb_trans (a b c : string) :
  String.leb a b = true → String.leb b c = true → String.leb a c = true.
Proof.
  intros Hab Hbc.
  pose proof (@transitivity _ String.le _ a b c) as Htr.
  unfold String.le in Htr. rewrite !Is_true_true in Htr. auto.
Qed.

Lemma elem_of_dict_items (h : list record) (scope : gmap string nat) k r :
  (k, r) ∈ dict_items h scope ↔ view h scope !! k = Some r.
Proof.
  unfold dict_items. rewrite list_elem_of_omap, view_lookup. split.
  - intros ([k' l] & Hin & Hr). rewrite sorted_by_perm in Hin.
    apply elem_of_map_to_list in Hin. simpl in Hr.
    destruct (h !! l) as [r'|] eqn:Hl; [|done]. simpl in Hr.
    injection Hr as -> ->. rewrite Hin. done.
  - intros Hr. destruct (scope !! k) as [l|] eqn:Hl; [|done]. simpl in Hr.
    exists (k, l). split.
    + rewrite sorted_by_perm. by apply elem_of_map_to_list.
    + simpl. by rewrite Hr.
Qed.

Lemma omap_names_sublist (h : list record) (l : list (string * nat)) :
  (omap (λ kl, (λ r, (kl.1, r)) <$> h !! kl.2) l).*1 `sublist_of` l.*1.
Proof.
  induction l as [|[k i] l IH]; [done|]. simpl.
  destruct (h !! i); simpl; by constructor.
Qed.

Lemma dict_items_NoDup (h : list record) (scope : gmap string nat) :
  NoDup (dict_items h scope).*1.
Proof.
  unfold dict_items. eapply sublist_NoDup; [|apply omap_names_sublist].
  rewrite sorted_by_perm. apply NoDup_fst_map_to_list.
Qed.

(** X10: the rows [_save_search_results] and [save_results] write are
    the records of the scope, one row for each name, in ascending order
    of the [found_by] strings; the rows with the same [found_by] keep
    the order in which the dictionary lists them. *)
Theorem catalogue_rows (h : list record) (scope : gmap string nat) :
  (∀ k r, (k, r) ∈ catalogue h scope ↔ view h scope !! k = Some r)
  ∧ NoDup (catalogue h scope).*1
  ∧ StronglySorted (λ a b, String.leb (found_by a.2) (found_by b.2) = true)
      (catalogue h scope)
  ∧ ∀ s, filter (λ row, found_by row.2 = s) (catalogue h scope)
         = filter (λ row, found_by row.2 = s) (dict_items h scope).
Proof.
  unfold catalogue. split_and!.
  - intros k r. by rewrite sorted_by_perm, elem_of_dict_items.
  - rewrite sorted_by_perm. apply dict_items_NoDup.
  - apply (sorted_by_sorted (λ a b : row, String.leb (found_by a.2) (found_by b.2))).
    + intros x y. apply String.leb_total.
    + intros x y z. apply leb_trans.
  - intros s. apply sorted_by_filter.
    intros x y Hx Hy. simpl in *. rewrite Hx, Hy.
    by destruct (String.leb_total s s).
Qed.

Lemma catalogue_rows_lookup (h : list record) (scope : gmap string nat) k r :
  (k, r) ∈ catalogue h scope ↔ view h scope !! k = Some r.
Proof. unfold catalogue. by rewrite sorted_by_perm, elem_of_dict_items. Qed.

(** ** The monad of the search functions *)

Lemma bindM_Ok {A B} (m : M A) (f : A → M B) w b w' :
  bindM m f w = Some (Ok b, w') →
  ∃ a w1, m w = Some (Ok a, w1) ∧ f a w1 = Some (Ok b, w').
Proof.
  unfold bindM. destruct (m w) as [[[a|e] w1]|]; [|done..].
  intros Hf. by exists a, w1.
Qed.

Lemma lift_Ok {A} (r : result A) w a w' :
  lift r w = Some (Ok a, w') → r = Ok a ∧ w' = w.
Proof. unfold lift. by intros [= -> ->]. Qed.

Lemma ret_Ok {A} (a0 : A) w a w' :
  ret a0 w = Some (Ok a, w') → a = a0 ∧ w' = w.
Proof. unfold ret. by intros [= -> ->]. Qed.

Lemma saves_app l1 l2 : saves (l1 ++ l2) = saves l1 ++ saves l2.
Proof. unfold saves. apply omap_app. Qed.

Lemma saves_io_of r evs : saves (io_of r <$> evs) = [].
Proof.
  induction evs as [|[p|s] evs IH]; [done|exact IH..].
Qed.

Lemma tags_of_app ops1 ops2 : tags_of (ops1 ++ ops2) = tags_of ops1 ++ tags_of ops2.
Proof. unfold tags_of. apply omap_app. Qed.

Lemma searching_refl T self w : searching T self w self w.
Proof.
  split.
  - exists []. split_and!; [done|apply list_subseteq_nil|constructor].
  - exists []. by rewrite app_nil_r.
Qed.

Lemma searching_trans T s1 w1 s2 w2 s3 w3 :
  searching T s1 w1 s2 w2 → searching T s2 w2 s3 w3 → searching T s1 w1 s3 w3.
Proof.
  intros [(ops1 & Hrun1 & Ht1 & Htr1) (evs1 & Hl1 & Hs1)]
         [(ops2 & Hrun2 & Ht2 & Htr2) (evs2 & Hl2 & Hs2)].
  split.
  - exists (ops1 ++ ops2). split_and!.
    + by rewrite run_app, Hrun1.
    + rewrite tags_of_app. intros t [?|?]%elem_of_app; auto.
    + by apply Forall_app.
  - exists (evs1 ++ evs2). split.
    + by rewrite Hl2, Hl1, <-app_assoc.
    + by rewrite saves_app, Hs1, Hs2.
Qed.

Lemma searching_mono T T' s w s' w' :
  T ⊆ T' → searching T s w s' w' → searching T' s w s' w'.
Proof.
  intros HT [(ops & Hrun & Ht & Htr) Hlog]. split; [|done].
  exists ops. split_and!; [done| |done]. by etrans.
Qed.

Lemma for_each_searching {A} T (body : A → GitHubSearch → M GitHubSearch) l :
  (∀ x s w s' w', x ∈ l → body x s w = Some (Ok s', w') →
                  searching T s w s' w') →
  ∀ s w s' w', for_each body l s w = Some (Ok s', w') → searching T s w s' w'.
Proof.
  induction l as [|x l IH]; intros Hbody s w s' w' Hrun.
  - apply ret_Ok in Hrun as [-> ->]. apply searching_refl.
  - simpl in Hrun. apply bindM_Ok in Hrun as (s1 & w1 & Hx & Hrest).
    eapply searching_trans.
    + eapply Hbody; [by left|done].
    + eapply IH; [|done]. intros. eapply Hbody; [by right|done].
Qed.

Lemma make_request_log fuel srv r w data w' :
  make_request fuel srv r w = Some (Ok data, w') →
  ∃ evs, w_log w' = w_log w ++ evs ∧ saves evs = [].
Proof.
  unfold make_request. destruct (_make_request _ _ _) as [st|]; [|done].
  simpl. intros [= <- <-]. eexists. split; [done|]. apply saves_io_of.
Qed.

(** The loop over the items of a query is a run under its tag. *)
Lemma for_items_add tag items :
  ∀ self self',
    for_items (λ item, _add_repository item tag true) items self = Ok self' →
    ∃ ops, run ops self = Ok self' ∧ tags_of ops ⊆ [tag] ∧ tracked ops.
Proof.
  induction items as [|i items IH]; intros self self' Hrun.
  - injection Hrun as <-. exists [].
    split_and!; [done|apply list_subseteq_nil|constructor].
  - simpl in Hrun.
    destruct (_add_repository i tag true self) as [s1|] eqn:Hadd; [|done].
    simpl in Hrun. destruct (IH _ _ Hrun) as (ops & Hops & Ht & Htr).
    exists (OpAdd i tag true :: ops). split_and!.
    + simpl. by rewrite Hadd.
    + rewrite tags_of_cons. intros t [->|?]%elem_of_cons; [by left|auto].
    + by constructor.
Qed.

Lemma adapter_item_searching m query item self self' :
  adapter_item m query true item self = Ok self' →
  ∃ ops, run ops self = Ok self' ∧ tags_of ops ⊆ [adapter_tag m query]
         ∧ tracked ops.
Proof.
  intros Had. destruct (adapter_item_exec _ _ _ _ _ _ Had) as [->|(d & Hexec)].
  - exists []. split_and!; [done|apply list_subseteq_nil|constructor].
  - exists [OpAdd d (adapter_tag m query) true]. split_and!.
    + simpl in *. by rewrite Hexec.
    + by intros t Hin.
    + by repeat constructor.
Qed.

Lemma for_items_adapter m query items :
  ∀ self self',
    for_items (adapter_item m query true) items self = Ok self' →
    ∃ ops, run ops self = Ok self' ∧ tags_of ops ⊆ [adapter_tag m query]
           ∧ tracked ops.
Proof.
  induction items as [|i items IH]; intros self self' Hrun.
  - injection Hrun as <-. exists [].
    split_and!; [done|apply list_subseteq_nil|constructor].
  - simpl in Hrun.
    destruct (adapter_item m query true i self) as [s1|] eqn:Had; [|done].
    simpl in Hrun.
    destruct (adapter_item_searching _ _ _ _ _ Had) as (ops1 & Hops1 & Ht1 & Htr1).
    destruct (IH _ _ Hrun) as (ops & Hops & Ht & Htr).
    exists (ops1 ++ ops). split_and!.
    + by rewrite run_app, Hops1.
    + rewrite tags_of_app. intros t [?|?]%elem_of_app; auto.
    + by apply Forall_app.
Qed.

Lemma query_searching T tag fuel srv r self w self' w'
    (loop : list (gmap string json) → GitHubSearch → result GitHubSearch) :
  (∀ items s s', loop items s = Ok s' →
                 ∃ ops, run ops s = Ok s' ∧ tags_of ops ⊆ [tag]
                        ∧ tracked ops) →
  tag ∈ T →
  (data ←@ make_request fuel srv r; lift (loop (items data) self)) w
  = Some (Ok self', w') →
  searching T self w self' w'.
Proof.
  intros Hloop Htag Hrun.
  apply bindM_Ok in Hrun as (data & w1 & Hreq & Hlift).
  apply lift_Ok in Hlift as [Hitems ->].
  split; [|by eapply make_request_log].
  destruct (Hloop _ _ _ Hitems) as (ops & Hops & Ht & Htr).
  exists ops. split_and!; [done| |done]. intros t Hin. apply Ht in Hin.
  by apply list_elem_of_singleton in Hin as ->.
Qed.

Lemma search_code_searching T fuel srv query so self w self' w' :
  code_tag query so.1 so.2 ∈ T →
  search_code fuel srv query so true self w = Some (Ok self', w') →
  searching T self w self' w'.
Proof.
  intros Htag. unfold search_code.
  apply (query_searching T (code_tag query so.1 so.2) fuel srv _ self w self' w'
           (for_items (search_code_item query so.1 so.2 true))); [|done].
  intros items s s'.
  apply (for_items_adapter (Content so.1 so.2) query).
Qed.

Lemma search_commits_searching T fuel srv query self w self' w' :
  commit_tag query ∈ T →
  search_commits fuel srv query true self w = Some (Ok self', w') →
  searching T self w self' w'.
Proof.
  intros Htag. unfold search_commits.
  apply (query_searching T (commit_tag query) fuel srv _ self w self' w'
           (for_items (search_commits_item query true))); [|done].
  intros items s s'. apply (for_items_adapter History query).
Qed.

Lemma wait_searching T s seconds w u w' :
  wait seconds w = Some (Ok u, w') → searching T s w s w'.
Proof.
  unfold wait. intros [= <- <-]. split.
  - exists []. split_and!; [done|apply list_subseteq_nil|constructor].
  - by exists [Wait seconds].
Qed.

Lemma search_repositories_in_searching T ws fuel srv query :
  (∀ w, w ∈ ws → description_tag query w.1 w.2 ∈ T) →
  ∀ self w self' w',
    search_repositories_in ws fuel srv query true self w = Some (Ok self', w') →
    searching T self w self' w'.
Proof.
  intros Htag. unfold search_repositories_in.
  apply for_each_searching. intros win s w s' w' Hin Hbody.
  apply bindM_Ok in Hbody as (data & w1 & Hreq & Hrest).
  apply bindM_Ok in Hrest as (s1 & w2 & Hlift & Hrest).
  apply bindM_Ok in Hrest as (u & w3 & Hwait & Hret).
  apply ret_Ok in Hret as [-> ->].
  apply lift_Ok in Hlift as [Hitems ->].
  eapply searching_trans; [|by eapply wait_searching].
  split; [|by eapply make_request_log].
  destruct (for_items_adapter (Description win.1 win.2) query _ _ _ Hitems)
    as (ops & Hops & Ht & Htr).
  exists ops. split_and!; [done| |done]. intros t Hin'. apply Ht in Hin'.
  apply list_elem_of_singleton in Hin' as ->. by apply Htag.
Qed.

Lemma search_firebase_files_searching T fuel srv :
  (∀ f, f ∈ firebase_files → config_tag f ∈ T) →
  ∀ self w self' w',
    search_firebase_files fuel srv true self w = Some (Ok self', w') →
    searching T self w self' w'.
Proof.
  intros Htag. unfold search_firebase_files.
  apply for_each_searching. intros f s w s' w' Hin Hbody.
  apply bindM_Ok in Hbody as (data & w1 & Hreq & Hrest).
  apply bindM_Ok in Hrest as (s1 & w2 & Hlift & Hrest).
  apply bindM_Ok in Hrest as (u & w3 & Hwait & Hret).
  apply ret_Ok in Hret as [-> ->].
  apply lift_Ok in Hlift as [Hitems ->].
  eapply searching_trans; [|by eapply wait_searching].
  split; [|by eapply make_request_log].
  destruct (for_items_add _ _ _ _ Hitems) as (ops & Hops & Ht & Htr).
  exists ops. split_and!; [done| |done]. intros t Hin'. apply Ht in Hin'.
  apply list_elem_of_singleton in Hin' as ->. by apply Htag.
Qed.

Lemma warnings_log lines :
  ∀ w u w', for_each (λ line (_ : ()), emit (Warn line)) lines () w
            = Some (Ok u, w') →
    ∃ evs, w_log w' = w_log w ++ evs ∧ saves evs = [].
Proof.
  induction lines as [|line lines IH]; intros w u w' Hrun.
  - apply ret_Ok in Hrun as [_ ->]. exists []. by rewrite app_nil_r.
  - simpl in Hrun. apply bindM_Ok in Hrun as ([] & w1 & Hemit & Hrest).
    injection Hemit as <-.
    destruct (IH _ _ _ Hrest) as (evs & Hlog & Hs).
    exists (Warn line :: evs). split; [|done].
    rewrite Hlog. simpl. by rewrite <-app_assoc.
Qed.

Lemma search_issues_step_searching T query s e item self w self' w' :
  issue_tag query s e ∈ T →
  search_issues_step query s e true item self w = Some (Ok self', w') →
  searching T self w self' w'.
Proof.
  intros Htag. unfold search_issues_step.
  destruct (search_issues_item query s e true item (self, []))
    as [[s1 lines]|err] eqn:Hitem; [|done].
  intros Hrun. apply bindM_Ok in Hrun as (u & w1 & Hwarn & Hret).
  apply ret_Ok in Hret as [-> ->].
  split; [|by eapply warnings_log].
  assert (adapter_item (Issue s e) query true item self = Ok s1) as Had.
  { simpl. by rewrite Hitem. }
  destruct (adapter_item_searching _ _ _ _ _ Had) as (ops & Hops & Ht & Htr).
  exists ops. split_and!; [done| |done]. intros t Hin. apply Ht in Hin.
  by apply list_elem_of_singleton in Hin as ->.
Qed.

Lemma search_issues_in_searching T ws fuel srv query :
  (∀ w, w ∈ ws → issue_tag query w.1 w.2 ∈ T) →
  ∀ self w self' w',
    search_issues_in ws fuel srv query true self w = Some (Ok self', w') →
    searching T self w self' w'.
Proof.
  intros Htag. unfold search_issues_in.
  apply for_each_searching. intros win s w s' w' Hin Hbody.
  apply bindM_Ok in Hbody as (data & w1 & Hreq & Hrest).
  eapply searching_trans.
  - split; [|by eapply make_request_log].
    exists []. split_and!; [done|apply list_subseteq_nil|constructor].
  - revert Hrest. apply for_each_searching.
    intros item s2 w2 s3 w3 _. apply search_issues_step_searching. by apply Htag.
Qed.

(** ** The drivers *)

(** The provenance of a global record only grows. *)
Lemma run_provenance_grows ops self self' k rg :
  wf self → run ops self = Ok self' → repos_view self !! k = Some rg →
  ∃ rg', repos_view self' !! k = Some rg' ∧ provenance rg ⊆ provenance rg'.
Proof.
  intros Hwf Hrun Hrg.
  pose proof (run_found_by ops self self' k Hwf Hrun) as Hfb.
  rewrite Hrg in Hfb. simpl in Hfb.
  destruct (joined_grows (found_by rg) (tags_for k ops))
    as (s' & Hs' & _ & [rest Hpre] & _).
  rewrite Hs' in Hfb.
  destruct (repos_view self' !! k) as [rg'|]; [|done].
  injection Hfb as Hfb. exists rg'. split; [done|].
  unfold provenance. rewrite Hfb, Hpre. intros t Ht. apply elem_of_app. by left.
Qed.

(** Under plain and independent tags the provenance of a record is the
    set of the tags applied to its name, and the batch record lists
    tags of the global record only. *)
Lemma tags_provenance T ops s k :
  Forall plain T → independent T →
  run ops init = Ok s → tags_of ops ⊆ T →
  (∀ r, repos_view s !! k = Some r →
        ∀ t, t ∈ provenance r ↔ t ∈ tags_for k ops)
  ∧ (∀ rb, current_view s !! k = Some rb →
           ∃ rg, repos_view s !! k = Some rg
                 ∧ provenance rb ⊆ provenance rg).
Proof.
  intros HP HI Hrun Hsub.
  assert (tags_for k ops ⊆ T) as Hsub'
    by (intros t Ht; by apply Hsub, (tags_for_tags_of k)).
  split.
  - intros r Hr t.
    pose proof (run_found_by ops init s k wf_init Hrun) as Hfb.
    rewrite Hr in Hfb. simpl in Hfb. symmetry in Hfb.
    eapply joined_union; [| |exact Hfb].
    + by eapply Forall_plain_subseteq.
    + by eapply independent_subseteq.
  - intros rb Hb.
    destruct (run_batch_within_global ops init s wf_init
                batch_within_global_init Hrun k rb Hb) as (rg & Hg & Hin).
    exists rg. split; [done|]. intros t Ht.
    assert (listed_in T s) as Hl.
    { apply (run_listed_in _ ops init s wf_init (listed_in_init _)); [|done].
      intros u Hu. split; [by apply Hsub|].
      rewrite Forall_forall in HP. by apply HP, Hsub. }
    apply (contained_listed T s k rg t Hl HP HI Hg);
      [exact (Hl k rb (or_intror Hb) t Ht)|by apply Hin].
Qed.

(** After a pass that started with an empty batch scope, the batch
    records list tags of the pass only. *)
Lemma pass_batch T self w self' w' k rb :
  Forall plain T → wf self → current_view self = ∅ →
  searching T self w self' w' →
  current_view self' !! k = Some rb → provenance rb ⊆ T.
Proof.
  intros HP Hwf Hempty [(ops & Hrun & Ht & Htr) _] Hrb t Hin.
  pose proof (run_found_by_current ops self self' k Hwf Htr Hrun) as Hfb.
  rewrite Hrb, Hempty, lookup_empty in Hfb. simpl in Hfb. symmetry in Hfb.
  destruct (joined_pieces _ _ _ Hfb Hin) as (u & Hu & Hpiece).
  assert (u ∈ T) as HuT by (by apply Ht, (tags_for_tags_of k)).
  rewrite Forall_forall in HP. rewrite (plain_split u (HP u HuT)) in Hpiece.
  by apply list_elem_of_singleton in Hpiece as ->.
Qed.

Section progress.
Context (T : list string).
Hypothesis HP : Forall plain T.
Hypothesis HI : independent T.

Lemma progress_start w0 : progress T w0 init w0 [].
Proof.
  split_and!.
  - exists []. split; [done|]. apply list_subseteq_nil.
  - exists []. by rewrite app_nil_r.
  - intros f k rb Hf. by apply elem_of_nil in Hf.
Qed.

Lemma progress_wf w0 self w files : progress T w0 self w files → wf self.
Proof. intros ((ops & Hrun & _) & _). by eapply reachable_wf. Qed.

Lemma progress_searching w0 self w files self' w' :
  progress T w0 self w files → searching T self w self' w' →
  progress T w0 self' w' files.
Proof.
  intros ((ops0 & Hrun0 & Ht0) & (evs0 & Hl0 & Hs0) & Hrows)
         [(ops & Hrun & Ht & _) (evs & Hl & Hs)].
  split_and!.
  - exists (ops0 ++ ops). split.
    + by rewrite run_app, Hrun0.
    + rewrite tags_of_app. intros t [?|?]%elem_of_app; auto.
  - exists (evs0 ++ evs). split.
    + by rewrite Hl, Hl0, <-app_assoc.
    + by rewrite saves_app, Hs0, Hs, app_nil_r.
  - intros f k rb Hf Hrow.
    destruct (Hrows f k rb Hf Hrow) as (rg & Hrg & Hsub).
    destruct (run_provenance_grows ops self self' k rg) as (rg' & Hrg' & Hsub');
      [by eapply reachable_wf|done|done|].
    exists rg'. split; [done|]. by etrans.
Qed.

Lemma progress_save w0 self w files search_type self' w' :
  progress T w0 self w files →
  save_and_clear search_type self w = Some (Ok self', w') →
  self' = clear_current self
  ∧ progress T w0 self' w'
      (files ++ [(search_type,
                  catalogue (store self) (current_search_repos self))]).
Proof.
  intros ((ops0 & Hrun0 & Ht0) & (evs0 & Hl0 & Hs0) & Hrows) Hsave.
  unfold save_and_clear, _save_search_results in Hsave.
  apply bindM_Ok in Hsave as (u & w1 & Hemit & Hret).
  apply ret_Ok in Hret as [-> ->]. injection Hemit as _ <-.
  split; [done|]. split_and!.
  - exists (ops0 ++ [OpClear]). split.
    + by rewrite run_app, Hrun0.
    + rewrite tags_of_app. simpl. by rewrite app_nil_r.
  - eexists. split.
    + simpl. by rewrite Hl0, <-app_assoc.
    + by rewrite saves_app, Hs0.
  - intros f k rb Hf Hrow. destruct (clear_views self) as [-> _].
    apply elem_of_app in Hf as [Hf|Hf]; [by eapply Hrows|].
    apply list_elem_of_singleton in Hf as ->. simpl in Hrow.
    apply (proj1 (catalogue_rows_lookup _ _ k rb)) in Hrow.
    by apply (proj2 (tags_provenance T ops0 self k HP HI Hrun0 Ht0)).
Qed.

(** A pass of a driver: a search from an empty batch scope, followed by
    the batch file and the batch clear. *)
Lemma progress_pass Ti w0 self w files s1 w1 search_type self' w' :
  Ti ⊆ T →
  progress T w0 self w files → current_view self = ∅ →
  searching Ti self w s1 w1 →
  save_and_clear search_type s1 w1 = Some (Ok self', w') →
  let batch := catalogue (store s1) (current_search_repos s1) in
  progress T w0 self' w' (files ++ [(search_type, batch)])
  ∧ current_view self' = ∅
  ∧ ∀ k rb, (k, rb) ∈ batch → provenance rb ⊆ Ti.
Proof.
  intros Hsub Hp Hempty Hsearch Hsave batch.
  pose proof (progress_wf _ _ _ _ Hp) as Hwf.
  pose proof (progress_searching _ _ _ _ _ _ Hp
                (searching_mono _ _ _ _ _ _ Hsub Hsearch)) as Hp1.
  destruct (progress_save _ _ _ _ _ _ _ Hp1 Hsave) as [-> Hp2].
  split_and!; [done|apply clear_views|].
  intros k rb Hrow. apply catalogue_rows_lookup in Hrow.
  eapply (pass_batch Ti self w s1 w1 k rb); try done.
  rewrite Forall_forall in HP. apply Forall_forall. auto.
Qed.

(** The end of a driver: [save_results]. *)
Lemma progress_end w0 self w files u w' :
  progress T w0 self w files →
  save_results self w = Some (Ok u, w') →
  let cumulative := catalogue (store self) (repos self) in
  (∃ evs, w_log w' = w_log w0 ++ evs
          ∧ saves evs = files ++ [("all_repositories", cumulative)])
  ∧ (∀ f k rb, f ∈ files → (k, rb) ∈ f.2 →
       ∃ rg, (k, rg) ∈ cumulative ∧ provenance rb ⊆ provenance rg)
  ∧ (∀ k rg, (k, rg) ∈ cumulative → provenance rg ⊆ T).
Proof.
  intros ((ops & Hrun & Ht) & (evs & Hl & Hs) & Hrows) Hsave cumulative.
  unfold save_results in Hsave. injection Hsave as _ <-.
  split_and!.
  - eexists. split; [simpl; by rewrite Hl, <-app_assoc|].
    by rewrite saves_app, Hs.
  - intros f k rb Hf Hrow. destruct (Hrows f k rb Hf Hrow) as (rg & Hrg & Hsub).
    exists rg. split; [|done]. by apply catalogue_rows_lookup.
  - intros k rg Hrow t Hin. apply catalogue_rows_lookup in Hrow.
    apply Ht. eapply tags_for_tags_of.
    by apply (proj1 (tags_provenance T ops self k HP HI Hrun Ht) rg Hrow t).
Qed.
End progress.

(** *** firebase *)

Lemma pass_tags_main Ti : Ti ∈ pass_tags → Ti ⊆ main_tags.
Proof.
  unfold pass_tags, main_tags. rewrite !elem_of_cons, elem_of_nil.
  intros [->|[->|[->|[->|[->|[]]]]]] t Ht; rewrite !elem_of_app; auto 10.
Qed.

(** X12: a run of firebase's [main] that is given a token
    ([GITHUB_TOKEN] set and not empty) and comes to its end has written
    six files, the five batch files and then the cumulative one; the
    batch scope is empty at the end; the rows of a batch file list tags
    of its own pass only, and each of them has a row in the cumulative
    file, under the same name, that lists these tags too; the
    cumulative file lists tags of [main] only. *)
Theorem main_catalogues token fuel srv w s w' :
  token ≠ "" → main (Some token) fuel srv w = Some (Ok s, w') →
  let cumulative := catalogue (store s) (repos s) in
  ∃ evs b1 b2 b3 b4 b5,
    w_log w' = w_log w ++ evs
    ∧ saves evs
      = [("repo_descriptions", b1); ("code_keywords", b2);
         ("commit_messages", b3); ("issues_and_prs", b4);
         ("firebase_files", b5); ("all_repositories", cumulative)]
    ∧ current_view s = ∅
    ∧ Forall2 (batch_of cumulative) [b1; b2; b3; b4; b5] pass_tags
    ∧ (∀ k rg, (k, rg) ∈ cumulative → provenance rg ⊆ main_tags).
Proof.
  intros Htoken Hmain. destruct token as [|a token]; [done|].
  cbv beta iota zeta delta [main] in Hmain.
  apply bindM_Ok in Hmain as (s1 & w1 & Hdesc & Hmain).
  apply bindM_Ok in Hmain as (s1' & w1' & Hsave1 & Hmain).
  apply bindM_Ok in Hmain as (s2 & w2 & Hcode & Hmain).
  apply bindM_Ok in Hmain as (s2' & w2' & Hsave2 & Hmain).
  apply bindM_Ok in Hmain as (s3 & w3 & Hcommits & Hmain).
  apply bindM_Ok in Hmain as (s3' & w3' & Hsave3 & Hmain).
  apply bindM_Ok in Hmain as (s4 & w4 & Hissues & Hmain).
  apply bindM_Ok in Hmain as (s4' & w4' & Hsave4 & Hmain).
  apply bindM_Ok in Hmain as (s5 & w5 & Hfiles & Hmain).
  apply bindM_Ok in Hmain as (s5' & w5' & Hsave5 & Hmain).
  apply bindM_Ok in Hmain as (u & w6 & Hall & Hret).
  apply ret_Ok in Hret as [-> ->].
  pose proof main_tags_plain as HP. pose proof main_tags_independent as HI.
  pose proof (progress_start main_tags w) as Hp0.
  assert (current_view init = ∅) as He0 by done.
  pose proof (pass_tags_main) as Hsub. unfold pass_tags in Hsub.
  assert (searching ((λ w, description_tag "Firebase" w.1 w.2)
                       <$> search_repositories_time_ranges) init w s1 w1)
    as Hsr1.
  { eapply search_repositories_in_searching; [|exact Hdesc].
    intros win Hwin.
    by apply (list_elem_of_fmap_2 (λ w, description_tag "Firebase" w.1 w.2)). }
  destruct (progress_pass main_tags HP HI _ _ _ _ _ _ _ _ _ _
              (Hsub _ ltac:(left)) Hp0 He0 Hsr1 Hsave1) as (Hp1 & He1 & Hb1).
  assert (searching (keyword ← firebase_keywords;
                     (λ so, code_tag (quoted keyword) so.1 so.2)
                       <$> sort_orders) s1' w1' s2 w2) as Hsr2.
  { eapply for_each_searching; [|exact Hcode].
    intros keyword sa wa sb wb Hk. apply for_each_searching.
    intros so sc wc sd wd Hso. apply search_code_searching.
    apply list_elem_of_bind. exists keyword. split; [|done].
    by apply (list_elem_of_fmap_2 (λ so, code_tag (quoted keyword) so.1 so.2)). }
  destruct (progress_pass main_tags HP HI _ _ _ _ _ _ _ _ _ _
              (Hsub _ ltac:(right; left)) Hp1 He1 Hsr2 Hsave2)
    as (Hp2 & He2 & Hb2).
  assert (searching ((λ keyword, commit_tag (quoted keyword))
                       <$> firebase_keywords) s2' w2' s3 w3) as Hsr3.
  { eapply for_each_searching; [|exact Hcommits].
    intros keyword sa wa sb wb Hk. apply search_commits_searching.
    by apply (list_elem_of_fmap_2 (λ keyword, commit_tag (quoted keyword))). }
  destruct (progress_pass main_tags HP HI _ _ _ _ _ _ _ _ _ _
              (Hsub _ ltac:(do 2 right; left)) Hp2 He2 Hsr3 Hsave3)
    as (Hp3 & He3 & Hb3).
  assert (searching (keyword ← firebase_keywords;
                     (λ w, issue_tag (quoted keyword) w.1 w.2)
                       <$> search_issues_time_ranges) s3' w3' s4 w4) as Hsr4.
  { eapply for_each_searching; [|exact Hissues].
    intros keyword sa wa sb wb Hk. apply search_issues_in_searching.
    intros win Hwin. apply list_elem_of_bind. exists keyword. split; [|done].
    by apply (list_elem_of_fmap_2 (λ w, issue_tag (quoted keyword) w.1 w.2)). }
  destruct (progress_pass main_tags HP HI _ _ _ _ _ _ _ _ _ _
              (Hsub _ ltac:(do 3 right; left)) Hp3 He3 Hsr4 Hsave4)
    as (Hp4 & He4 & Hb4).
  assert (searching (config_tag <$> firebase_files) s4' w4' s5 w5) as Hsr5.
  { eapply search_firebase_files_searching; [|exact Hfiles].
    intros f Hf. by apply list_elem_of_fmap_2. }
  destruct (progress_pass main_tags HP HI _ _ _ _ _ _ _ _ _ _
              (Hsub _ ltac:(do 4 right; left)) Hp4 He4 Hsr5 Hsave5)
    as (Hp5 & He5 & Hb5).
  destruct (progress_end main_tags HP HI _ _ _ _ _ _ Hp5 Hall)
    as ((evs & Hl & Hs) & Hrows & Htags).
  exists evs. do 5 eexists. split_and!; [exact Hl|exact Hs|exact He5| |exact Htags].
  unfold pass_tags. simpl in Hrows.
  repeat (constructor;
          [intros k rb Hrow; split;
           [first [by eapply Hb1|by eapply Hb2|by eapply Hb3|by eapply Hb4
                  |by eapply Hb5]|];
           eapply (Hrows (_, _)); [|exact Hrow];
           repeat first [left|right]|]).
  constructor.
Qed.

Lemma main_catalogues_witness :
  ∃ s w',
    main (Some "token") 1 SampleServer.answers SampleServer.start_of_day
    = Some (Ok s, w')
    ∧ let cumulative := catalogue (store s) (repos s) in
      ∃ evs b1 b2 b3 b4 b5,
        w_log w' = w_log SampleServer.start_of_day ++ evs
        ∧ saves evs
          = [("repo_descriptions", b1); ("code_keywords", b2);
             ("commit_messages", b3); ("issues_and_prs", b4);
             ("firebase_files", b5); ("all_repositories", cumulative)]
        ∧ current_view s = ∅
        ∧ Forall2 (batch_of cumulative) [b1; b2; b3; b4; b5] pass_tags
        ∧ (∀ k rg, (k, rg) ∈ cumulative → provenance rg ⊆ main_tags).
Proof.
  eexists _, _. split; [vm_compute; reflexivity|].
  apply (main_catalogues "token" 1 SampleServer.answers
           SampleServer.start_of_day); [done|].
  vm_compute. reflexivity.
Defined.

(** ** A server that is down *)

Lemma fetches_app l1 l2 : fetches (l1 ++ l2) = fetches l1 ++ fetches l2.
Proof. apply omap_app. Qed.

Lemma fetches_save search_type rows : fetches [Save search_type rows] = [].
Proof. done. Qed.

Lemma requests_sent_fetches log : requests_sent log = length (fetches log).
Proof.
  unfold requests_sent, fetches.
  induction log as [|e log IH]; [done|].
  destruct e;
    [rewrite filter_cons_True by done
    |rewrite filter_cons_False by (by intros ?)..];
    simpl; by rewrite IH.
Qed.

Lemma fresh_not_in x l : fresh x l = true → x ∉ l.
Proof.
  induction l as [|y l IH]; simpl; [intros _; apply not_elem_of_nil|].
  intros [Hxy Hl]%andb_true_iff. apply not_elem_of_cons. split; [|by apply IH].
  apply negb_true_iff, N.eqb_neq in Hxy. done.
Qed.

Lemma distinct_NoDup l : distinct l = true → NoDup l.
Proof.
  induction l as [|x l IH]; simpl; [constructor|].
  intros [Hx Hl]%andb_true_iff. constructor; [by apply fresh_not_in|by apply IH].
Qed.

Lemma main_requests_distinct : NoDup main_requests.
Proof.
  apply (NoDup_fmap_1 request_code), distinct_NoDup.
  vm_compute. reflexivity.
Qed.

Lemma main_requests_length : length main_requests = 405%nat.
Proof. reflexivity. Qed.

Lemma make_request_failing fuel srv r w :
  (1 ≤ fuel)%nat → failing (srv r (w_clock w) 1%nat).2 →
  make_request fuel srv r w
  = Some (Ok {| total_count := 0; items := [] |},
          {| w_clock := w_clock w + (srv r (w_clock w) 1%nat).1;
             w_log := w_log w ++ [Fetch r 1] |}).
Proof.
  intros Hfuel Hfail. destruct fuel as [|fuel]; [lia|].
  unfold make_request, _make_request. simpl. unfold iteration. simpl.
  destruct (srv r (w_clock w) 1%nat) as [elapsed [h data|code h|]];
    simpl in *; [done| |done].
  by rewrite decide_False.
Qed.

Lemma bindM_intro {A B} (m : M A) (f : A → M B) w a w1 r :
  m w = Some (Ok a, w1) → f a w1 = r → bindM m f w = r.
Proof. unfold bindM. by intros -> <-. Qed.

Lemma for_each_idle {A} (g : A → list request)
    (body : A → GitHubSearch → M GitHubSearch) l :
  (∀ x, x ∈ l → idle (g x) (body x)) → idle (l ≫= g) (for_each body l).
Proof.
  induction l as [|x l IH]; intros Hbody s w.
  - exists w, []. by rewrite app_nil_r.
  - destruct (Hbody x ltac:(by left) s w) as (w1 & evs1 & Hx & Hl1 & Hs1 & Hn1).
    destruct (IH (λ y Hy, Hbody y ltac:(by right)) s w1)
      as (w2 & evs2 & Hrest & Hl2 & Hs2 & Hn2).
    exists w2, (evs1 ++ evs2). split_and!.
    + simpl. unfold bindM. by rewrite Hx.
    + by rewrite Hl2, Hl1, <-app_assoc.
    + by rewrite saves_app, Hs1, Hs2.
    + rewrite fetches_app, Hn1, Hn2. csimpl. by rewrite fmap_app.
Qed.

Section outage.
Context (fuel : nat) (srv : server).
Hypothesis Hfuel : (1 ≤ fuel)%nat.
Hypothesis Hdown : ∀ r now page, failing (srv r now page).2.

Lemma search_code_idle query so flag :
  idle [ {| url_of := "https://api.github.com/search/code"; q_of := query;
            per_page_of := 100; sort_of := Some so.1;
            order_of := Some so.2 |} ]
       (search_code fuel srv query so flag).
Proof.
  intros s w. unfold search_code, bindM.
  rewrite make_request_failing by done. simpl.
  eexists _, [_]. split_and!; done.
Qed.

Lemma search_commits_idle query flag :
  idle [ {| url_of := "https://api.github.com/search/commits"; q_of := query;
            per_page_of := 100; sort_of := None; order_of := None |} ]
       (search_commits fuel srv query flag).
Proof.
  intros s w. unfold search_commits, bindM.
  rewrite make_request_failing by done. simpl.
  eexists _, [_]. split_and!; done.
Qed.

Lemma search_issues_in_idle ws query flag :
  idle (w ← ws;
        [ {| url_of := "https://api.github.com/search/issues";
             q_of := query +:+ " created:" +:+ w.1 +:+ ".." +:+ w.2;
             per_page_of := 100; sort_of := None; order_of := None |} ])
       (search_issues_in ws fuel srv query flag).
Proof.
  unfold search_issues_in. apply for_each_idle. intros win _ s w.
  unfold bindM. rewrite make_request_failing by done. simpl. unfold ret.
  eexists _, [_]. split_and!; done.
Qed.

Lemma search_repositories_in_idle ws query flag :
  idle (w ← ws;
        [ {| url_of := "https://api.github.com/search/repositories";
             q_of := query +:+ " in:description created:" +:+ w.1
                     +:+ ".." +:+ w.2;
             per_page_of := 100;
             sort_of := Some "stars"; order_of := Some "desc" |} ])
       (search_repositories_in ws fuel srv query flag).
Proof.
  unfold search_repositories_in. apply for_each_idle. intros win _ s w.
  unfold bindM. rewrite make_request_failing by done. simpl.
  unfold lift, wait, ret. simpl.
  eexists _, [_; _].
  split_and!; [done|simpl; by rewrite <-app_assoc|done..].
Qed.

Lemma search_firebase_files_idle flag :
  idle (file_name ← firebase_files;
        [ {| url_of := "https://api.github.com/search/code";
             q_of := file_name; per_page_of := 100;
             sort_of := None; order_of := None |} ])
       (search_firebase_files fuel srv flag).
Proof.
  unfold search_firebase_files. apply for_each_idle. intros f _ s w.
  unfold bindM. rewrite make_request_failing by done. simpl.
  unfold lift, wait, ret. simpl.
  eexists _, [_; _].
  split_and!; [done|simpl; by rewrite <-app_assoc|done..].
Qed.

End outage.

(** X13: when every request fails (with an HTTP error other than 403
    or a failure of the transport), firebase's [main] still comes to
    its end: it asks for the first page of each of its 405 queries,
    once and in the order of the script, and sends nothing else; it
    raises nothing, leaves the scopes empty and writes its six files,
    all of them without rows. *)
Theorem main_survives_outage token fuel srv w :
  token ≠ "" → (1 ≤ fuel)%nat →
  (∀ r now page, failing (srv r now page).2) →
  ∃ w' evs,
    main (Some token) fuel srv w = Some (Ok init, w')
    ∧ w_log w' = w_log w ++ evs
    ∧ fetches evs = (λ r, (r, 1%nat)) <$> main_requests
    ∧ NoDup main_requests
    ∧ length main_requests = 405%nat
    ∧ requests_sent evs = 405%nat
    ∧ saves evs
      = [("repo_descriptions", []); ("code_keywords", []);
         ("commit_messages", []); ("issues_and_prs", []);
         ("firebase_files", []); ("all_repositories", [])].
Proof.
  intros Htoken Hfuel Hdown. destruct token as [|a token]; [done|].
  cbv beta iota zeta delta [main].
  pose proof (for_each_idle _ _ firebase_keywords
                (λ keyword _,
                   for_each_idle _ _ sort_orders
                     (λ so _, search_code_idle fuel srv Hfuel Hdown
                                (quoted keyword) so true))) as Hcode.
  pose proof (for_each_idle _ _ firebase_keywords
                (λ keyword _, search_commits_idle fuel srv Hfuel Hdown
                                (quoted keyword) true)) as Hcommits.
  pose proof (for_each_idle _ _ firebase_keywords
                (λ keyword _,
                   search_issues_in_idle fuel srv Hfuel Hdown
                     search_issues_time_ranges (quoted keyword) true))
    as Hissues.
  destruct (search_repositories_in_idle fuel srv Hfuel Hdown
              search_repositories_time_ranges
              "Firebase" true init w) as (w1 & e1 & H1 & Hl1 & Hs1 & Hn1).
  destruct (Hcode init
              {| w_clock := w_clock w1;
                 w_log := w_log w1 ++ [Save "repo_descriptions" []] |})
    as (w2 & e2 & H2 & Hl2 & Hs2 & Hn2).
  destruct (Hcommits init
              {| w_clock := w_clock w2;
                 w_log := w_log w2 ++ [Save "code_keywords" []] |})
    as (w3 & e3 & H3 & Hl3 & Hs3 & Hn3).
  destruct (Hissues init
              {| w_clock := w_clock w3;
                 w_log := w_log w3 ++ [Save "commit_messages" []] |})
    as (w4 & e4 & H4 & Hl4 & Hs4 & Hn4).
  destruct (search_firebase_files_idle fuel srv Hfuel Hdown true init
              {| w_clock := w_clock w4;
                 w_log := w_log w4 ++ [Save "issues_and_prs" []] |})
    as (w5 & e5 & H5 & Hl5 & Hs5 & Hn5).
  assert (fetches
            (e1 ++ [Save "repo_descriptions" []] ++ e2
             ++ [Save "code_keywords" []] ++ e3
             ++ [Save "commit_messages" []] ++ e4
             ++ [Save "issues_and_prs" []] ++ e5
             ++ [Save "firebase_files" []] ++ [Save "all_repositories" []])
          = (λ r, (r, 1%nat)) <$> main_requests) as Hfetches.
  { rewrite !fetches_app, Hn1, Hn2, Hn3, Hn4, Hn5, !fetches_save.
    rewrite !app_nil_l, app_nil_r. unfold main_requests.
    by rewrite !fmap_app. }
  exists {| w_clock := w_clock w5;
            w_log := (w_log w5 ++ [Save "firebase_files" []])
                     ++ [Save "all_repositories" []] |},
         (e1 ++ [Save "repo_descriptions" []] ++ e2
          ++ [Save "code_keywords" []] ++ e3
          ++ [Save "commit_messages" []] ++ e4
          ++ [Save "issues_and_prs" []] ++ e5
          ++ [Save "firebase_files" []] ++ [Save "all_repositories" []]).
  split_and!.
  - apply (bindM_intro _ _ _ _ _ _ H1).
    apply (bindM_intro _ _ _ init
             {| w_clock := w_clock w1;
                w_log := w_log w1 ++ [Save "repo_descriptions" []] |} _ eq_refl).
    apply (bindM_intro _ _ _ _ _ _ H2).
    apply (bindM_intro _ _ _ init
             {| w_clock := w_clock w2;
                w_log := w_log w2 ++ [Save "code_keywords" []] |} _ eq_refl).
    apply (bindM_intro _ _ _ _ _ _ H3).
    apply (bindM_intro _ _ _ init
             {| w_clock := w_clock w3;
                w_log := w_log w3 ++ [Save "commit_messages" []] |} _ eq_refl).
    apply (bindM_intro _ _ _ _ _ _ H4).
    apply (bindM_intro _ _ _ init
             {| w_clock := w_clock w4;
                w_log := w_log w4 ++ [Save "issues_and_prs" []] |} _ eq_refl).
    apply (bindM_intro _ _ _ _ _ _ H5).
    apply (bindM_intro _ _ _ init
             {| w_clock := w_clock w5;
                w_log := w_log w5 ++ [Save "firebase_files" []] |} _ eq_refl).
    reflexivity.
  - simpl. rewrite Hl5. simpl. rewrite Hl4. simpl. rewrite Hl3. simpl.
    rewrite Hl2. simpl. rewrite Hl1. by rewrite <-!app_assoc.
  - exact Hfetches.
  - exact main_requests_distinct.
  - exact main_requests_length.
  - rewrite requests_sent_fetches, Hfetches, length_fmap.
    exact main_requests_length.
  - rewrite !saves_app, Hs1, Hs2, Hs3, Hs4, Hs5. done.
Qed.

Lemma main_survives_outage_witness :
  ∃ w' evs,
    main (Some "token") 1 SampleServer.down SampleServer.start_of_day
    = Some (Ok init, w')
    ∧ w_log w' = w_log SampleServer.start_of_day ++ evs
    ∧ fetches evs = (λ r, (r, 1%nat)) <$> main_requests
    ∧ NoDup main_requests
    ∧ length main_requests = 405%nat
    ∧ requests_sent evs = 405%nat
    ∧ saves evs
      = [("repo_descriptions", []); ("code_keywords", []);
         ("commit_messages", []); ("issues_and_prs", []);
         ("firebase_files", []); ("all_repositories", [])].
Proof.
  apply (main_survives_outage "token" 1 SampleServer.down
           SampleServer.start_of_day); [done|lia|].
  intros r now page. exact I.
Defined.

(** ** The order of a dictionary *)

Lemma first_seen_snoc ks k :
  first_seen (ks ++ [k])
  = if decide (k ∈ first_seen ks) then first_seen ks else first_seen ks ++ [k].
Proof. unfold first_seen. by rewrite foldl_app. Qed.

Lemma StronglySorted_snoc {A} (R : relation A) l x :
  StronglySorted R l → Forall (λ y, R y x) l → StronglySorted R (l ++ [x]).
Proof.
  induction 1 as [|y l Hs IH Hall]; intros Hx; simpl.
  - by repeat constructor.
  - apply Forall_cons in Hx as [Hy Hx]. constructor; [by apply IH|].
    apply Forall_app. split; [done|]. by constructor.
Qed.

Lemma StronglySorted_mono {A} (R R' : relation A) l :
  (∀ a b, R a b → R' a b) → StronglySorted R l → StronglySorted R' l.
Proof.
  intros HR. induction 1 as [|x l Hs IH Hall]; constructor; [done|].
  eapply Forall_impl; [exact Hall|]. auto.
Qed.

Lemma by_location_sorted (scope : gmap string nat) :
  StronglySorted (λ a b : string * nat, (a.2 ≤ b.2)%nat) (by_location scope).
Proof.
  unfold by_location.
  pose proof (sorted_by_sorted (λ a b : string * nat, bool_decide (a.2 ≤ b.2)%nat))
    as Hs.
  eapply StronglySorted_mono; [|apply Hs].
  - intros a b Hab. by apply bool_decide_eq_true in Hab.
  - intros x y. rewrite !bool_decide_eq_true. lia.
  - intros x y z. rewrite !bool_decide_eq_true. lia.
Qed.

Lemma elem_of_by_location (scope : gmap string nat) k (l : nat) :
  (k, l) ∈ by_location scope ↔ scope !! k = Some l.
Proof.
  unfold by_location. rewrite sorted_by_perm. apply elem_of_map_to_list.
Qed.

Lemma by_location_insert (scope : gmap string nat) k (L : nat) :
  scope !! k = None →
  (∀ k' l, scope !! k' = Some l → (l < L)%nat) →
  (∀ k1 k2 l, scope !! k1 = Some l → scope !! k2 = Some l → k1 = k2) →
  by_location (<[k := L]> scope) = by_location scope ++ [(k, L)].
Proof.
  intros Hnew Hbound Hinj.
  apply (StronglySorted_unique_strong (λ a b : string * nat, (a.2 ≤ b.2)%nat)).
  - intros [k1 l1] [k2 l2] H1 H2 Hle Hge. simpl in *.
    assert (l1 = l2) as <- by lia.
    apply elem_of_by_location in H1.
    apply elem_of_app in H2 as [H2|H2].
    + apply elem_of_by_location in H2.
      destruct (decide (k1 = k)) as [->|Hne].
      * rewrite lookup_insert_eq in H1. injection H1 as <-.
        apply Hbound in H2. lia.
      * rewrite lookup_insert_ne in H1 by done. f_equal. by eapply Hinj.
    + apply list_elem_of_singleton in H2 as [= -> ->].
      destruct (decide (k1 = k)) as [->|Hne]; [done|].
      rewrite lookup_insert_ne in H1 by done. apply Hbound in H1. lia.
  - apply by_location_sorted.
  - apply StronglySorted_snoc; [apply by_location_sorted|].
    apply Forall_forall. intros [k' l] Hin. apply elem_of_by_location in Hin.
    apply Hbound in Hin. simpl. lia.
  - unfold by_location. rewrite !sorted_by_perm.
    rewrite map_to_list_insert by done. by rewrite Permutation_cons_append.
Qed.

Lemma by_location_names (scope : gmap string nat) k :
  k ∈ (by_location scope).*1 ↔ is_Some (scope !! k).
Proof.
  rewrite list_elem_of_fmap. split.
  - intros ([k' l] & -> & Hin). apply elem_of_by_location in Hin. by exists l.
  - intros [l Hl]. exists (k, l). split; [done|]. by apply elem_of_by_location.
Qed.

Lemma by_location_bind (scope : gmap string nat) k (L : nat) :
  (∀ k' l, scope !! k' = Some l → (l < L)%nat) →
  (∀ k1 k2 l, scope !! k1 = Some l → scope !! k2 = Some l → k1 = k2) →
  (by_location (bind_loc k L scope)).*1
  = if decide (k ∈ (by_location scope).*1) then (by_location scope).*1
    else (by_location scope).*1 ++ [k].
Proof.
  intros Hbound Hinj. unfold bind_loc.
  destruct (scope !! k) as [l|] eqn:Hk.
  - rewrite decide_True; [done|]. apply by_location_names. by exists l.
  - rewrite decide_False.
    + rewrite by_location_insert by done. by rewrite fmap_app.
    + rewrite by_location_names, Hk. by intros [? ?].
Qed.

Lemma omap_lookup_names (h : list record) (l : list (string * nat)) :
  Forall (λ kl : string * nat, (kl.2 < length h)%nat) l →
  (omap (λ kl, (λ r, (kl.1, r)) <$> h !! kl.2) l).*1 = l.*1.
Proof.
  induction 1 as [|[k i] rest Hl _ IH]; [done|].
  apply lookup_lt_is_Some in Hl as [r Hr]. simpl in Hr.
  rewrite fmap_cons, <-IH. csimpl. by rewrite Hr.
Qed.

Lemma dict_items_names (h : list record) (scope : gmap string nat) :
  (∀ k l, scope !! k = Some l → (l < length h)%nat) →
  (dict_items h scope).*1 = (by_location scope).*1.
Proof.
  intros Hbound. unfold dict_items. fold (by_location scope).
  apply omap_lookup_names.
  apply Forall_forall. intros [k l] Hin. apply elem_of_by_location in Hin.
  by eapply Hbound.
Qed.

Lemma exec_order o self self' :
  wf self → exec o self = Ok self' →
  (by_location (repos self')).*1
  = (match o with
     | OpAdd repo_data _ _ =>
         match identity repo_data with
         | Some k => if decide (k ∈ (by_location (repos self)).*1)
                     then (by_location (repos self)).*1
                     else (by_location (repos self)).*1 ++ [k]
         | None => (by_location (repos self)).*1
         end
     | OpClear => (by_location (repos self)).*1
     end)
  ∧ (by_location (current_search_repos self')).*1
    = (match o with
       | OpAdd repo_data _ true =>
           match identity repo_data with
           | Some k =>
               if decide (k ∈ (by_location (current_search_repos self)).*1)
               then (by_location (current_search_repos self)).*1
               else (by_location (current_search_repos self)).*1 ++ [k]
           | None => (by_location (current_search_repos self)).*1
           end
       | OpAdd _ _ false => (by_location (current_search_repos self)).*1
       | OpClear => []
       end).
Proof.
  intros Hwf Hexec. destruct o as [d tag flag|]; simpl in Hexec.
  - destruct (add_repository_added _ _ _ _ _ Hexec)
      as (repo & k & info & _ & -> & _ & _ & -> & ->).
    split.
    + apply by_location_bind.
      * intros k' l Hl. apply (wf_bound _ Hwf k'). by left.
      * intros k1 k2 l H1 H2. apply (wf_inj _ Hwf k1 k2 l); by left.
    + destruct flag; [|done]. apply by_location_bind.
      * intros k' l Hl. apply (wf_bound _ Hwf k'). by right.
      * intros k1 k2 l H1 H2. apply (wf_inj _ Hwf k1 k2 l); by right.
  - injection Hexec as <-. simpl. split; [done|].
    unfold by_location. by rewrite map_to_list_empty.
Qed.

Lemma run_order ops :
  ∀ self self' accR accC,
    wf self → run ops self = Ok self' →
    (by_location (repos self)).*1 = first_seen accR →
    (by_location (current_search_repos self)).*1 = first_seen accC →
    (by_location (repos self')).*1 = first_seen (accR ++ identities ops)
    ∧ (by_location (current_search_repos self')).*1
      = first_seen (batch_identities accC ops).
Proof.
  induction ops as [|o ops IH]; intros self self' accR accC Hwf Hrun HR HC.
  - injection Hrun as <-. unfold identities. simpl. by rewrite app_nil_r.
  - simpl in Hrun. destruct (exec o self) as [s1|] eqn:Hexec; [|done].
    simpl in Hrun.
    destruct (exec_order o self s1 Hwf Hexec) as [HR1 HC1].
    pose proof (exec_wf _ _ _ Hwf Hexec) as Hwf1.
    rewrite identities_cons, app_assoc.
    apply (IH s1 self' (accR ++ identities [o])
             (match o with
              | OpAdd d _ true => accC ++ option_list (identity d)
              | OpAdd _ _ false => accC
              | OpClear => []
              end) Hwf1 Hrun).
    + rewrite HR1. unfold identities. destruct o as [d tag flag|]; simpl.
      * destruct (identity d) as [k|]; simpl.
        -- by rewrite first_seen_snoc, HR.
        -- by rewrite app_nil_r.
      * by rewrite app_nil_r.
    + rewrite HC1. destruct o as [d tag [|]|]; simpl; [|done..].
      destruct (identity d) as [k|]; simpl.
      * by rewrite first_seen_snoc, HC.
      * by rewrite app_nil_r.
Qed.

(** X11: after any run a scope lists its names ([dict.items()]) in
    the order in which they were first merged into it: the global scope
    since the start of the run, the batch scope since its last
    clear. *)
Theorem scopes_list_names_as_first_seen ops s :
  run ops init = Ok s →
  (dict_items (store s) (repos s)).*1 = first_seen (identities ops)
  ∧ (dict_items (store s) (current_search_repos s)).*1
    = first_seen (batch_identities [] ops).
Proof.
  intros Hrun. pose proof (reachable_wf _ _ Hrun) as Hwf.
  destruct (run_order ops init s [] [] wf_init Hrun) as [HR HC].
  { unfold by_location, init. simpl. by rewrite map_to_list_empty. }
  { unfold by_location, init. simpl. by rewrite map_to_list_empty. }
  rewrite !dict_items_names.
  - done.
  - intros k l Hl. apply (wf_bound _ Hwf k). by right.
  - intros k l Hl. apply (wf_bound _ Hwf k). by left.
Qed.

Lemma scopes_list_names_as_first_seen_witness :
  let ops := [OpAdd Sample.gizmo (commit_tag "x") true;
              OpAdd Sample.widget (commit_tag "x") true;
              OpAdd Sample.gizmo (commit_tag "y") true;
              OpClear;
              OpAdd Sample.widget (commit_tag "z") true] in
  first_seen (identities ops) = ["acme/gizmo"; "acme/widget"]
  ∧ (dict_items (store (Sample.after ops)) (repos (Sample.after ops))).*1
    = first_seen (identities ops)
  ∧ (dict_items (store (Sample.after ops))
       (current_search_repos (Sample.after ops))).*1
    = first_seen (batch_identities [] ops).
Proof.
  intros ops. split; [vm_compute; reflexivity|].
  apply (scopes_list_names_as_first_seen ops (Sample.after ops)).
  vm_compute. reflexivity.
Defined.

(** *** trae *)

Lemma trae_tags_plain : Forall plain TraeScript.main_tags.
Proof. apply Forall_plainb. vm_compute. reflexivity. Qed.

Lemma trae_tags_independent : independent TraeScript.main_tags.
Proof. apply independentb_independent. vm_compute. reflexivity. Qed.

Lemma trae_pass_tags_main Ti :
  Ti ∈ TraeScript.pass_tags → Ti ⊆ TraeScript.main_tags.
Proof.
  unfold TraeScript.main_tags, TraeScript.pass_tags.
  rewrite !elem_of_cons, elem_of_nil.
  intros [->|[->|[->|[]]]] t Ht; cbn [concat]; rewrite !elem_of_app; auto 10.
Qed.

(** X14: a run of trae's [main] that is given a token
    ([GITHUB_TOKEN] set and not empty) and comes to its end has written
    four files, the three batch files and then the cumulative one; the
    batch scope is empty at the end; the rows of a batch file list tags
    of its own pass only, and each of them has a row in the cumulative
    file, under the same name, that lists these tags too; the
    cumulative file lists tags of [main] only. *)
Theorem trae_main_catalogues token fuel srv w s w' :
  token ≠ "" → TraeScript.main (Some token) fuel srv w = Some (Ok s, w') →
  let cumulative := catalogue (store s) (repos s) in
  ∃ evs b1 b2 b3,
    w_log w' = w_log w ++ evs
    ∧ saves evs
      = [("code_keywords", b1); ("commit_messages", b2);
         ("issues_and_prs", b3); ("all_repositories", cumulative)]
    ∧ current_view s = ∅
    ∧ Forall2 (batch_of cumulative) [b1; b2; b3] TraeScript.pass_tags
    ∧ (∀ k rg, (k, rg) ∈ cumulative → provenance rg ⊆ TraeScript.main_tags).
Proof.
  intros Htoken Hmain. destruct token as [|a token]; [done|].
  cbv beta iota zeta delta [TraeScript.main] in Hmain.
  apply bindM_Ok in Hmain as (s1 & w1 & Hcode & Hmain).
  apply bindM_Ok in Hmain as (s1' & w1' & Hsave1 & Hmain).
  apply bindM_Ok in Hmain as (s2 & w2 & Hcommits & Hmain).
  apply bindM_Ok in Hmain as (s2' & w2' & Hsave2 & Hmain).
  apply bindM_Ok in Hmain as (s3 & w3 & Hissues & Hmain).
  apply bindM_Ok in Hmain as (s3' & w3' & Hsave3 & Hmain).
  apply bindM_Ok in Hmain as (u & w4 & Hall & Hret).
  apply ret_Ok in Hret as [-> ->].
  pose proof trae_tags_plain as HP. pose proof trae_tags_independent as HI.
  pose proof (progress_start TraeScript.main_tags w) as Hp0.
  assert (current_view init = ∅) as He0 by done.
  pose proof trae_pass_tags_main as Hsub. unfold TraeScript.pass_tags in Hsub.
  assert (searching (keyword ← TraeScript.trae_keywords;
                     (λ so, code_tag (quoted keyword) so.1 so.2)
                       <$> sort_orders) init w s1 w1) as Hsr1.
  { eapply for_each_searching; [|exact Hcode].
    intros keyword sa wa sb wb Hk. apply for_each_searching.
    intros so sc wc sd wd Hso. apply search_code_searching.
    apply list_elem_of_bind. exists keyword. split; [|done].
    by apply (list_elem_of_fmap_2 (λ so, code_tag (quoted keyword) so.1 so.2)). }
  destruct (progress_pass _ HP HI _ _ _ _ _ _ _ _ _ _
              (Hsub _ ltac:(left)) Hp0 He0 Hsr1 Hsave1) as (Hp1 & He1 & Hb1).
  assert (searching ((λ keyword, commit_tag (quoted keyword))
                       <$> TraeScript.trae_keywords) s1' w1' s2 w2) as Hsr2.
  { eapply for_each_searching; [|exact Hcommits].
    intros keyword sa wa sb wb Hk. apply search_commits_searching.
    by apply (list_elem_of_fmap_2 (λ keyword, commit_tag (quoted keyword))). }
  destruct (progress_pass _ HP HI _ _ _ _ _ _ _ _ _ _
              (Hsub _ ltac:(right; left)) Hp1 He1 Hsr2 Hsave2)
    as (Hp2 & He2 & Hb2).
  assert (searching (keyword ← TraeScript.trae_keywords;
                     (λ w, issue_tag (quoted keyword) w.1 w.2)
                       <$> Trae.search_issues_time_ranges) s2' w2' s3 w3)
    as Hsr3.
  { eapply for_each_searching; [|exact Hissues].
    intros keyword sa wa sb wb Hk. apply search_issues_in_searching.
    intros win Hwin. apply list_elem_of_bind. exists keyword. split; [|done].
    by apply (list_elem_of_fmap_2 (λ w, issue_tag (quoted keyword) w.1 w.2)). }
  destruct (progress_pass _ HP HI _ _ _ _ _ _ _ _ _ _
              (Hsub _ ltac:(do 2 right; left)) Hp2 He2 Hsr3 Hsave3)
    as (Hp3 & He3 & Hb3).
  destruct (progress_end _ HP HI _ _ _ _ _ _ Hp3 Hall)
    as ((evs & Hl & Hs) & Hrows & Htags).
  exists evs. do 3 eexists.
  split_and!; [exact Hl|exact Hs|exact He3| |exact Htags].
  unfold TraeScript.pass_tags. simpl in Hrows.
  repeat (constructor;
          [intros k rb Hrow; split;
           [first [by eapply Hb1|by eapply Hb2|by eapply Hb3]|];
           eapply (Hrows (_, _)); [|exact Hrow];
           repeat first [left|right]|]).
  constructor.
Qed.

Lemma trae_main_catalogues_witness :
  ∃ s w',
    TraeScript.main (Some "token") 1 SampleServer.answers
      SampleServer.start_of_day
    = Some (Ok s, w')
    ∧ let cumulative := catalogue (store s) (repos s) in
      ∃ evs b1 b2 b3,
        w_log w' = w_log SampleServer.start_of_day ++ evs
        ∧ saves evs
          = [("code_keywords", b1); ("commit_messages", b2);
             ("issues_and_prs", b3); ("all_repositories", cumulative)]
        ∧ current_view s = ∅
        ∧ Forall2 (batch_of cumulative) [b1; b2; b3] TraeScript.pass_tags
        ∧ (∀ k rg, (k, rg) ∈ cumulative
                   → provenance rg ⊆ TraeScript.main_tags).
Proof.
  eexists _, _. split; [vm_compute; reflexivity|].
  apply (trae_main_catalogues "token" 1 SampleServer.answers
           SampleServer.start_of_day); [done|].
  vm_compute. reflexivity.
Defined.

(** *** windsurf *)

(** Without the unwrapping, an item is filed as the firebase aggregator
    files the item stripped of its [repository] key. *)
Lemma windsurf_add_repository repo_data tag flag self :
  Windsurf._add_repository repo_data tag flag self
  = _add_repository (delete "repository" repo_data) tag flag self.
Proof.
  unfold Windsurf._add_repository, _add_repository, select_repo.
  rewrite lookup_delete_eq. simpl.
  unfold add_repo, getitem_str, repo_info, getitem.
  by rewrite !lookup_delete_ne.
Qed.

Lemma for_items_windsurf tag items :
  ∀ self self',
    for_items (λ item, Windsurf._add_repository item tag true) items self
    = Ok self' →
    ∃ ops, run ops self = Ok self' ∧ tags_of ops ⊆ [tag] ∧ tracked ops.
Proof.
  induction items as [|i items IH]; intros self self' Hrun.
  - injection Hrun as <-. exists [].
    split_and!; [done|apply list_subseteq_nil|constructor].
  - simpl in Hrun. rewrite windsurf_add_repository in Hrun.
    destruct (_add_repository _ tag true self) as [s1|] eqn:Hadd; [|done].
    simpl in Hrun. destruct (IH _ _ Hrun) as (ops & Hops & Ht & Htr).
    exists (OpAdd (delete "repository" i) tag true :: ops). split_and!.
    + simpl. by rewrite Hadd.
    + rewrite tags_of_cons. intros t [->|?]%elem_of_cons; [by left|auto].
    + by constructor.
Qed.

Lemma windsurf_search_searching fuel srv query self w self' w' :
  WindsurfScript.search_repositories_by_description fuel srv query true self w
  = Some (Ok self', w') →
  searching ((λ w, description_tag query w.1 w.2)
               <$> Windsurf.search_repositories_time_ranges) self w self' w'.
Proof.
  unfold WindsurfScript.search_repositories_by_description.
  apply for_each_searching. intros win s w0 s' w0' Hin Hbody.
  apply bindM_Ok in Hbody as (data & w1 & Hreq & Hrest).
  apply bindM_Ok in Hrest as (s1 & w2 & Hlift & Hrest).
  apply bindM_Ok in Hrest as (u & w3 & Hwait & Hret).
  apply ret_Ok in Hret as [-> ->].
  apply lift_Ok in Hlift as [Hitems ->].
  eapply searching_trans; [|by eapply wait_searching].
  split; [|by eapply make_request_log].
  destruct (for_items_windsurf _ _ _ _ Hitems) as (ops & Hops & Ht & Htr).
  exists ops. split_and!; [done| |done]. intros t Hin'. apply Ht in Hin'.
  apply list_elem_of_singleton in Hin' as ->.
  by apply (list_elem_of_fmap_2 (λ w, description_tag query w.1 w.2)).
Qed.

(** With batch tracking and no batch clear both scopes hold the same
    objects under the same names. *)
Lemma tracked_scopes_equal ops :
  ∀ self self', run ops self = Ok self' → tracked ops →
    current_search_repos self = repos self →
    current_search_repos self' = repos self'.
Proof.
  induction ops as [|o ops IH]; intros self self' Hrun Htr Heq.
  - by injection Hrun as <-.
  - apply Forall_cons in Htr as [Ho Htr].
    destruct o as [d tag flag|]; [|done]. subst flag. simpl in Hrun.
    destruct (_add_repository d tag true self) as [s1|] eqn:Hadd; [|done].
    simpl in Hrun. eapply IH; [done..|].
    destruct (add_repository_added _ _ _ _ _ Hadd)
      as (repo & k & info & _ & _ & _ & _ & -> & ->).
    by rewrite Heq.
Qed.

Lemma windsurf_tags_plain : Forall plain WindsurfScript.main_tags.
Proof. apply Forall_plainb. vm_compute. reflexivity. Qed.

Lemma windsurf_tags_independent : independent WindsurfScript.main_tags.
Proof. apply independentb_independent. vm_compute. reflexivity. Qed.

(** X15: a run of windsurf's [main] that is given a token
    ([GITHUB_TOKEN] set and not empty) and comes to its end has written
    one file, the cumulative one; the batch scope, which this script
    never clears, holds the same dictionaries under the same names as
    the global scope; the file lists tags of the description search
    only. *)
Theorem windsurf_main_catalogue token fuel srv w s w' :
  token ≠ "" → WindsurfScript.main (Some token) fuel srv w = Some (Ok s, w') →
  let cumulative := catalogue (store s) (repos s) in
  ∃ evs,
    w_log w' = w_log w ++ evs
    ∧ saves evs = [("all_repositories", cumulative)]
    ∧ current_search_repos s = repos s
    ∧ (∀ k rg, (k, rg) ∈ cumulative → provenance rg ⊆ WindsurfScript.main_tags).
Proof.
  intros Htoken Hmain. destruct token as [|a token]; [done|].
  cbv beta iota zeta delta [WindsurfScript.main] in Hmain.
  apply bindM_Ok in Hmain as (s1 & w1 & Hdesc & Hmain).
  apply bindM_Ok in Hmain as (u & w2 & Hall & Hret).
  apply ret_Ok in Hret as [-> ->].
  pose proof windsurf_tags_plain as HP.
  pose proof windsurf_tags_independent as HI.
  apply windsurf_search_searching in Hdesc as Hsr.
  fold WindsurfScript.main_tags in Hsr.
  pose proof (progress_searching _ _ _ _ _ _ _
                (progress_start WindsurfScript.main_tags w) Hsr) as Hp.
  destruct (progress_end _ HP HI _ _ _ _ _ _ Hp Hall)
    as ((evs & Hl & Hs) & _ & Htags).
  exists evs. split_and!; [exact Hl|exact Hs| |exact Htags].
  destruct Hsr as [(ops & Hrun & _ & Htr) _].
  by apply (tracked_scopes_equal ops init s1).
Qed.

Lemma windsurf_main_catalogue_witness :
  ∃ s w',
    WindsurfScript.main (Some "token") 1 SampleServer.answers
      SampleServer.start_of_day
    = Some (Ok s, w')
    ∧ let cumulative := catalogue (store s) (repos s) in
      ∃ evs,
        w_log w' = w_log SampleServer.start_of_day ++ evs
        ∧ saves evs = [("all_repositories", cumulative)]
        ∧ current_search_repos s = repos s
        ∧ (∀ k rg, (k, rg) ∈ cumulative
                   → provenance rg ⊆ WindsurfScript.main_tags).
Proof.
  eexists _, _. split; [vm_compute; reflexivity|].
  apply (windsurf_main_catalogue "token" 1 SampleServer.answers
           SampleServer.start_of_day); [done|].
  vm_compute. reflexivity.
Defined.

(** ** Exceptions *)

Lemma quiet_ret {A} (a : A) : quiet (ret a).
Proof. intros w r w' [= <- <-]. exists []. by rewrite app_nil_r. Qed.

Lemma quiet_lift {A} (x : result A) : quiet (lift x).
Proof. intros w r w' [= <- <-]. exists []. by rewrite app_nil_r. Qed.

Lemma quiet_wait seconds : quiet (wait seconds).
Proof. intros w r w' [= <- <-]. by exists [Wait seconds]. Qed.

Lemma quiet_warn line : quiet (emit (Warn line)).
Proof. intros w r w' [= <- <-]. by exists [Warn line]. Qed.

Lemma quiet_make_request fuel srv r : quiet (make_request fuel srv r).
Proof.
  intros w x w'. unfold make_request.
  destruct (_make_request _ _ _) as [st|]; [|done].
  simpl. intros [= <- <-]. eexists. split; [done|]. apply saves_io_of.
Qed.

Lemma quiet_bind {A B} (m : M A) (f : A → M B) :
  quiet m → (∀ a, quiet (f a)) → quiet (bindM m f).
Proof.
  intros Hm Hf w r w'. unfold bindM.
  destruct (m w) as [[[a|e] w1]|] eqn:Hmw; [| |done].
  - intros Hfa. destruct (Hm _ _ _ Hmw) as (evs1 & Hl1 & Hs1).
    destruct (Hf a _ _ _ Hfa) as (evs2 & Hl2 & Hs2).
    exists (evs1 ++ evs2). split.
    + by rewrite Hl2, Hl1, <-app_assoc.
    + by rewrite saves_app, Hs1, Hs2.
  - intros [= <- <-]. by eapply Hm.
Qed.

Lemma quiet_for_each {A S} (body : A → S → M S) l :
  (∀ x st, quiet (body x st)) → ∀ st, quiet (for_each body l st).
Proof.
  intros Hbody. induction l as [|x l IH]; intros st; simpl.
  - apply quiet_ret.
  - apply quiet_bind; [apply Hbody|apply IH].
Qed.

Lemma quiet_search_code fuel srv query so flag self :
  quiet (search_code fuel srv query so flag self).
Proof.
  apply quiet_bind; [apply quiet_make_request|]. intros data. apply quiet_lift.
Qed.

Lemma quiet_search_commits fuel srv query flag self :
  quiet (search_commits fuel srv query flag self).
Proof.
  apply quiet_bind; [apply quiet_make_request|]. intros data. apply quiet_lift.
Qed.

Lemma quiet_search_issues_in ws fuel srv query flag self :
  quiet (search_issues_in ws fuel srv query flag self).
Proof.
  apply quiet_for_each. intros win st.
  apply quiet_bind; [apply quiet_make_request|]. intros data.
  apply quiet_for_each. intros item st'. unfold search_issues_step.
  destruct (search_issues_item _ _ _ _ _ _) as [[s1 lines]|e];
    [|apply quiet_lift].
  apply quiet_bind; [|intros; apply quiet_ret].
  apply quiet_for_each. intros line []. apply quiet_warn.
Qed.

Lemma quiet_search_repositories_in ws fuel srv query flag self :
  quiet (search_repositories_in ws fuel srv query flag self).
Proof.
  apply quiet_for_each. intros win st.
  apply quiet_bind; [apply quiet_make_request|]. intros data.
  apply quiet_bind; [apply quiet_lift|]. intros s1.
  apply quiet_bind; [apply quiet_wait|]. intros u. apply quiet_ret.
Qed.

Lemma quiet_search_firebase_files fuel srv flag self :
  quiet (search_firebase_files fuel srv flag self).
Proof.
  apply quiet_for_each. intros f st.
  apply quiet_bind; [apply quiet_make_request|]. intros data.
  apply quiet_bind; [apply quiet_lift|]. intros s1.
  apply quiet_bind; [apply quiet_wait|]. intros u. apply quiet_ret.
Qed.

(** A search and the batch file after it, when an exception ends the
    rest of [main]. *)
Lemma interrupted_pass {A} (search : M GitHubSearch) search_type
    (rest : GitHubSearch → M A) labels w e w' :
  quiet search →
  (∀ s w1, rest s w1 = Some (Raise e, w') →
           ∃ evs, w_log w' = w_log w1 ++ evs
                  ∧ (saves evs).*1 `prefix_of` labels) →
  (s ←@ search; s' ←@ save_and_clear search_type s; rest s') w
  = Some (Raise e, w') →
  ∃ evs, w_log w' = w_log w ++ evs
         ∧ (saves evs).*1 `prefix_of` search_type :: labels.
Proof.
  intros Hq Hrest Hrun. unfold bindM at 1 in Hrun.
  destruct (search w) as [[[s1|e1] w1]|] eqn:Hs; [| |done].
  - destruct (Hq _ _ _ Hs) as (evs1 & Hl1 & Hs1).
    unfold bindM at 1 in Hrun. simpl in Hrun.
    destruct (Hrest _ _ Hrun) as (evs2 & Hl2 & Hi).
    exists (evs1 ++ Save search_type
                      (catalogue (store s1) (current_search_repos s1))
            :: evs2).
    split.
    + rewrite Hl2. simpl. rewrite Hl1, <-!app_assoc. done.
    + rewrite saves_app, Hs1. simpl. by apply prefix_cons.
  - injection Hrun as <- <-. destruct (Hq _ _ _ Hs) as (evs1 & Hl1 & Hs1).
    exists evs1. split; [done|]. rewrite Hs1. apply prefix_nil.
Qed.

(** X16: when firebase's [main] ends with an exception (a malformed
    item raises in a loop over the items), the files written until then
    are batch files of the passes before, in the order of the passes;
    the cumulative file is not written. *)
Theorem main_exception_keeps_batches token fuel srv w e w' :
  main token fuel srv w = Some (Raise e, w') →
  ∃ evs,
    w_log w' = w_log w ++ evs
    ∧ (saves evs).*1
      `prefix_of` ["repo_descriptions"; "code_keywords"; "commit_messages";
                   "issues_and_prs"; "firebase_files"].
Proof.
  destruct token as [[|a token]|]; [done| |done].
  cbv beta iota zeta delta [main].
  apply interrupted_pass; [apply quiet_search_repositories_in|].
  intros s1 w1.
  apply interrupted_pass.
  { apply quiet_for_each. intros keyword st. apply quiet_for_each.
    intros so st'. apply quiet_search_code. }
  intros s2 w2.
  apply interrupted_pass.
  { apply quiet_for_each. intros keyword st. apply quiet_search_commits. }
  intros s3 w3.
  apply interrupted_pass.
  { apply quiet_for_each. intros keyword st. apply quiet_search_issues_in. }
  intros s4 w4.
  apply interrupted_pass; [apply quiet_search_firebase_files|].
  intros s5 w5. done.
Qed.

Lemma main_exception_keeps_batches_witness :
  let srv : server :=
    λ r, if decide (url_of r = base_url +:+ "/search/commits")
         then mock_endpoint 1 100 5000
                [Sample.commit_item SampleServer.nameless]
         else SampleServer.answers r in
  ∃ w' evs,
    main (Some "token") 1 srv SampleServer.start_of_day
    = Some (Raise (KeyError "full_name"), w')
    ∧ w_log w' = w_log SampleServer.start_of_day ++ evs
    ∧ (saves evs).*1 = ["repo_descriptions"; "code_keywords"]
    ∧ (saves evs).*1
      `prefix_of` ["repo_descriptions"; "code_keywords"; "commit_messages";
                   "issues_and_prs"; "firebase_files"].
Proof.
  intros srv. eexists _, _. split; [vm_compute; reflexivity|].
  split; [reflexivity|]. split; [vm_compute; reflexivity|].
  destruct (main_exception_keeps_batches (Some "token") 1 srv
              SampleServer.start_of_day (KeyError "full_name") _
              ltac:(vm_compute; reflexivity)) as (evs & Hl & Hp).
  simpl in Hl. by rewrite <-Hl in Hp.
Defined.

(** ** The order of the provenance *)

Lemma elem_of_first_seen (l : list string) x : x ∈ first_seen l ↔ x ∈ l.
Proof.
  induction l as [|y l IH] using rev_ind; [done|].
  rewrite first_seen_snoc, elem_of_app, list_elem_of_singleton.
  case_decide as Hy.
  - rewrite IH. split; [auto|]. intros [?| ->]; [done|]. by apply IH.
  - rewrite elem_of_app, list_elem_of_singleton, IH. done.
Qed.

Lemma first_seen_NoDup (l : list string) : NoDup (first_seen l).
Proof.
  induction l as [|y l IH] using rev_ind; [constructor|].
  rewrite first_seen_snoc. case_decide as Hy; [done|].
  apply NoDup_app. split_and!; [done| |apply NoDup_singleton].
  intros x Hx ->%list_elem_of_singleton. done.
Qed.

Lemma joined_first_seen (tags : list string) :
  Forall plain tags → independent tags → tags ≠ [] →
  ∃ s, joined None tags = Some s ∧ PyStr.split_comma s = first_seen tags.
Proof.
  induction tags as [|t l IH] using rev_ind; [done|].
  intros HP HI _. rewrite joined_snoc, first_seen_snoc.
  apply Forall_app in HP as [HPl HPt]. apply Forall_cons in HPt as [HPt _].
  destruct l as [|t0 l0].
  { simpl. exists t. split; [done|]. by apply plain_split. }
  destruct IH as (s & Hs & Hsplit); [done| |done|].
  { eapply independent_subseteq; [|exact HI]. intros x Hx. apply elem_of_app. by left. }
  rewrite Hs. simpl. eexists. split; [done|].
  destruct (PyStr.contains t s) eqn:Hc.
  - rewrite decide_True; [done|].
    destruct (plain_contains_piece t s HPt Hc) as (u & Hu & Htu).
    rewrite Hsplit in Hu.
    assert (t = u) as ->; [|done].
    apply HI; [apply elem_of_app; right; by left| |done].
    apply elem_of_app. left. by apply elem_of_first_seen.
  - rewrite decide_False.
    + by rewrite PyStrFacts.split_comma_app, Hsplit, (plain_split t HPt).
    + intros Hin. rewrite <-Hsplit in Hin.
      apply PyStrFacts.split_comma_contains in Hin. congruence.
Qed.

(** X17: when the tags applied to a name are plain and none of them
    occurs inside another one, the provenance of its global record,
    read from left to right, lists these tags in the order in which
    they were first applied, each of them once. *)
Theorem provenance_in_order_of_application ops s k r :
  run ops init = Ok s →
  Forall plain (tags_for k ops) → independent (tags_for k ops) →
  repos_view s !! k = Some r →
  provenance r = first_seen (tags_for k ops) ∧ NoDup (provenance r).
Proof.
  intros Hrun HP HI Hr.
  pose proof (run_found_by ops init s k wf_init Hrun) as Hfb.
  rewrite Hr in Hfb. simpl in Hfb.
  assert (joined None (tags_for k ops) = Some (found_by r)) as Hj
    by (symmetry; exact Hfb).
  assert (tags_for k ops ≠ []) as Hne.
  { intros Hnil. rewrite Hnil in Hj. done. }
  destruct (joined_first_seen _ HP HI Hne) as (s' & Hs' & Hsplit).
  rewrite Hs' in Hj. injection Hj as Hfb'.
  assert (provenance r = first_seen (tags_for k ops)) as Heq
    by (unfold provenance; by rewrite <-Hfb').
  split; [done|]. rewrite Heq. apply first_seen_NoDup.
Qed.

Lemma provenance_in_order_of_application_witness :
  let ops := [OpAdd Sample.widget (commit_tag "y") true;
              OpAdd Sample.gizmo (commit_tag "z") true;
              OpAdd Sample.widget (commit_tag "x") true;
              OpClear;
              OpAdd Sample.widget (commit_tag "y") true] in
  ∃ r, repos_view (Sample.after ops) !! "acme/widget" = Some r
       ∧ provenance r = ["commit_search: y"; "commit_search: x"]
       ∧ provenance r = first_seen (tags_for "acme/widget" ops)
       ∧ NoDup (provenance r).
Proof.
  intros ops. eexists. split; [vm_compute; reflexivity|].
  split; [vm_compute; reflexivity|].
  apply (provenance_in_order_of_application ops (Sample.after ops)
           "acme/widget").
  - vm_compute. reflexivity.
  - apply Forall_plainb. vm_compute. reflexivity.
  - apply independentb_independent. vm_compute. reflexivity.
  - vm_compute. reflexivity.
Defined.

(** ** Termination without rate limits *)

(** Against a server that answers every request with complete pages the
    executor does what [_make_request] of [endpoint] does. *)
Lemma raw_iteration_answering limit ep st :
  Raw.iteration limit (answering ep) st
  = let '(st', continue) := iteration limit ep st in
    if continue then Raw.Continue st' else Raw.Break st'.
Proof.
  unfold Raw.iteration, iteration, answering.
  destruct (ep (clock st) (page st)) as [elapsed [h data|code h|]]; simpl.
  - destruct (_check_rate_limit _ _); [done|].
    assert ((if decide (page st = 1%nat) then Some (total_count data)
             else Some (seen_total st))
            = Some (if decide (page st = 1%nat) then total_count data
                    else seen_total st)) as -> by (by case_decide).
    destruct (items data) as [|i rest]; [done|]. by case_decide.
  - by case_decide.
  - done.
Qed.

Lemma raw_loop_answering fuel limit ep :
  ∀ st, Raw.loop fuel limit (answering ep) st
        = Raw.Returns <$> loop fuel limit ep st.
Proof.
  induction fuel as [|fuel IH]; intros st; [done|]. simpl.
  rewrite raw_iteration_answering.
  destruct (iteration limit ep st) as [st' [|]]; [apply IH|done].
Qed.

(** A pass on an answer that does not stall ends the call or takes in
    at least one item, with fewer than [limit] items in all. *)
#[local] Ltac count_pages :=
  unfold pages_fetched, get, sleep; simpl;
  rewrite ?filter_app, ?length_app; simpl; rewrite ?Nat.add_0_r, ?Nat.add_1_r;
  first [reflexivity | lia].

Lemma raw_iteration_unthrottled limit (ep : Raw.endpoint) st elapsed r :
  ep (clock st) (page st) = Some (elapsed, r) → ¬ Raw.stalling r →
  match Raw.iteration limit ep st with
  | Raw.Continue st' =>
      (length (all_items st) < length (all_items st'))%nat
      ∧ Z.of_nat (length (all_items st')) < limit
      ∧ pages_fetched st' = S (pages_fetched st)
  | Raw.Break st' => pages_fetched st' = S (pages_fetched st)
  | Raw.Raises e =>
      ∃ h data, r = Raw.Success h data
        ∧ (e = KeyError "total_count" ∧ page st = 1%nat
           ∧ Raw.body_total_count data = None
           ∨ e = KeyError "items" ∧ Raw.body_items data = None)
  | Raw.Hangs => False
  end.
Proof.
  intros Hep Hfair. unfold Raw.iteration. rewrite Hep.
  destruct r as [h data|code h|]; simpl in *.
  - unfold _check_rate_limit. rewrite decide_False by done.
    destruct (if decide (page st = 1%nat) then Raw.body_total_count data
              else Some (seen_total st)) as [total|] eqn:Htotal.
    + destruct (Raw.body_items data) as [[|i rest]|] eqn:Hitems.
      * count_pages.
      * destruct (decide (Z.min total limit ≤ _)) as [Hlen|Hlen].
        -- count_pages.
        -- simpl. rewrite length_app in *. simpl in *.
           split_and!; [lia|lia|count_pages].
      * exists h, data. split; [done|]. by right.
    + exists h, data. split; [done|]. left.
      case_decide; [done|congruence].
  - rewrite decide_False by done. count_pages.
  - count_pages.
Qed.

Lemma raw_loop_unthrottled limit (ep : Raw.endpoint) :
  (∀ now page, ∃ elapsed r, ep now page = Some (elapsed, r)
                            ∧ ¬ Raw.stalling r) →
  ∀ (d fuel : nat) (st : loop_state),
    Z.of_nat (length (all_items st)) + Z.of_nat d = limit - 1 →
    (d < fuel)%nat →
    (∃ st', Raw.loop fuel limit ep st = Some (Raw.Returns st')
            ∧ (pages_fetched st' ≤ pages_fetched st + d + 1)%nat)
    ∨ (∃ now page elapsed h data,
         ep now page = Some (elapsed, Raw.Success h data)
         ∧ (Raw.loop fuel limit ep st = Some (Raw.Raised (KeyError "total_count"))
            ∧ page = 1%nat ∧ Raw.body_total_count data = None
            ∨ Raw.loop fuel limit ep st = Some (Raw.Raised (KeyError "items"))
              ∧ Raw.body_items data = None)).
Proof.
  intros Hfair d. induction (lt_wf d) as [d _ IH]. intros fuel st Hd Hfuel.
  destruct fuel as [|fuel]; [lia|]. simpl.
  destruct (Hfair (clock st) (page st)) as (elapsed & r & Hep & Hr).
  pose proof (raw_iteration_unthrottled limit ep st elapsed r Hep Hr) as Hit.
  destruct (Raw.iteration limit ep st) as [st1|st1|e|]; [| | |done].
  - destruct Hit as (Hgrow & Hlt & Hp).
    destruct (IH (Z.to_nat (limit - 1 - Z.of_nat (length (all_items st1))))
                ltac:(lia) fuel st1 ltac:(lia) ltac:(lia))
      as [(st' & Hloop & Hpages)|Hraise].
    + left. exists st'. split; [done|]. lia.
    + by right.
  - left. exists st1. split; [done|]. lia.
  - destruct Hit as (h & data & -> & [(-> & Hpage & Hnone)|(-> & Hnone)]);
      right; exists (clock st), (page st), elapsed, h, data;
      (split; [done|]); [left|right]; done.
Qed.



(** A page without [total_count] ends the call with a [KeyError]. *)
Lemma keyless_page_raises :
  Raw._make_request 1 SampleServer.keyless 0
  = Some (Raw.Raised (KeyError "total_count")).
Proof. reflexivity. Qed.

(** A request that is never answered keeps the call waiting. *)
Lemma silent_server_waits :
  Raw._make_request 2 SampleServer.silent 0 = Some Raw.Waiting.
Proof. reflexivity. Qed.

(** The executor against the servers of [endpoint]. *)
Lemma loop_unthrottled limit ep :
  (∀ now page, ¬ stalling (ep now page).2) →
  ∀ (d fuel : nat) (st : loop_state),
    Z.of_nat (length (all_items st)) + Z.of_nat d = limit - 1 →
    (d < fuel)%nat →
    ∃ st', loop fuel limit ep st = Some st'
           ∧ (pages_fetched st' ≤ pages_fetched st + d + 1)%nat.
Proof.
  intros Hfair d fuel st Hd Hfuel.
  destruct (raw_loop_unthrottled limit (answering ep)) with (d := d)
    (fuel := fuel) (st := st)
    as [(st' & Hloop & Hpages)|(now & page & elapsed & h & data & Hep & Hraise)];
    [|done|done| |].
  - intros now page. unfold answering. eexists _, _. split; [done|].
    specialize (Hfair now page).
    by destruct (ep now page).2 as [h data|code h|].
  - rewrite raw_loop_answering in Hloop.
    destruct (loop fuel limit ep st) as [st1|]; [|done].
    injection Hloop as ->. by exists st'.
  - unfold answering in Hep.
    destruct (ep now page).2 as [h' data'|code h'|]; [|done..].
    injection Hep as _ _ <-.
    by destruct Hraise as [(_ & _ & ?)|(_ & ?)].
Qed.

Lemma returns_ret {A} (a : A) : returns (ret a).
Proof. intros w. by eexists. Qed.

Lemma returns_lift {A} (x : result A) : returns (lift x).
Proof. intros w. by eexists. Qed.

Lemma returns_wait seconds : returns (wait seconds).
Proof. intros w. by eexists. Qed.

Lemma returns_emit e : returns (emit e).
Proof. intros w. by eexists. Qed.

Lemma returns_bind {A B} (m : M A) (f : A → M B) :
  returns m → (∀ a, returns (f a)) → returns (bindM m f).
Proof.
  intros Hm Hf w. unfold bindM.
  destruct (Hm w) as [[[a|e] w1] ->]; [apply Hf|by eexists].
Qed.

Lemma returns_for_each {A S} (body : A → S → M S) l :
  (∀ x st, returns (body x st)) → ∀ st, returns (for_each body l st).
Proof.
  intros Hbody. induction l as [|x l IH]; intros st; simpl.
  - apply returns_ret.
  - apply returns_bind; [apply Hbody|apply IH].
Qed.

Section unthrottled.
Context (fuel : nat) (srv : server).
Hypothesis Hfuel : (Z.to_nat max_results ≤ fuel)%nat.
Hypothesis Hfair : ∀ r now page, ¬ stalling (srv r now page).2.

Lemma returns_make_request r : returns (make_request fuel srv r).
Proof.
  intros w. unfold make_request.
  destruct (loop_unthrottled max_results (srv r) (Hfair r)
              (Z.to_nat (max_results - 1)) fuel (start (w_clock w)))
    as (st & Hloop & _).
  - simpl. unfold max_results. lia.
  - unfold max_results in *. lia.
  - unfold _make_request. rewrite Hloop. by eexists.
Qed.

Lemma returns_search_code query so flag self :
  returns (search_code fuel srv query so flag self).
Proof.
  apply returns_bind; [apply returns_make_request|].
  intros data. apply returns_lift.
Qed.

Lemma returns_search_commits query flag self :
  returns (search_commits fuel srv query flag self).
Proof.
  apply returns_bind; [apply returns_make_request|].
  intros data. apply returns_lift.
Qed.

Lemma returns_search_issues_in ws query flag self :
  returns (search_issues_in ws fuel srv query flag self).
Proof.
  apply returns_for_each. intros win st.
  apply returns_bind; [apply returns_make_request|]. intros data.
  apply returns_for_each. intros item st'. unfold search_issues_step.
  destruct (search_issues_item _ _ _ _ _ _) as [[s1 lines]|e];
    [|apply returns_lift].
  apply returns_bind; [|intros; apply returns_ret].
  apply returns_for_each. intros line []. apply returns_emit.
Qed.

Lemma returns_search_repositories_in ws query flag self :
  returns (search_repositories_in ws fuel srv query flag self).
Proof.
  apply returns_for_each. intros win st.
  apply returns_bind; [apply returns_make_request|]. intros data.
  apply returns_bind; [apply returns_lift|]. intros s1.
  apply returns_bind; [apply returns_wait|]. intros u. apply returns_ret.
Qed.

Lemma returns_search_firebase_files flag self :
  returns (search_firebase_files fuel srv flag self).
Proof.
  apply returns_for_each. intros f st.
  apply returns_bind; [apply returns_make_request|]. intros data.
  apply returns_bind; [apply returns_lift|]. intros s1.
  apply returns_bind; [apply returns_wait|]. intros u. apply returns_ret.
Qed.

Lemma returns_save_and_clear search_type self :
  returns (save_and_clear search_type self).
Proof.
  apply returns_bind; [apply returns_emit|]. intros u. apply returns_ret.
Qed.

Lemma returns_main token : returns (main token fuel srv).
Proof.
  destruct token as [[|a token]|]; [apply returns_ret| |apply returns_ret].
  cbv beta iota zeta delta [main].
  apply returns_bind; [apply returns_search_repositories_in|]. intros s1.
  apply returns_bind; [apply returns_save_and_clear|]. intros s1'.
  apply returns_bind.
  { apply returns_for_each. intros keyword st. apply returns_for_each.
    intros so st'. apply returns_search_code. }
  intros s2.
  apply returns_bind; [apply returns_save_and_clear|]. intros s2'.
  apply returns_bind.
  { apply returns_for_each. intros keyword st. apply returns_search_commits. }
  intros s3.
  apply returns_bind; [apply returns_save_and_clear|]. intros s3'.
  apply returns_bind.
  { apply returns_for_each. intros keyword st. apply returns_search_issues_in. }
  intros s4.
  apply returns_bind; [apply returns_save_and_clear|]. intros s4'.
  apply returns_bind; [apply returns_search_firebase_files|]. intros s5.
  apply returns_bind; [apply returns_save_and_clear|]. intros s5'.
  apply returns_bind; [apply returns_emit|]. intros u. apply returns_ret.
Qed.
End unthrottled.

(** X19: against every server of [server], one that answers each
    request, with a page that has [total_count] and [items] or with a
    failure, firebase's [main] comes to an end, with its files written
    or with an exception, provided no answer is a 403 error or has a
    used-up quota.  (A request that is never answered, as
    [silent_server_waits] shows for the executor, is outside this
    statement.) *)
Theorem main_returns_when_unthrottled token fuel srv w :
  (Z.to_nat max_results ≤ fuel)%nat →
  (∀ r now page, ¬ stalling (srv r now page).2) →
  ∃ outcome w', main token fuel srv w = Some (outcome, w').
Proof.
  intros Hfuel Hfair.
  destruct (returns_main fuel srv Hfuel Hfair token w) as [[outcome w'] Hmain].
  by exists outcome, w'.
Qed.

Lemma main_returns_when_unthrottled_witness :
  ∃ outcome w',
    main (Some "token") 1000 SampleServer.answers SampleServer.start_of_day
    = Some (outcome, w').
Proof.
  apply (main_returns_when_unthrottled (Some "token") 1000
           SampleServer.answers SampleServer.start_of_day).
  - vm_compute. lia.
  - intros r now page. unfold SampleServer.answers.
    repeat case_decide; simpl; lia.
Defined.
